(** * NeoWS-Monitor: the ingestion, normalization and scoring pipeline

    A shallow embedding of [src/app.py], [src/visuals.py] and
    [src/fetch.py].

    The values the script computes with are Python objects: the parsed JSON
    feed (dicts, lists, strings, numbers), and, once the rows are in a pandas
    frame, numpy [float64] scalars.  The embedding keeps both layers:

    - the JSON layer is an inductive type with Python's subscripting,
      truthiness, iteration and [float()] written out, in an error monad whose
      failures are the Python exceptions;
    - the numeric layer is a class [Float64] of the operations the script
      uses.  Its instance [binary64] is the arithmetic of the code: Rocq's
      primitive IEEE 754 doubles, bit for bit what numpy computes, with
      rounding, overflow and the two zeros.  Every statement about the numbers
      the script computes is made and proved in [binary64], through the
      reference implementation [SpecFloat] that the primitive operations are
      specified by.  The second instance, [exact], computes on rationals
      without rounding: it is the real-number reading of the same formulas, the
      arithmetic the spec's worked example is written in, and is used for
      that comparison only. *)

From Stdlib Require Import ZArith QArith Qpower Qminmax Lqa Lia List String Ascii Bool.
From Stdlib Require Import PrimFloat SpecFloat FloatOps FloatAxioms.
Import ListNotations.

Set Warnings "-inexact-float,-register-all".

(** ** Python exceptions and the error monad *)

(** [StreamlitAPIException] is raised by [st.progress] on a value outside
    its range.  [Unmodelled] is not an exception of Python: it marks a run
    that leaves the embedding, where pandas goes on with a column type
    (int64, object) that is not followed here.  No statement below depends on
    what the code does there. *)
Inductive exn : Type :=
| KeyError | IndexError | TypeError | ValueError | AttributeError | OverflowError
| ZeroDivisionError
| StreamlitAPIException
| Unmodelled.

Inductive result (A : Type) : Type :=
| Ret (a : A)
| Raise (e : exn).
Arguments Ret {A} a.
Arguments Raise {A} e.

Definition bind {A B : Type} (m : result A) (k : A -> result B) : result B :=
  match m with
  | Ret a => k a
  | Raise e => Raise e
  end.

Declare Scope py_scope.
Delimit Scope py_scope with py.
Notation "x <- m ;; k" := (bind m (fun x => k))
  (at level 61, m at next level, right associativity) : py_scope.
Local Open Scope py_scope.

Definition returns {A : Type} (m : result A) : Prop := exists a, m = Ret a.

(** ** The numeric layer *)

(** The operations of a float64 scalar that the script uses.  [of_Q] is the
    conversion of an exact decimal (a literal such as [0.7], an [int] operand,
    the digits handed to [float()]) to the number type; [to_int] is [int(x)],
    which refuses the infinities and NaN. *)
Class Float64 (F : Type) : Type := {
  of_Q : Q -> F;
  finf : F;
  fnan : F;
  fopp : F -> F;
  fadd : F -> F -> F;
  fmul : F -> F -> F;
  fdiv : F -> F -> F;
  flt : F -> F -> bool;
  fle : F -> F -> bool;
  fis_nan : F -> bool;
  to_int : F -> result Z
}.

(** *** binary64: IEEE 754 doubles *)

(** The double nearest to a rational (ties to even), through the reference
    division of [SpecFloat] on the integers numerator and denominator.  A
    rational has one zero, which is written [+0.0]; the negative zero of a
    text such as [-0] comes from the sign, in [py_float]. *)
Definition Q2F (q : Q) : float :=
  let den := S754_finite false (Qden q) 0 in
  match Qnum q with
  | Z0 => PrimFloat.zero
  | Zpos n => SF2Prim (SFdiv prec emax (S754_finite false n 0) den)
  | Zneg n => SF2Prim (SFdiv prec emax (S754_finite true n 0) den)
  end.

(** [int(x)] on a double: the integer part, towards zero;
    [OverflowError] on an infinity, [ValueError] on NaN. *)
Definition float_to_int (x : float) : result Z :=
  match Prim2SF x with
  | S754_zero _ => Ret 0%Z
  | S754_finite s m e => Ret (cond_Zopp s (Z.shiftl (Zpos m) e))
  | S754_infinity _ => Raise OverflowError
  | S754_nan => Raise ValueError
  end.

#[export] Instance binary64 : Float64 float := {|
  of_Q := Q2F;
  finf := PrimFloat.infinity;
  fnan := PrimFloat.nan;
  fopp := PrimFloat.opp;
  fadd := PrimFloat.add;
  fmul := PrimFloat.mul;
  fdiv := PrimFloat.div;
  flt := PrimFloat.ltb;
  fle := PrimFloat.leb;
  fis_nan := PrimFloat.is_nan;
  to_int := float_to_int
|}.

(** *** exact: the real-number reading *)

(** Rationals with the two infinities and NaN.  There is no rounding, no
    overflow and one zero only, so this is not what the code computes: it is
    what the formulas denote over the reals, and also the type in which the
    value of a double is expressed ([B2X] below). *)

Inductive xq : Type :=
| Fin (q : Q)
| PInf
| NInf
| NaN.

Definition xopp (a : xq) : xq :=
  match a with
  | Fin q => Fin (- q)
  | PInf => NInf
  | NInf => PInf
  | NaN => NaN
  end.

Definition xadd (a b : xq) : xq :=
  match a, b with
  | NaN, _ | _, NaN => NaN
  | PInf, NInf | NInf, PInf => NaN
  | PInf, _ | _, PInf => PInf
  | NInf, _ | _, NInf => NInf
  | Fin p, Fin q => Fin (p + q)
  end.

(** An infinity times a finite number takes the sign of the product; times
    zero it is not a number. *)
Definition inf_signed (pos : bool) (q : Q) : xq :=
  match q ?= 0 with
  | Eq => NaN
  | Gt => if pos then PInf else NInf
  | Lt => if pos then NInf else PInf
  end.

Definition xmul (a b : xq) : xq :=
  match a, b with
  | NaN, _ | _, NaN => NaN
  | Fin p, Fin q => Fin (p * q)
  | PInf, Fin q | Fin q, PInf => inf_signed true q
  | NInf, Fin q | Fin q, NInf => inf_signed false q
  | PInf, PInf | NInf, NInf => PInf
  | PInf, NInf | NInf, PInf => NInf
  end.

(** Division as numpy scalars do it: a finite number over zero is an
    infinity of its sign, zero over zero is not a number. *)
Definition xdiv (a b : xq) : xq :=
  match a, b with
  | NaN, _ | _, NaN => NaN
  | Fin p, Fin q =>
      match q ?= 0 with
      | Eq => inf_signed true p
      | _ => Fin (p / q)
      end
  | Fin _, (PInf | NInf) => Fin 0
  | PInf, Fin q => if Qle_bool 0 q then PInf else NInf
  | NInf, Fin q => if Qle_bool 0 q then NInf else PInf
  | (PInf | NInf), (PInf | NInf) => NaN
  end.

Definition xle_bool (a b : xq) : bool :=
  match a, b with
  | NaN, _ | _, NaN => false
  | NInf, _ | _, PInf => true
  | _, NInf | PInf, _ => false
  | Fin p, Fin q => Qle_bool p q
  end.

Definition xlt_bool (a b : xq) : bool :=
  match a, b with
  | NaN, _ | _, NaN => false
  | _, NInf | PInf, _ => false
  | NInf, _ | _, PInf => true
  | Fin p, Fin q => negb (Qle_bool q p)
  end.

Definition xis_nan (a : xq) : bool :=
  match a with
  | NaN => true
  | _ => false
  end.

(** [int(x)] on an exact number: the integer part, towards zero. *)
Definition int_exact (x : xq) : result Z :=
  match x with
  | Fin q => Ret (Z.quot (Qnum q) (Zpos (Qden q)))
  | PInf | NInf => Raise OverflowError
  | NaN => Raise ValueError
  end.

#[export] Instance exact : Float64 xq := {|
  of_Q := Fin;
  finf := PInf;
  fnan := NaN;
  fopp := xopp;
  fadd := xadd;
  fmul := xmul;
  fdiv := xdiv;
  flt := xlt_bool;
  fle := xle_bool;
  fis_nan := xis_nan;
  to_int := int_exact
|}.

(** The order and the equality of [exact] numbers as propositions.  As for
    IEEE comparisons, nothing is related to [NaN], itself included. *)
Definition xle (a b : xq) : Prop :=
  match a, b with
  | NaN, _ | _, NaN => False
  | NInf, _ | _, PInf => True
  | _, NInf | PInf, _ => False
  | Fin p, Fin q => (p <= q)%Q
  end.

Definition xlt (a b : xq) : Prop :=
  match a, b with
  | NaN, _ | _, NaN => False
  | _, NInf | PInf, _ => False
  | NInf, _ | _, PInf => True
  | Fin p, Fin q => (p < q)%Q
  end.

Definition xeq (a b : xq) : Prop :=
  match a, b with
  | Fin p, Fin q => (p == q)%Q
  | PInf, PInf | NInf, NInf => True
  | _, _ => False
  end.

(** *** The value of a double, and correct rounding *)

(** What follows states what a binary64 operation returns in terms of
    exact numbers: the value of a double is a rational, an infinity or NaN
    ([B2X]), and the result of an operation is the rounding of the exact
    result to the nearest double, ties to even ([rounds]).  The operations
    themselves are those of [PrimFloat]; these definitions only describe
    them. *)

Definition pow2 (e : Z) : Q := 2 ^ e.

(** The value of the mantissa [k] at exponent [c]. *)
Definition at_exp (k c : Z) : Q := inject_Z k * pow2 c.

Definition SF2X (x : spec_float) : xq :=
  match x with
  | S754_zero _ => Fin 0
  | S754_infinity s => if s then NInf else PInf
  | S754_nan => NaN
  | S754_finite s m e => Fin (if s then - at_exp (Zpos m) e else at_exp (Zpos m) e)
  end.

Definition B2X (x : float) : xq := SF2X (Prim2SF x).

(** [rne_rel x k]: the integer [k] is [x] rounded to the nearest integer,
    ties to even. *)
Definition rne_rel (x : Q) (k : Z) : Prop :=
  (inject_Z k - (1 # 2) < x /\ x < inject_Z k + (1 # 2))
  \/ ((x == inject_Z k - (1 # 2) \/ x == inject_Z k + (1 # 2)) /\ Z.even k = true).

(** [canon v c]: [c] is the exponent at which binary64 writes the positive
    number [v]: the least exponent, -1074, below [2^-1021], else the one that
    puts [v / 2^c] in [[2^52, 2^53)]. *)
Definition canon (v : Q) (c : Z) : Prop :=
  (c = (-1074)%Z /\ v < pow2 (-1021))
  \/ ((-1074 < c)%Z /\ pow2 (c + 52) <= v /\ v < pow2 (c + 53)).

(** A magnitude at or above [2^1024] is written as infinity. *)
Definition clip (q : Q) : xq := if Qle_bool (pow2 1024) q then PInf else Fin q.

(** [rounds_pos v r]: [r] is the binary64 rounding of the positive number
    [v]. *)
Definition rounds_pos (v : Q) (r : xq) : Prop :=
  exists c k, canon v c /\ rne_rel (v / pow2 c) k /\ xeq r (clip (at_exp k c)).

(** [rounds a r]: [r] is the value of the double that an operation with
    exact result [a] returns. *)
Definition rounds (a r : xq) : Prop :=
  match a with
  | Fin q => (q == 0 /\ xeq r (Fin 0))
             \/ (0 < q /\ rounds_pos q r)
             \/ (q < 0 /\ rounds_pos (- q) (xopp r))
  | PInf => r = PInf
  | NInf => r = NInf
  | NaN => r = NaN
  end.

(** The number of magnitude [v] and sign bit [s]. *)
Definition signed (s : bool) (v : Q) : Q := if s then - v else v.

(** [vle x y]: the value of [x] is at most the value of [y], neither being
    NaN; it is what [x <= y] tests. *)
Definition vle (x y : float) : Prop := xle (B2X x) (B2X y).

(** A positive finite double. *)
Definition is_pos_finite (c : float) : bool :=
  match Prim2SF c with
  | S754_finite false _ _ => true
  | _ => false
  end.

(** How [SpecFloat] describes a number while it shifts its mantissa: the
    integer [m] with the location [l] stands for a number [x] of the interval
    from [m] to [m + 1]. *)
Definition inb (m : Z) (l : location) (x : Q) : Prop :=
  match l with
  | loc_Exact => x == inject_Z m
  | loc_Inexact c =>
      inject_Z m < x /\ x < inject_Z m + 1 /\ (x ?= inject_Z m + (1 # 2)) = c
  end.

Definition rec_repr (mrs : shr_record) (x : Q) : Prop :=
  (0 <= shr_m mrs)%Z /\ inb (shr_m mrs) (loc_of_shr_record mrs) x.

(** The double of sign [s], mantissa [k] and exponent [c], as
    [binary_round_aux] returns it after rounding. *)
Definition pack (s : bool) (k c : Z) : spec_float :=
  match k with
  | Z0 => S754_zero s
  | Zpos m =>
      if (k =? 2 ^ 53)%Z
      then if (c + 1 <=? 971)%Z then S754_finite s (2 ^ 52)%positive (c + 1)
           else S754_infinity s
      else if (c <=? 971)%Z then S754_finite s m c else S754_infinity s
  | Zneg _ => S754_nan
  end.

Definition mantissa_ok (k c : Z) : Prop :=
  (0 <= k <= 2 ^ 53)%Z /\ (-1074 <= c)%Z /\ ((-1074 < c)%Z -> (2 ^ 52 <= k)%Z).

Close Scope Q_scope.

(** ** Python's [float()] on strings *)

(** What the text of a number denotes, before it is converted to the number
    type: a decimal, a signed infinity or not-a-number. *)
Inductive numlit : Type :=
| LitNum (negative : bool) (magnitude : Q)
| LitInf (negative : bool)
| LitNan.

Definition is_space (c : ascii) : bool :=
  let n := nat_of_ascii c in
  Nat.eqb n 32 || (Nat.leb 9 n && Nat.leb n 13).

Definition lower (c : ascii) : ascii :=
  let n := nat_of_ascii c in
  if Nat.leb 65 n && Nat.leb n 90 then ascii_of_nat (n + 32) else c.

Definition digit_of (c : ascii) : option Z :=
  let n := nat_of_ascii c in
  if Nat.leb 48 n && Nat.leb n 57 then Some (Z.of_nat (n - 48)) else None.

Definition is_digit (c : ascii) : bool :=
  match digit_of c with
  | Some _ => true
  | None => false
  end.

(** Underscores may group digits: each one needs a digit before it and a
    digit after it, and is dropped; any other underscore makes the text
    invalid.  [prev] is the character before [s]. *)
Fixpoint drop_underscores (prev : option ascii) (s : list ascii) : option (list ascii) :=
  match s with
  | [] =>
      match prev with
      | Some p => if Ascii.eqb p "_" then None else Some []
      | None => Some []
      end
  | c :: rest =>
      if Ascii.eqb c "_" then
        match prev with
        | Some p => if is_digit p then drop_underscores (Some c) rest else None
        | None => None
        end
      else
        let after_underscore :=
          match prev with
          | Some p => Ascii.eqb p "_"
          | None => false
          end in
        if after_underscore && negb (is_digit c) then None
        else option_map (cons c) (drop_underscores (Some c) rest)
  end.

Fixpoint lstrip (s : list ascii) : list ascii :=
  match s with
  | c :: rest => if is_space c then lstrip rest else s
  | [] => []
  end.

Definition strip (s : list ascii) : list ascii :=
  rev (lstrip (rev (lstrip s))).

(** Reads a run of digits: the number read so far, how many digits were
    read, and what follows them. *)
Fixpoint digits (s : list ascii) (acc : Z) (n : Z) : Z * Z * list ascii :=
  match s with
  | c :: rest =>
      match digit_of c with
      | Some d => digits rest (10 * acc + d) (n + 1)
      | None => (acc, n, s)
      end
  | [] => (acc, n, [])
  end.

Definition sign_of (s : list ascii) : bool * list ascii :=
  match s with
  | "-"%char :: rest => (true, rest)
  | "+"%char :: rest => (false, rest)
  | _ => (false, s)
  end.

(** [m * 10^e] as a rational. *)
Definition scale10 (m e : Z) : Q :=
  if (0 <=? e)%Z then inject_Z (m * 10 ^ e) else Qmake m (Z.to_pos (10 ^ (- e))).

Definition exponent (s : list ascii) : option Z :=
  match s with
  | [] => Some 0%Z
  | c :: rest =>
      if Ascii.eqb (lower c) "e" then
        let '(neg, rest) := sign_of rest in
        let '(e, n, rest) := digits rest 0 0 in
        match rest with
        | [] => if (0 <? n)%Z then Some (if neg then (- e)%Z else e) else None
        | _ => None
        end
      else None
  end.

Definition decimal (s : list ascii) : option Q :=
  let '(i, ni, rest) := digits s 0 0 in
  let '(m, nf, rest) :=
    match rest with
    | "."%char :: rest => digits rest i 0
    | _ => (i, 0%Z, rest)
    end in
  if (0 <? ni + nf)%Z then
    match exponent rest with
    | Some e => Some (scale10 m (e - nf))
    | None => None
    end
  else None.

(** The grammar of [float(str)]: surrounding whitespace, underscores
    between digits, a sign, then [inf], [infinity] or [nan] in any case, or a
    decimal with an optional exponent.  The sign is kept apart from the
    magnitude, so that [-0] is read as a negative zero. *)
Definition parse_float (s : string) : option numlit :=
  match drop_underscores None (strip (list_ascii_of_string s)) with
  | None => None
  | Some text =>
      let '(neg, body) := sign_of text in
      let word := string_of_list_ascii (map lower body) in
      if (String.eqb word "inf" || String.eqb word "infinity")%string then Some (LitInf neg)
      else if String.eqb word "nan" then Some LitNan
      else match decimal body with
           | Some q => Some (LitNum neg q)
           | None => None
           end
  end.

(** ** The parsed feed: JSON values as Python objects *)

Section Pipeline.

Context {F : Type} `{Float64 F}.

(** [response.json()]: objects become dicts (in document order), arrays
    lists, and numbers [int] or [float]. *)
Inductive json : Type :=
| JNull
| JBool (b : bool)
| JInt (z : Z)
| JFloat (x : F)
| JStr (s : string)
| JList (l : list json)
| JDict (kv : list (string * json)).

Inductive key : Type :=
| KStr (s : string)
| KInt (i : Z).

Fixpoint lookup (k : string) (kv : list (string * json)) : option json :=
  match kv with
  | [] => None
  | (k', v) :: rest => if String.eqb k k' then Some v else lookup k rest
  end.

(** [v[k]].  A dict of the feed has string keys only, so an integer key is
    never found in it; a list or a string takes integer indices only. *)
Definition subscript (v : json) (k : key) : result json :=
  match v, k with
  | JDict kv, KStr s =>
      match lookup s kv with
      | Some x => Ret x
      | None => Raise KeyError
      end
  | JDict _, KInt _ => Raise KeyError
  | JList l, KInt i =>
      let n := Z.of_nat (List.length l) in
      if ((- n <=? i) && (i <? n))%Z
      then match nth_error l (Z.to_nat (i mod n)) with
           | Some x => Ret x
           | None => Raise IndexError
           end
      else Raise IndexError
  | JStr s, KInt i =>
      let n := Z.of_nat (String.length s) in
      if ((- n <=? i) && (i <? n))%Z
      then match String.get (Z.to_nat (i mod n)) s with
           | Some c => Ret (JStr (String c EmptyString))
           | None => Raise IndexError
           end
      else Raise IndexError
  | _, _ => Raise TypeError
  end.

Notation "v .[ k ]" := (subscript v (KStr k)) (at level 1, format "v .[ k ]") : py_scope.

(** The truth value of an object, as [not] and [if] test it. *)
Definition truth (v : json) : bool :=
  match v with
  | JNull => false
  | JBool b => b
  | JInt z => negb (z =? 0)%Z
  | JFloat x => negb (fle x (of_Q 0) && fle (of_Q 0) x)
  | JStr s => negb (String.eqb s "")
  | JList l => match l with [] => false | _ => true end
  | JDict kv => match kv with [] => false | _ => true end
  end.

(** [for x in v]: the elements of a list, the keys of a dict, the characters
    of a string. *)
Definition iterate (v : json) : result (list json) :=
  match v with
  | JList l => Ret l
  | JDict kv => Ret (map (fun p => JStr (fst p)) kv)
  | JStr s => Ret (map (fun c => JStr (String c EmptyString)) (list_ascii_of_string s))
  | _ => Raise TypeError
  end.

(** [d.get(k, default)] and [d.items()], methods of dicts only. *)
Definition get (d : json) (k : string) (default : json) : result json :=
  match d with
  | JDict kv =>
      match lookup k kv with
      | Some x => Ret x
      | None => Ret default
      end
  | _ => Raise AttributeError
  end.

Definition items (d : json) : result (list (string * json)) :=
  match d with
  | JDict kv => Ret kv
  | _ => Raise AttributeError
  end.

(** The least integer magnitude that [float(int)] refuses (it would round
    to infinity): [2^1024 - 2^970]. *)
Definition int_too_large : Z := 2 ^ 1024 - 2 ^ 970.

(** [float(v)]. *)
Definition py_float (v : json) : result F :=
  match v with
  | JFloat x => Ret x
  | JInt z => if (Z.abs z <? int_too_large)%Z then Ret (of_Q (inject_Z z)) else Raise OverflowError
  | JBool b => Ret (of_Q (if b then 1 else 0))
  | JStr s =>
      match parse_float s with
      | Some (LitNum negative q) => Ret (if negative then fopp (of_Q q) else of_Q q)
      | Some (LitInf negative) => Ret (if negative then fopp finf else finf)
      | Some LitNan => Ret fnan
      | None => Raise ValueError
      end
  | _ => Raise TypeError
  end.

(** ** Record Normalizer ([app.py], lines 48-67) *)

(** One entry of [all_asteroids]: the dict [asteroid_info].  The feed's
    values are stored as they come; only the two [float()] fields are
    converted. *)
Record asteroid_info : Type := {
  info_id : json;
  info_name : json;
  info_date : string;
  info_diameter_min_km : json;
  info_diameter_max_km : json;
  info_is_hazardous : json;
  info_close_approach_date : json;
  info_miss_distance_km : F;
  info_relative_velocity_kph : F
}.

(** The body of the inner loop for one [asteroid]: [None] is [continue],
    [Some info] is [all_asteroids.append(info)].  The dict display evaluates
    its values from top to bottom, so the first missing field decides the
    exception. *)
Definition asteroid_row (date : string) (asteroid : json) : result (option asteroid_info) :=
  cad <- asteroid.["close_approach_data"] ;;
  if negb (truth cad) then Ret None else
  id <- asteroid.["id"] ;;
  name <- asteroid.["name"] ;;
  dmin <- (d <- asteroid.["estimated_diameter"] ;; k <- d.["kilometers"] ;;
           k.["estimated_diameter_min"]) ;;
  dmax <- (d <- asteroid.["estimated_diameter"] ;; k <- d.["kilometers"] ;;
           k.["estimated_diameter_max"]) ;;
  hazardous <- asteroid.["is_potentially_hazardous_asteroid"] ;;
  approach_date <- (c <- asteroid.["close_approach_data"] ;; a <- subscript c (KInt 0) ;;
                    a.["close_approach_date"]) ;;
  miss <- (c <- asteroid.["close_approach_data"] ;; a <- subscript c (KInt 0) ;;
           m <- a.["miss_distance"] ;; km <- m.["kilometers"] ;; py_float km) ;;
  velocity <- (c <- asteroid.["close_approach_data"] ;; a <- subscript c (KInt 0) ;;
               v <- a.["relative_velocity"] ;; kph <- v.["kilometers_per_hour"] ;; py_float kph) ;;
  Ret (Some {| info_id := id;
               info_name := name;
               info_date := date;
               info_diameter_min_km := dmin;
               info_diameter_max_km := dmax;
               info_is_hazardous := hazardous;
               info_close_approach_date := approach_date;
               info_miss_distance_km := miss;
               info_relative_velocity_kph := velocity |}).

(** [for asteroid in asteroids: ...], threading the list [all_asteroids];
    an exception leaves the loop. *)
Fixpoint for_asteroids (date : string) (asteroids : list json)
    (all_asteroids : list asteroid_info) : result (list asteroid_info) :=
  match asteroids with
  | [] => Ret all_asteroids
  | asteroid :: rest =>
      row <- asteroid_row date asteroid ;;
      for_asteroids date rest
        (match row with
         | Some info => all_asteroids ++ [info]
         | None => all_asteroids
         end)
  end.

(** [for date, asteroids in neo_data.items(): ...]. *)
Fixpoint for_dates (neo_items : list (string * json))
    (all_asteroids : list asteroid_info) : result (list asteroid_info) :=
  match neo_items with
  | [] => Ret all_asteroids
  | (date, asteroids) :: rest =>
      objects <- iterate asteroids ;;
      all_asteroids <- for_asteroids date objects all_asteroids ;;
      for_dates rest all_asteroids
  end.

Definition normalize (data : json) : result (list asteroid_info) :=
  neo_data <- get data "near_earth_objects" (JDict []) ;;
  neo_items <- items neo_data ;;
  for_dates neo_items [].

(** ** Metric Deriver ([app.py], lines 69-80; [visuals.py], [render_summary]) *)

(** One row of the frame [df], with the derived column. *)
Record FlatRecord : Type := {
  id : json;
  name : json;
  date : string;
  diameter_min_km : F;
  diameter_max_km : F;
  is_hazardous : bool;
  close_approach_date : json;
  miss_distance_km : F;
  relative_velocity_kph : F;
  avg_diameter_km : F
}.

(** The frames followed here are those whose columns pandas types as the
    feed of the service makes them: [float64] for the two diameters (JSON
    numbers with a fraction) and [bool] for the flag.  With an integer or a
    null among the diameters, or a flag that is not a boolean, pandas builds
    columns of other types (int64, which wraps; object) and goes on; such a
    frame is outside the embedding ([None] here, [Unmodelled] below). *)
Definition number (v : json) : option F :=
  match v with
  | JFloat x => Some x
  | _ => None
  end.

(** The row of [df] for one [asteroid_info], with
    [avg_diameter_km = (diameter_min_km + diameter_max_km) / 2]. *)
Definition frame_row (info : asteroid_info) : option FlatRecord :=
  match number (info_diameter_min_km info), number (info_diameter_max_km info),
        info_is_hazardous info with
  | Some dmin, Some dmax, JBool hazardous =>
      Some {| id := info_id info;
              name := info_name info;
              date := info_date info;
              diameter_min_km := dmin;
              diameter_max_km := dmax;
              is_hazardous := hazardous;
              close_approach_date := info_close_approach_date info;
              miss_distance_km := info_miss_distance_km info;
              relative_velocity_kph := info_relative_velocity_kph info;
              avg_diameter_km := fdiv (fadd dmin dmax) (of_Q 2) |}
  | _, _, _ => None
  end.

Fixpoint frame_rows (all_asteroids : list asteroid_info) : option (list FlatRecord) :=
  match all_asteroids with
  | [] => Some []
  | info :: rest =>
      match frame_row info, frame_rows rest with
      | Some r, Some df => Some (r :: df)
      | _, _ => None
      end
  end.

(** Lines 69-70.  [pd.DataFrame([])] has no columns, so on an empty list
    [df['diameter_min_km']] raises [KeyError]. *)
Definition DataFrame (all_asteroids : list asteroid_info) : result (list FlatRecord) :=
  match all_asteroids with
  | [] => Raise KeyError
  | _ =>
      match frame_rows all_asteroids with
      | Some df => Ret df
      | None => Raise Unmodelled
      end
  end.

Definition of_nat (n : nat) : F := of_Q (inject_Z (Z.of_nat n)).

(** *** The sum of a column *)

(** numpy adds a contiguous [float64] array in pairs.  Fewer than 8 numbers
    are added from left to right.  Up to 128 numbers are added in 8 lanes,
    lane [j] taking the entries [j], [j + 8], [j + 16], ...; the lanes are
    added as [((r0 + r1) + (r2 + r3)) + ((r4 + r5) + (r6 + r7))], and the
    entries after the last full group of 8 are added to that one by one.
    More than 128 numbers are cut in two, the first part of [n / 2] entries
    rounded down to a multiple of 8, and the sums of the parts are added. *)

(** [r[j] += a[j]] for the lanes. *)
Fixpoint add_lanes (r a : list F) : list F :=
  match r, a with
  | x :: r', y :: a' => fadd x y :: add_lanes r' a'
  | _, _ => r
  end.

(** [k] groups of 8 entries added to the lanes; what is left of the array. *)
Fixpoint add_groups (k : nat) (r a : list F) : list F * list F :=
  match k with
  | O => (r, a)
  | S k' => add_groups k' (add_lanes r (firstn 8 a)) (skipn 8 a)
  end.

Definition block_sum (a : list F) : F :=
  let '(r, rest) := add_groups (List.length a / 8 - 1) (firstn 8 a) (skipn 8 a) in
  match r with
  | [r0; r1; r2; r3; r4; r5; r6; r7] =>
      fold_left fadd rest
        (fadd (fadd (fadd r0 r1) (fadd r2 r3)) (fadd (fadd r4 r5) (fadd r6 r7)))
  | _ => fold_left fadd a (of_Q 0)
  end.

(** The recursion on halves takes fewer steps than the array has entries;
    [pairwise_sum] is called with that many. *)
Fixpoint pairwise_sum (steps : nat) (a : list F) : F :=
  let n := List.length a in
  if Nat.ltb n 8 then fold_left fadd a (of_Q 0)
  else if Nat.leb n 128 then block_sum a
  else
    match steps with
    | O => block_sum a
    | S steps' =>
        let n2 := (n / 2 - (n / 2) mod 8)%nat in
        fadd (pairwise_sum steps' (firstn n2 a)) (pairwise_sum steps' (skipn n2 a))
    end.

(** [values.sum()]: the reduction starts from 0. *)
Definition column_sum (values : list F) : F :=
  fadd (of_Q 0) (pairwise_sum (List.length values) values).

(** [Series.mean()] of a [float64] column: NaN entries count as 0 in the sum
    and are not counted in the divisor; with nothing to count the mean is
    NaN. *)
Definition mean (values : list F) : F :=
  let count := List.length (filter (fun x => negb (fis_nan x)) values) in
  match count with
  | O => fnan
  | _ => fdiv (column_sum (map (fun x => if fis_nan x then of_Q 0 else x) values)) (of_nat count)
  end.

(** The three metrics of the summary. *)
Record Aggregate : Type := {
  total : nat;
  hazardous_count : nat;
  hazardous_pct : F;
  mean_avg_diameter_km : F
}.

(** The statements of the summary on the rows of a frame with typed
    columns: [hazardous_count] is a numpy integer, so
    [hazardous_count/len(df)*100] is a numpy division. *)
Definition summary_metrics (df : list FlatRecord) : Aggregate :=
  let hazardous_count := List.length (filter is_hazardous df) in
  {| total := List.length df;
     hazardous_count := hazardous_count;
     hazardous_pct := fmul (fdiv (of_nat hazardous_count) (of_nat (List.length df))) (of_Q 100);
     mean_avg_diameter_km := mean (map avg_diameter_km df) |}.

(** The frames that [render_summary] may be handed: a frame without columns
    ([pd.DataFrame([])]); a frame that has the columns and no rows, the
    columns being of dtype object ([pd.DataFrame(columns=[...])]); a frame
    with typed columns, as lines 69-70 build it and as a selection of its rows
    keeps it, with any number of rows. *)
Inductive pandas_frame : Type :=
| NoColumns
| EmptyObject
| Typed (rows : list FlatRecord).

(** [render_summary(df)].  Without columns, [df['is_hazardous']] raises
    [KeyError].  The sum of an empty object column is the Python integer 0,
    and [0/len(df)] is then Python's own division, which raises
    [ZeroDivisionError].  On typed columns the division is numpy's: a zero
    divisor gives NaN and no exception. *)
Definition render_summary (df : pandas_frame) : result Aggregate :=
  match df with
  | NoColumns => Raise KeyError
  | EmptyObject => Raise ZeroDivisionError
  | Typed rows => Ret (summary_metrics rows)
  end.

(** The summary as [app.py] reaches it (lines 69-80): after the frame is
    built. *)
Definition summary_statistics (all_asteroids : list asteroid_info) : result Aggregate :=
  df <- DataFrame all_asteroids ;;
  render_summary (Typed df).

(** ** Selection Engine ([app.py], lines 116-119) *)

(** [filtered_df[filtered_df['is_hazardous'] == True]], when the box is
    ticked. *)
Definition hazardous_filter (show_hazardous : bool) (df : list FlatRecord) : list FlatRecord :=
  if show_hazardous then filter (fun r => Bool.eqb (is_hazardous r) true) df else df.

(** [filtered_df[filtered_df['avg_diameter_km'] >= size_threshold]]. *)
Definition size_filter (size_threshold : F) (df : list FlatRecord) : list FlatRecord :=
  filter (fun r => fle size_threshold (avg_diameter_km r)) df.

Definition filtered_df (show_hazardous : bool) (size_threshold : F)
    (df : list FlatRecord) : list FlatRecord :=
  size_filter size_threshold (hazardous_filter show_hazardous df).

(** ** Hazard Scorer ([app.py], lines 155-168) *)

(** [asteroid_details] is a row of the frame, taken with [.iloc[0]]: its
    numeric fields are numpy [float64] scalars.  Their [/] is the IEEE 754
    division, which on a zero divisor gives an infinity or NaN (numpy warns)
    where Python's own [float] raises [ZeroDivisionError]; hence [fdiv] is
    total and lines 155-159 raise nothing.  Line 160 can raise, in [int()]. *)

(** Python's [min(a, b)]: [b] when [b < a], else [a]. *)
Definition pymin (a b : F) : F := if flt b a then b else a.

Definition size_factor (r : FlatRecord) : F :=
  pymin (fdiv (avg_diameter_km r) (of_Q 0.5)) (of_Q 1).

Definition distance_factor (r : FlatRecord) : F :=
  pymin (fdiv (of_Q 1000000) (miss_distance_km r)) (of_Q 1).

Definition hazard_level (r : FlatRecord) : F :=
  if is_hazardous r
  then fmul (fadd (fmul (size_factor r) (of_Q 0.7)) (fmul (distance_factor r) (of_Q 0.3)))
            (of_Q 100)
  else of_Q 0.

Inductive tier : Type := high | medium | low.

(** The three branches of the Context message (lines 163-168). *)
Definition hazard_tier (r : FlatRecord) : tier :=
  if flt (of_Q 70) (hazard_level r) then high
  else if flt (of_Q 40) (hazard_level r) then medium
  else low.

(** The tiers in the order of severity. *)
Definition tier_rank (t : tier) : nat :=
  match t with
  | low => 0
  | medium => 1
  | high => 2
  end.

(** Line 160: the value handed to [st.progress], [int(hazard_level)]. *)
Definition progress_value (r : FlatRecord) : result Z :=
  to_int (hazard_level r).

(** [st.progress(value)] takes an integer from 0 to 100 and raises on any
    other. *)
Definition st_progress (value : Z) : result unit :=
  if ((0 <=? value) && (value <=? 100))%Z then Ret tt else Raise StreamlitAPIException.

(** Lines 155-168 in the order of the script: the progress bar is drawn
    before the Context message, so an exception of [int()] or of
    [st.progress] leaves the run without a message. *)
Definition hazard_display (r : FlatRecord) : result (Z * tier) :=
  value <- progress_value r ;;
  _ <- st_progress value ;;
  Ret (value, hazard_tier r).

End Pipeline.

Arguments json F : clear implicits.
Arguments asteroid_info F : clear implicits.
Arguments FlatRecord F : clear implicits.
Arguments Aggregate F : clear implicits.

(** ** Date Window Validator ([app.py], lines 26-30) *)

(** A [datetime.date] is its proleptic Gregorian ordinal, from 1 (0001-01-01)
    to 3652059 (9999-12-31). *)
Definition date_max : Z := 3652059.

Definition valid_date (d : Z) : Prop := (1 <= d <= date_max)%Z.

(** [d + timedelta(days=n)]. *)
Definition date_add (d n : Z) : result Z :=
  if ((1 <=? d + n) && (d + n <=? date_max))%Z then Ret (d + n)%Z else Raise OverflowError.

(** The window after validation, and whether the warning was shown. *)
Record Window : Type := {
  start_date : Z;
  end_date : Z;
  warned : bool
}.

Definition validate_range (start_date end_date : Z) : result Window :=
  let date_diff := (end_date - start_date)%Z in
  if (7 <? date_diff)%Z
  then end_date <- date_add start_date 7 ;;
       Ret {| start_date := start_date; end_date := end_date; warned := true |}
  else Ret {| start_date := start_date; end_date := end_date; warned := false |}.


(** ** The feed as the Normalizer walks it *)

Section Feed.

Context {F : Type} `{Float64 F}.

(** The (date, object) pairs of the feed, in the order of the two loops. *)
Fixpoint dates_objects (neo_items : list (string * json F)) : result (list (string * json F)) :=
  match neo_items with
  | [] => Ret []
  | (date, asteroids) :: rest =>
      objects <- iterate asteroids ;;
      more <- dates_objects rest ;;
      Ret (map (pair date) objects ++ more)
  end.

Definition feed_objects (data : json F) : result (list (string * json F)) :=
  neo_data <- get data "near_earth_objects" (JDict []) ;;
  neo_items <- items neo_data ;;
  dates_objects neo_items.


(** The inner loop body over the flat list of pairs. *)
Fixpoint for_objects (objects : list (string * json F))
    (all_asteroids : list (asteroid_info F)) : result (list (asteroid_info F)) :=
  match objects with
  | [] => Ret all_asteroids
  | (date, asteroid) :: rest =>
      row <- asteroid_row date asteroid ;;
      for_objects rest
        (match row with
         | Some info => all_asteroids ++ [info]
         | None => all_asteroids
         end)
  end.

(** [v[k1][k2]...]. *)
Definition path (v : json F) (ks : list key) : result (json F) :=
  fold_left (fun r k => x <- r ;; subscript x k) ks (Ret v).

Definition ok {A : Type} (r : result A) : bool :=
  match r with
  | Ret _ => true
  | Raise _ => false
  end.

(** An object has a close approach when its [close_approach_data] is there
    and true (for a list: not empty). *)
Definition has_approach (asteroid : json F) : bool :=
  match subscript asteroid (KStr "close_approach_data") with
  | Ret cad => truth cad
  | Raise _ => false
  end.

(** The nested fields that the Normalizer reads from an object that has a
    close approach; the two measurements must also be readable by
    [float()]. *)
Definition required_fields (asteroid : json F) : bool :=
  ok (path asteroid [KStr "id"])
  && ok (path asteroid [KStr "name"])
  && ok (path asteroid [KStr "estimated_diameter"; KStr "kilometers";
                        KStr "estimated_diameter_min"])
  && ok (path asteroid [KStr "estimated_diameter"; KStr "kilometers";
                        KStr "estimated_diameter_max"])
  && ok (path asteroid [KStr "is_potentially_hazardous_asteroid"])
  && ok (path asteroid [KStr "close_approach_data"; KInt 0; KStr "close_approach_date"])
  && ok (x <- path asteroid [KStr "close_approach_data"; KInt 0; KStr "miss_distance";
                             KStr "kilometers"] ;; py_float x)
  && ok (x <- path asteroid [KStr "close_approach_data"; KInt 0; KStr "relative_velocity";
                             KStr "kilometers_per_hour"] ;; py_float x).

(** A well-formed object: it has the key [close_approach_data], and, when it
    has a close approach, all the required nested fields. *)
Definition well_formed_object (asteroid : json F) : bool :=
  ok (subscript asteroid (KStr "close_approach_data"))
  && (if has_approach asteroid then required_fields asteroid else true).





End Feed.

(** ** The feeds of the scenarios *)

Section Scenarios.

Context {F : Type} `{Float64 F}.

Local Open Scope string_scope.

(** The object of the spec's scenario: id 1, name Rock, diameters 0.1 and
    0.3 km, hazardous, one close approach at 500000 km. *)
Definition rock : json F :=
  JDict [("id", JStr "1");
         ("name", JStr "Rock");
         ("estimated_diameter",
          JDict [("kilometers",
                  JDict [("estimated_diameter_min", JFloat (of_Q 0.1));
                         ("estimated_diameter_max", JFloat (of_Q 0.3))])]);
         ("is_potentially_hazardous_asteroid", JBool true);
         ("close_approach_data",
          JList [JDict [("close_approach_date", JStr "2024-01-01");
                        ("miss_distance", JDict [("kilometers", JStr "500000")]);
                        ("relative_velocity",
                         JDict [("kilometers_per_hour", JStr "40000")])]])].

(** The same object with another text for its miss distance. *)
Definition rock_at (kilometers : string) : json F :=
  JDict [("id", JStr "1");
         ("name", JStr "Rock");
         ("estimated_diameter",
          JDict [("kilometers",
                  JDict [("estimated_diameter_min", JFloat (of_Q 0.1));
                         ("estimated_diameter_max", JFloat (of_Q 0.3))])]);
         ("is_potentially_hazardous_asteroid", JBool true);
         ("close_approach_data",
          JList [JDict [("close_approach_date", JStr "2024-01-01");
                        ("miss_distance", JDict [("kilometers", JStr kilometers)]);
                        ("relative_velocity",
                         JDict [("kilometers_per_hour", JStr "40000")])]])].

Definition feed_of (asteroids : list (json F)) : json F :=
  JDict [("element_count", JInt (Z.of_nat (List.length asteroids)));
         ("near_earth_objects", JDict [("2024-01-01", JList asteroids)])].

Definition scenario : json F := feed_of [rock].

(** An object with no close approach in the window. *)
Definition dust : json F :=
  JDict [("id", JStr "2");
         ("name", JStr "Dust");
         ("is_potentially_hazardous_asteroid", JBool false);
         ("close_approach_data", JList [])].


(** The pipeline up to the frame: lines 48-70. *)
Definition frame (data : json F) : result (list (FlatRecord F)) :=
  all_asteroids <- normalize data ;;
  DataFrame all_asteroids.

(** A row with the three fields the Hazard Scorer reads; the other fields
    are those of the scenario. *)
Definition sample (hazardous : bool) (avg miss : F) : FlatRecord F :=
  {| id := JStr "1";
     name := JStr "Rock";
     date := "2024-01-01";
     diameter_min_km := avg;
     diameter_max_km := avg;
     is_hazardous := hazardous;
     close_approach_date := JStr "2024-01-01";
     miss_distance_km := miss;
     relative_velocity_kph := of_Q 40000;
     avg_diameter_km := avg |}.

(** The row [r] at another miss distance. *)
Definition with_miss_distance_km (r : FlatRecord F) (miss : F) : FlatRecord F :=
  {| id := id r;
     name := name r;
     date := date r;
     diameter_min_km := diameter_min_km r;
     diameter_max_km := diameter_max_km r;
     is_hazardous := is_hazardous r;
     close_approach_date := close_approach_date r;
     miss_distance_km := miss;
     relative_velocity_kph := relative_velocity_kph r;
     avg_diameter_km := avg_diameter_km r |}.

End Scenarios.

(** ** Selection of one asteroid ([app.py], lines 141-143) *)

Section Details.

Context {F : Type} `{Float64 F}.

(** [filtered_df['name'] == selected_asteroid], for a selection that is a
    string: a name that is not a string is never equal to it. *)
Definition name_is (selected : string) (r : FlatRecord F) : bool :=
  match name r with
  | JStr n => String.eqb n selected
  | _ => false
  end.

(** [st.selectbox] over the names: the option the user picked (the first one
    when nothing was picked), [None] when there is no option. *)
Definition selectbox (options : list (json F)) (picked : nat) : option (json F) :=
  nth_error options picked.

(** [asteroid_details] for a string selection over the frame as sorted:
    nothing when the selection is the empty string ([if selected_asteroid:]),
    else the first of the rows with that name; [.iloc[0]] on no such row
    raises [IndexError]. *)
Definition asteroid_details (sorted_df : list (FlatRecord F)) (selected : string)
  : result (option (FlatRecord F)) :=
  if String.eqb selected "" then Ret None
  else match find (name_is selected) sorted_df with
       | Some r => Ret (Some r)
       | None => Raise IndexError
       end.

(** [d[k] = v] on the pairs of a dict. *)
Fixpoint set_field (k : string) (v : json F) (kv : list (string * json F))
  : list (string * json F) :=
  match kv with
  | [] => [(k, v)]
  | (k', v') :: rest =>
      if String.eqb k k' then (k, v) :: rest else (k', v') :: set_field k v rest
  end.


(** What a row holds of its object: it is filed under the date key of the
    object and has the object's own id, name and hazard flag. *)
Definition row_of (p : string * json F) (info : asteroid_info F) : Prop :=
  info_date info = fst p
  /\ subscript (snd p) (KStr "id") = Ret (info_id info)
  /\ subscript (snd p) (KStr "name") = Ret (info_name info)
  /\ subscript (snd p) (KStr "is_potentially_hazardous_asteroid")
     = Ret (info_is_hazardous info).

End Details.

(** ** The request and the session ([fetch.py]; [app.py], lines 26-80) *)

Section Session.

Context {F : Type} `{Float64 F}.

(** The query of the request; the two dates are sent as [%Y-%m-%d] text. *)
Record params : Type := {
  param_start_date : Z;
  param_end_date : Z;
  param_api_key : string
}.

(** What the script finds outside itself: the variable [NASA_API_KEY], and
    the service, which answers a request with parsed JSON or fails with a
    [RequestException] ([None]). *)
Record environment : Type := {
  NASA_API_KEY : option string;
  requests_get : params -> option (json F)
}.

(** What a run puts on the page or on the wire. *)
Inductive event : Type :=
| warning_date_range
| error_key_not_set
| error_accessing_api
| error_failed_to_fetch
| sent_request (p : params)
| success_found (element_count : json F) (start_date end_date : Z).

(** [fetch_asteroid_data]: [st.stop()] halts the script, otherwise the
    function returns the JSON or [None]. *)
Inductive fetched : Type :=
| fetch_stop
| fetch_return (data : option (json F)).

Definition fetch_asteroid_data (env : environment) (start_date end_date : Z)
  : fetched * list event :=
  let no_key := (fetch_stop, [error_key_not_set]) in
  match NASA_API_KEY env with
  | None => no_key
  | Some api_key =>
      if String.eqb api_key "" then no_key
      else
        let p := {| param_start_date := start_date;
                    param_end_date := end_date;
                    param_api_key := api_key |} in
        match requests_get env p with
        | Some data => (fetch_return (Some data), [sent_request p])
        | None => (fetch_return None, [sent_request p; error_accessing_api])
        end
  end.

(** [st.session_state]: [searched] is false while the key is absent. *)
Record session : Type := {
  asteroid_data : option (json F);
  searched : bool
}.

Definition new_session : session := {| asteroid_data := None; searched := false |}.

(** How a run ends: at the summary, at [st.stop()], or on an exception.
    What was written to the session before stays written. *)
Inductive status : Type :=
| completed (summary : option (Aggregate F))
| stopped
| raised (e : exn).

Record run : Type := {
  run_status : status;
  run_session : session;
  run_events : list event
}.

(** Lines 43-80: the results, when a search was made. *)
Definition display (w : Window) (s : session) (events : list event) : run :=
  if searched s then
    match asteroid_data s with
    | None => {| run_status := raised AttributeError; run_session := s; run_events := events |}
    | Some data =>
        match get data "element_count" (JInt 0) with
        | Raise e => {| run_status := raised e; run_session := s; run_events := events |}
        | Ret element_count =>
            let events :=
              events ++ [success_found element_count (start_date w) (end_date w)] in
            match (df <- frame data ;; render_summary (Typed df)) with
            | Raise e => {| run_status := raised e; run_session := s; run_events := events |}
            | Ret summary => {| run_status := completed (Some summary);
                                run_session := s; run_events := events |}
            end
        end
    end
  else {| run_status := completed None; run_session := s; run_events := events |}.

(** One run of the script: the two date inputs, the button, the session. *)
Definition script (env : environment) (start_input end_input : Z) (button : bool)
    (s : session) : run :=
  match validate_range start_input end_input with
  | Raise e => {| run_status := raised e; run_session := s; run_events := [] |}
  | Ret w =>
      let events := if warned w then [warning_date_range] else [] in
      if button then
        match fetch_asteroid_data env (start_date w) (end_date w) with
        | (fetch_stop, sent) =>
            {| run_status := stopped; run_session := s; run_events := events ++ sent |}
        | (fetch_return data, sent) =>
            match data with
            | Some data =>
                if truth data
                then display w {| asteroid_data := Some data; searched := true |}
                       (events ++ sent)
                else display w s (events ++ sent ++ [error_failed_to_fetch])
            | None => display w s (events ++ sent ++ [error_failed_to_fetch])
            end
        end
      else display w s events
  end.

(** What the code relies on when it reads the session: data is there once
    [searched] is set, and it is true. *)
Definition session_ok (s : session) : Prop :=
  searched s = true -> exists data, asteroid_data s = Some data /\ truth data = true.

(** Environments for the examples: a key is set and the service answers
    every request with the feed of the scenario; the service is down; no key
    is set. *)
Definition service_up : environment :=
  {| NASA_API_KEY := Some "DEMO_KEY"%string; requests_get := fun _ => Some scenario |}.

Definition service_down : environment :=
  {| NASA_API_KEY := Some "DEMO_KEY"%string; requests_get := fun _ => None |}.

Definition key_unset : environment :=
  {| NASA_API_KEY := None; requests_get := fun _ => Some scenario |}.

End Session.

Arguments environment F : clear implicits.
Arguments event F : clear implicits.
Arguments fetched F : clear implicits.
Arguments session F : clear implicits.
Arguments status F : clear implicits.
Arguments run F : clear implicits.
(** * Properties *)

(** ** Reading numbers *)

Example parse_float_plain : parse_float "500000" = Some (LitNum false (inject_Z 500000)).
Proof. reflexivity. Qed.

Example parse_float_fraction :
  parse_float " -45290298.225725659 " = Some (LitNum true (45290298225725659 # 1000000000)).
Proof. reflexivity. Qed.

Example parse_float_exponent : parse_float "1.5E-3" = Some (LitNum false (15 # 10000)).
Proof. reflexivity. Qed.

Example parse_float_underscores :
  parse_float "1_000" = Some (LitNum false (inject_Z 1000))
  /\ parse_float "1_0.2_5e1_0" = Some (LitNum false (inject_Z 102500000000))
  /\ parse_float "_1" = None /\ parse_float "1_" = None /\ parse_float "1__0" = None
  /\ parse_float "1_.5" = None /\ parse_float "1e_5" = None.
Proof. repeat split; reflexivity. Qed.

(** The sign of a zero is kept: [float("-0")] is -0.0, and a text too small
    for a double is a zero of its sign. *)
Example py_float_signed_zero :
  py_float (F := float) (JStr "-0") = Ret (-0)%float
  /\ py_float (F := float) (JStr "0") = Ret 0%float
  /\ py_float (F := float) (JStr "-1e-400") = Ret (-0)%float
  /\ py_float (F := float) (JStr "1_000") = Ret 1000%float.
Proof. repeat split; vm_compute; reflexivity. Qed.

Example parse_float_words :
  parse_float "-Infinity" = Some (LitInf true) /\ parse_float "NaN" = Some LitNan.
Proof. split; reflexivity. Qed.

Example parse_float_rejects :
  parse_float "" = None /\ parse_float "." = None /\ parse_float "1e" = None
  /\ parse_float "12 km" = None.
Proof. repeat split; reflexivity. Qed.

(** ** Date Window Validator *)

Lemma date_add_in_range (d n : Z) :
  valid_date (d + n) -> date_add d n = Ret (d + n)%Z.
Proof.
  unfold valid_date, date_add; intros [Hlo Hhi].
  apply Z.leb_le in Hlo; apply Z.leb_le in Hhi.
  now rewrite Hlo, Hhi.
Qed.

(** C7.  For all dates [start_date] and [end_date]: when the end is more
    than 7 days after the start, the window comes back with the end set to
    start + 7 days and the warning shown; otherwise it comes back as given
    with no warning.  The start date is the same in both cases. *)
Theorem validate_range_clamp (start_date end_date : Z) :
  valid_date start_date -> valid_date end_date ->
  ((7 < end_date - start_date)%Z ->
   validate_range start_date end_date
   = Ret {| start_date := start_date; end_date := (start_date + 7)%Z; warned := true |})
  /\ ((end_date - start_date <= 7)%Z ->
      validate_range start_date end_date
      = Ret {| start_date := start_date; end_date := end_date; warned := false |}).
Proof.
  intros Hs He; unfold validate_range; split; intros Hd.
  - apply Z.ltb_lt in Hd as Hb; rewrite Hb.
    rewrite date_add_in_range; [reflexivity|].
    unfold valid_date in *; lia.
  - apply Z.ltb_ge in Hd as Hb; now rewrite Hb.
Qed.

(** The two windows of the spec's example, from 2024-01-01: ten days are cut
    to seven, three days are kept. *)
Lemma validate_range_clamp_witness :
  validate_range 738886 738896
  = Ret {| start_date := 738886; end_date := 738893; warned := true |}
  /\ validate_range 738886 738889
     = Ret {| start_date := 738886; end_date := 738889; warned := false |}.
Proof.
  split.
  - apply (validate_range_clamp 738886 738896); unfold valid_date, date_max; lia.
  - apply (validate_range_clamp 738886 738889); unfold valid_date, date_max; lia.
Defined.

(** ** Selection Engine *)

Section Selection.

Context {F : Type} `{Float64 F}.

Lemma filter_swap {A : Type} (p q : A -> bool) (l : list A) :
  filter p (filter q l) = filter q (filter p l).
Proof.
  induction l as [|a l IH]; simpl; [reflexivity|].
  destruct (q a) eqn:Hq, (p a) eqn:Hp; simpl; rewrite ?Hq, ?Hp, IH; reflexivity.
Qed.

(** C8.  For every frame, every state of the checkbox and every size
    threshold, filtering by hazard flag and then by size gives the same rows,
    in the same order, as filtering by size and then by hazard flag. *)
Theorem filters_commute (show_hazardous : bool) (size_threshold : F)
    (df : list (FlatRecord F)) :
  size_filter size_threshold (hazardous_filter show_hazardous df)
  = hazardous_filter show_hazardous (size_filter size_threshold df).
Proof.
  unfold size_filter, hazardous_filter.
  destruct show_hazardous; [apply filter_swap | reflexivity].
Qed.

(** The selection of [app.py] is the first of the two orders. *)
Lemma filtered_df_other_order (show_hazardous : bool) (size_threshold : F)
    (df : list (FlatRecord F)) :
  filtered_df show_hazardous size_threshold df
  = hazardous_filter show_hazardous (size_filter size_threshold df).
Proof.
  unfold filtered_df, size_filter, hazardous_filter.
  destruct show_hazardous; [apply filter_swap | reflexivity].
Qed.

End Selection.

(** ** Record Normalizer *)

Section Normalizer.

Context {F : Type} `{Float64 F}.

Ltac step :=
  match goal with
  | |- context [subscript ?v ?k] =>
      let E := fresh "E" in destruct (subscript v k) eqn:E; simpl
  | |- context [py_float ?v] =>
      let E := fresh "E" in destruct (py_float v) eqn:E; simpl
  end.

(** The row of an object is built exactly when the object is well formed. *)
Lemma asteroid_row_returns (date : string) (asteroid : json F) :
  well_formed_object asteroid = true ->
  exists row, asteroid_row date asteroid = Ret row
              /\ (has_approach asteroid = true <-> row <> None).
Proof.
  unfold well_formed_object, has_approach, required_fields, asteroid_row, path.
  simpl.
  destruct (subscript asteroid (KStr "close_approach_data")) as [cad|] eqn:Ecad; simpl;
    [|discriminate].
  destruct (truth cad) eqn:Ht; simpl.
  - repeat step; try discriminate.
    intros _; eexists; split; [reflexivity|]. split; [discriminate | reflexivity].
  - intros _; exists None; split; [reflexivity|]. split; [discriminate | congruence].
Qed.


Lemma subscript_head (a : json F) (l : list (json F)) :
  subscript (JList (a :: l)) (KInt 0) = Ret a.
Proof.
  unfold subscript.
  set (n := Z.of_nat (List.length (a :: l))).
  assert (Hn : (0 < n)%Z) by (subst n; simpl List.length; lia).
  assert (Hlo : (- n <=? 0)%Z = true) by (apply Z.leb_le; lia).
  assert (Hhi : (0 <? n)%Z = true) by (apply Z.ltb_lt; lia).
  rewrite Hlo, Hhi; simpl andb.
  rewrite Z.mod_0_l by lia. reflexivity.
Qed.

(** In a well-formed object that has a close approach, the approaches are a
    list with a first entry. *)
Lemma has_approach_first_entry (asteroid : json F) :
  well_formed_object asteroid = true -> has_approach asteroid = true ->
  exists a l, subscript asteroid (KStr "close_approach_data") = Ret (JList (a :: l)).
Proof.
  unfold well_formed_object, has_approach, required_fields, path; simpl.
  destruct (subscript asteroid (KStr "close_approach_data")) as [cad|] eqn:Ecad; simpl;
    [|discriminate].
  intros Hwf Ht; rewrite Ht in Hwf.
  repeat (apply andb_prop in Hwf; destruct Hwf as [Hwf ?]).
  destruct cad as [| | | | s | [|a l] | kv]; simpl in *; try discriminate.
  - exfalso.
    match goal with
    | Hd : ok (x <- ?c ;; subscript x (KStr "close_approach_date")) = true |- _ =>
        revert Hd; clear
    end.
    destruct (_ && _); [destruct (String.get 0 s)|]; simpl; discriminate.
  - now exists a, l.
Qed.

Lemma for_objects_app (l1 l2 : list (string * json F)) (acc : list (asteroid_info F)) :
  for_objects (l1 ++ l2) acc = (acc' <- for_objects l1 acc ;; for_objects l2 acc').
Proof.
  revert acc; induction l1 as [|[date o] l1 IH]; intros acc; simpl; [reflexivity|].
  destruct (asteroid_row date o); simpl; [apply IH | reflexivity].
Qed.

Lemma for_asteroids_flat (date : string) (objects : list (json F))
    (acc : list (asteroid_info F)) :
  for_asteroids date objects acc = for_objects (map (pair date) objects) acc.
Proof.
  revert acc; induction objects as [|o objects IH]; intros acc; simpl; [reflexivity|].
  destruct (asteroid_row date o); simpl; [apply IH | reflexivity].
Qed.

Lemma for_dates_flat (neo_items : list (string * json F)) :
  forall objects acc,
    dates_objects neo_items = Ret objects ->
    for_dates neo_items acc = for_objects objects acc.
Proof.
  induction neo_items as [|[date asteroids] rest IH]; intros objects acc; simpl.
  - intros [= <-]; reflexivity.
  - destruct (iterate asteroids) as [l|]; simpl; [|discriminate].
    destruct (dates_objects rest) as [more|]; simpl; [|discriminate].
    intros [= <-].
    rewrite for_objects_app, for_asteroids_flat.
    destruct (for_objects (map (pair date) l) acc); simpl; [now apply IH | reflexivity].
Qed.

Lemma normalize_flat (data : json F) (objects : list (string * json F)) :
  feed_objects data = Ret objects -> normalize data = for_objects objects [].
Proof.
  unfold feed_objects, normalize.
  destruct (get data "near_earth_objects" (JDict [])) as [neo|]; simpl; [|discriminate].
  destruct (items neo) as [kv|]; simpl; [|discriminate].
  apply for_dates_flat.
Qed.

(** Over well-formed objects the loop appends one row for each object that
    has a close approach, and nothing else. *)
Lemma for_objects_well_formed (objects : list (string * json F)) :
  forall acc,
    forallb well_formed_object (map snd objects) = true ->
    exists rows,
      for_objects objects acc = Ret (acc ++ rows)
      /\ List.length rows = List.length (filter has_approach (map snd objects)).
Proof.
  induction objects as [|[date o] rest IH]; intros acc; simpl.
  - intros _; exists []; rewrite app_nil_r; auto.
  - intros Hwf; apply andb_prop in Hwf; destruct Hwf as [Ho Hrest].
    destruct (asteroid_row_returns date o Ho) as [row [-> Hrow]]; simpl.
    destruct row as [info|].
    + destruct (IH (acc ++ [info]) Hrest) as [rows [-> Hlen]].
      exists (info :: rows); split; [now rewrite <- app_assoc|].
      assert (Hh : has_approach o = true) by (apply Hrow; discriminate).
      rewrite Hh; simpl; now rewrite Hlen.
    + destruct (IH acc Hrest) as [rows [-> Hlen]].
      exists rows; split; [reflexivity|].
      destruct (has_approach o) eqn:Hh; [|exact Hlen].
      exfalso; now apply Hrow.
Qed.


Lemma filter_length_le {A : Type} (p : A -> bool) (l : list A) :
  List.length (filter p l) <= List.length l.
Proof.
  induction l as [|a l IH]; simpl; [lia|]. destruct (p a); simpl; lia.
Qed.

Lemma filter_length_all {A : Type} (p : A -> bool) (l : list A) :
  List.length (filter p l) = List.length l <-> forallb p l = true.
Proof.
  induction l as [|a l IH]; simpl; [tauto|].
  pose proof (filter_length_le p l).
  destruct (p a); simpl; split; intros Hx; try discriminate; try lia.
  - apply IH; lia.
  - apply IH in Hx; lia.
Qed.




End Normalizer.




(** ** Binary64 arithmetic

    The operations of [PrimFloat] are specified by the reference
    implementation [SpecFloat] ([mul_spec], [add_spec], [div_spec] and the
    comparisons).  This part shows that the reference multiplication, division
    and addition return the correctly rounded exact result, and derives what
    the scorer and the summary need: the operations are monotone in the order
    of values. *)

Section Rounding.

Local Open Scope Q_scope.

(** ** Powers of two *)

Lemma pow2_pos (e : Z) : 0 < pow2 e.
Proof. apply Qpower_0_lt. reflexivity. Qed.

Lemma pow2_add (a b : Z) : pow2 (a + b) == pow2 a * pow2 b.
Proof. apply Qpower_plus. discriminate. Qed.

Lemma pow2_le (a b : Z) : (a <= b)%Z -> pow2 a <= pow2 b.
Proof. intros Hab. apply Qpower_le_compat_l; [exact Hab | discriminate]. Qed.

Lemma pow2_lt (a b : Z) : (a < b)%Z -> pow2 a < pow2 b.
Proof. intros Hab. apply Qpower_lt_compat_l; [exact Hab | reflexivity]. Qed.

Lemma pow2_Z (n : Z) : (0 <= n)%Z -> pow2 n == inject_Z (2 ^ n).
Proof. intros Hn. unfold pow2. now rewrite Zpower_Qpower. Qed.

Lemma pow2_0 : pow2 0 == 1.
Proof. reflexivity. Qed.

Lemma pow2_succ (a : Z) : pow2 (a + 1) == 2 * pow2 a.
Proof. rewrite pow2_add. change (pow2 1) with 2. ring. Qed.

Lemma pow2_div (v : Q) (a b : Z) : v / pow2 (a + b) == v / pow2 a / pow2 b.
Proof.
  rewrite pow2_add. field.
  split; apply Qnot_eq_sym, Qlt_not_eq, pow2_pos.
Qed.

(** ** Digits *)

Lemma digits2_size (m : positive) : digits2_pos m = Pos.size m.
Proof. induction m; simpl; now rewrite ?IHm. Qed.

Lemma digits2_bounds (m : positive) :
  (2 ^ (Zpos (digits2_pos m) - 1) <= Zpos m < 2 ^ Zpos (digits2_pos m))%Z.
Proof.
  rewrite digits2_size. split.
  - pose proof (Pos.size_le m) as Hle.
    assert (H2 : (2 ^ Zpos (Pos.size m) <= 2 * Zpos m)%Z).
    { rewrite <- Pos2Z.inj_pow. change (2 * Zpos m)%Z with (Zpos m~0). exact Hle. }
    replace (Zpos (Pos.size m)) with (Zpos (Pos.size m) - 1 + 1)%Z in H2 by lia.
    rewrite Z.pow_add_r in H2 by lia. lia.
  - pose proof (Pos.size_gt m) as Hgt.
    rewrite <- Pos2Z.inj_pow. exact Hgt.
Qed.

Lemma digits2_le (m : positive) (n : Z) :
  (0 <= n)%Z -> (Zpos m < 2 ^ n)%Z -> (Zpos (digits2_pos m) <= n)%Z.
Proof.
  intros Hn Hm. destruct (digits2_bounds m) as [Hlo _].
  destruct (Z_le_gt_dec (Zpos (digits2_pos m)) n) as [H|H]; [exact H|].
  assert (2 ^ n <= 2 ^ (Zpos (digits2_pos m) - 1))%Z by (apply Z.pow_le_mono_r; lia).
  lia.
Qed.

Lemma digits2_ge (m : positive) (n : Z) :
  (0 <= n)%Z -> (2 ^ n <= Zpos m)%Z -> (n + 1 <= Zpos (digits2_pos m))%Z.
Proof.
  intros Hn Hm. destruct (digits2_bounds m) as [_ Hhi].
  destruct (Z_le_gt_dec (n + 1) (Zpos (digits2_pos m))) as [H|H]; [exact H|].
  assert (2 ^ Zpos (digits2_pos m) <= 2 ^ n)%Z by (apply Z.pow_le_mono_r; lia).
  lia.
Qed.

(** ** Rounding to the nearest integer, ties to even *)

Lemma rne_bounds (x : Q) (k : Z) :
  rne_rel x k -> inject_Z k - (1 # 2) <= x <= inject_Z k + (1 # 2).
Proof. intros [[H1 H2]|[[E|E] _]]; split; lra. Qed.

Lemma rne_mono (x x' : Q) (k k' : Z) :
  x <= x' -> rne_rel x k -> rne_rel x' k' -> (k <= k')%Z.
Proof.
  intros Hx Hk Hk'.
  destruct (Z_le_gt_dec k k') as [H|H]; [exact H|exfalso].
  assert (Hs : inject_Z k' + 1 <= inject_Z k).
  { change 1 with (inject_Z 1). rewrite <- inject_Z_plus, <- Zle_Qle. lia. }
  destruct Hk as [[H1 H2]|[He Hev]]; destruct Hk' as [[H1' H2']|[He' Hev']].
  - lra.
  - destruct He' as [E|E]; lra.
  - destruct He as [E|E]; lra.
  - assert (Ek : inject_Z k == inject_Z k' + 1) by (destruct He, He'; lra).
    change 1 with (inject_Z 1) in Ek. rewrite <- inject_Z_plus in Ek.
    rewrite inject_Z_injective in Ek. subst k.
    rewrite Z.even_add in Hev. rewrite Hev' in Hev. discriminate.
Qed.

Lemma rne_ge (x : Q) (k n : Z) : inject_Z n <= x -> rne_rel x k -> (n <= k)%Z.
Proof.
  intros Hn Hk. apply rne_bounds in Hk.
  destruct (Z_le_gt_dec n k) as [H|H]; [exact H|exfalso].
  assert (Hs : inject_Z k + 1 <= inject_Z n).
  { change 1 with (inject_Z 1). rewrite <- inject_Z_plus, <- Zle_Qle. lia. }
  lra.
Qed.

Lemma rne_le (x : Q) (k n : Z) : x <= inject_Z n -> rne_rel x k -> (k <= n)%Z.
Proof.
  intros Hn Hk. apply rne_bounds in Hk.
  destruct (Z_le_gt_dec k n) as [H|H]; [exact H|exfalso].
  assert (Hs : inject_Z n + 1 <= inject_Z k).
  { change 1 with (inject_Z 1). rewrite <- inject_Z_plus, <- Zle_Qle. lia. }
  lra.
Qed.

Lemma rne_exact (k : Z) : rne_rel (inject_Z k) k.
Proof. left; split; lra. Qed.

(** ** The exponent of the result *)

Lemma canon_upper (v : Q) (c : Z) : canon v c -> v < pow2 (c + 53) /\ (-1074 <= c)%Z.
Proof. intros [[-> H]|[Hc [_ H]]]; split; try lia; exact H. Qed.

Lemma canon_mono (v v' : Q) (c c' : Z) :
  v <= v' -> canon v c -> canon v' c' -> (c <= c')%Z.
Proof.
  intros Hv Hc Hc'.
  destruct (Z_le_gt_dec c c') as [H|H]; [exact H|exfalso].
  destruct (canon_upper _ _ Hc') as [Hup Hlo].
  destruct Hc as [[-> _]|[_ [Hlow _]]]; [lia|].
  assert (pow2 (c' + 53) <= pow2 (c + 52)) by (apply pow2_le; lia).
  lra.
Qed.

Lemma scaled (v : Q) (c : Z) : v / pow2 c * pow2 c == v.
Proof. field. apply Qnot_eq_sym, Qlt_not_eq, pow2_pos. Qed.

Lemma scaled_lt (v : Q) (c n : Z) : v < pow2 (c + n) -> v / pow2 c < pow2 n.
Proof.
  intros H. apply Qlt_shift_div_r; [apply pow2_pos|].
  rewrite <- pow2_add. now rewrite Z.add_comm.
Qed.

Lemma scaled_ge (v : Q) (c n : Z) : pow2 (c + n) <= v -> pow2 n <= v / pow2 c.
Proof.
  intros H. apply Qle_shift_div_l; [apply pow2_pos|].
  rewrite <- pow2_add. now rewrite Z.add_comm.
Qed.

(** Rounding is monotone: a larger number is written with a larger value. *)
Lemma round_mono (v v' : Q) (c c' k k' : Z) :
  v <= v' ->
  canon v c -> rne_rel (v / pow2 c) k ->
  canon v' c' -> rne_rel (v' / pow2 c') k' ->
  at_exp k c <= at_exp k' c'.
Proof.
  intros Hv Hc Hk Hc' Hk'. unfold at_exp.
  pose proof (canon_mono _ _ _ _ Hv Hc Hc') as Hcc.
  destruct (Z.eq_dec c c') as [<-|Hne].
  - assert (Hx : v / pow2 c <= v' / pow2 c).
    { apply Qle_shift_div_l; [apply pow2_pos|]. now rewrite scaled. }
    pose proof (rne_mono _ _ _ _ Hx Hk Hk') as Hkk.
    apply Qmult_le_compat_r; [|apply Qlt_le_weak, pow2_pos].
    rewrite <- Zle_Qle. exact Hkk.
  - assert (Hlt : (c < c')%Z) by lia.
    destruct (canon_upper _ _ Hc) as [Hup Hlo].
    destruct Hc' as [[-> _]|[_ [Hlow' _]]]; [lia|].
    assert (Hk1 : (k <= 2 ^ 53)%Z).
    { apply (rne_le (v / pow2 c)); [|exact Hk].
      rewrite <- pow2_Z by lia. apply Qlt_le_weak, scaled_lt. exact Hup. }
    assert (Hk2 : (2 ^ 52 <= k')%Z).
    { apply (rne_ge (v' / pow2 c')); [|exact Hk'].
      rewrite <- pow2_Z by lia. apply scaled_ge. exact Hlow'. }
    apply Qle_trans with (pow2 53 * pow2 c).
    + apply Qmult_le_compat_r; [|apply Qlt_le_weak, pow2_pos].
      rewrite pow2_Z by lia. rewrite <- Zle_Qle. exact Hk1.
    + apply Qle_trans with (pow2 52 * pow2 c').
      * rewrite <- !pow2_add. apply pow2_le. lia.
      * apply Qmult_le_compat_r; [|apply Qlt_le_weak, pow2_pos].
        rewrite pow2_Z by lia. rewrite <- Zle_Qle. exact Hk2.
Qed.

Lemma unscale_lt (v q : Q) (c : Z) : v / pow2 c < q -> v < q * pow2 c.
Proof.
  intros H.
  apply (Qmult_lt_compat_r _ _ (pow2 c) (pow2_pos c)) in H.
  now rewrite scaled in H.
Qed.

Lemma unscale_le (v q : Q) (c : Z) : q <= v / pow2 c -> q * pow2 c <= v.
Proof.
  intros H.
  apply (Qmult_le_compat_r _ _ (pow2 c)) in H; [|apply Qlt_le_weak, pow2_pos].
  now rewrite scaled in H.
Qed.

(** ** Shifting a mantissa right *)

Lemma inb_eq (m : Z) (l : location) (x y : Q) : x == y -> inb m l x -> inb m l y.
Proof.
  intros E. destruct l as [|c]; simpl.
  - now rewrite E.
  - now rewrite E.
Qed.

Lemma rec_repr_eq (mrs : shr_record) (x y : Q) : x == y -> rec_repr mrs x -> rec_repr mrs y.
Proof. intros E [H0 H]; split; [exact H0 | now apply (inb_eq _ _ x)]. Qed.

Lemma rec_repr_of_loc (m : Z) (l : location) (x : Q) :
  (0 <= m)%Z -> inb m l x -> rec_repr (shr_record_of_loc m l) x.
Proof.
  intros Hm H. destruct l as [|[ | | ]]; simpl in *; split; simpl; auto.
Qed.

Lemma cmp_lt (x y : Q) : x < y -> (x ?= y) = Lt.
Proof. intros H. now apply Qlt_alt. Qed.

Lemma cmp_gt (x y : Q) : y < x -> (x ?= y) = Gt.
Proof. intros H. now apply Qgt_alt. Qed.

Lemma cmp_eq (x y : Q) : x == y -> (x ?= y) = Eq.
Proof. intros H. now apply Qeq_alt. Qed.

Lemma inject_xO (p : positive) : inject_Z (Zpos p~0) == 2 * inject_Z (Zpos p).
Proof. rewrite Pos2Z.inj_xO, inject_Z_mult. reflexivity. Qed.

Lemma inject_xI (p : positive) : inject_Z (Zpos p~1) == 2 * inject_Z (Zpos p) + 1.
Proof. rewrite Pos2Z.inj_xI, inject_Z_plus, inject_Z_mult. reflexivity. Qed.

Ltac cmp_facts :=
  repeat match goal with
         | H : (_ ?= _) = Lt |- _ => apply Qlt_alt in H
         | H : (_ ?= _) = Gt |- _ => apply Qgt_alt in H
         | H : (_ ?= _) = Eq |- _ => apply Qeq_alt in H
         end.

Lemma shr_1_repr (mrs : shr_record) (x : Q) :
  rec_repr mrs x -> rec_repr (shr_1 mrs) (x * (1 # 2)).
Proof.
  destruct mrs as [m r s]. unfold rec_repr; simpl shr_m.
  intros [Hm H].
  destruct m as [|p|p]; [|destruct p as [p|p|]|lia].
  - destruct r, s; simpl in *; change (inject_Z 0) with 0 in *; (split; [lia|]);
      cmp_facts; try (destruct H as (H1 & H2 & H3); cmp_facts);
      repeat split; try (apply cmp_lt); try (apply cmp_gt); try (apply cmp_eq); lra.
  - pose proof (inject_xI p) as E.
    destruct r, s; simpl in *; (split; [lia|]); cmp_facts;
      try (destruct H as (H1 & H2 & H3); cmp_facts);
      repeat split; try (apply cmp_lt); try (apply cmp_gt); try (apply cmp_eq); lra.
  - pose proof (inject_xO p) as E.
    destruct r, s; simpl in *; (split; [lia|]); cmp_facts;
      try (destruct H as (H1 & H2 & H3); cmp_facts);
      repeat split; try (apply cmp_lt); try (apply cmp_gt); try (apply cmp_eq); lra.
  - destruct r, s; simpl in *; change (inject_Z 0) with 0 in *;
      change (inject_Z 1) with 1 in *; (split; [lia|]); cmp_facts;
      try (destruct H as (H1 & H2 & H3); cmp_facts);
      repeat split; try (apply cmp_lt); try (apply cmp_gt); try (apply cmp_eq); lra.
Qed.

Lemma iter_shr_repr (p : positive) :
  forall (mrs : shr_record) (x : Q),
    rec_repr mrs x -> rec_repr (iter_pos shr_1 p mrs) (x / pow2 (Zpos p)).
Proof.
  induction p as [p IH|p IH|]; intros mrs x H; simpl iter_pos.
  - apply (rec_repr_eq _ (x * (1 # 2) / pow2 (Zpos p) / pow2 (Zpos p))).
    + rewrite <- pow2_div. rewrite Pos2Z.inj_xI.
      replace (2 * Zpos p + 1)%Z with (1 + (Zpos p + Zpos p))%Z by lia.
      rewrite (pow2_div x 1). change (pow2 1) with 2. field.
      apply Qnot_eq_sym, Qlt_not_eq, pow2_pos.
    + apply IH, IH, shr_1_repr, H.
  - apply (rec_repr_eq _ (x / pow2 (Zpos p) / pow2 (Zpos p))).
    + rewrite <- pow2_div. rewrite Pos2Z.inj_xO.
      replace (2 * Zpos p)%Z with (Zpos p + Zpos p)%Z by lia. reflexivity.
    + apply IH, IH, H.
  - apply (rec_repr_eq _ (x * (1 # 2))).
    + change (pow2 1) with 2. field.
    + apply shr_1_repr, H.
Qed.

(** Shifting by [n] places, or not at all when [n] is not positive. *)
Lemma shr_repr (mrs : shr_record) (e n : Z) (x : Q) :
  rec_repr mrs x ->
  (0 <= n)%Z ->
  rec_repr (fst (shr mrs e n)) (x / pow2 n) /\ snd (shr mrs e n) = (e + n)%Z.
Proof.
  intros H Hn. destruct n as [|p|p]; simpl; [| |lia].
  - split; [|lia]. apply (rec_repr_eq _ x); [|exact H].
    change (pow2 0) with 1. field.
  - split; [|reflexivity]. now apply iter_shr_repr.
Qed.

Lemma shr_nop (mrs : shr_record) (e n : Z) : (n <= 0)%Z -> shr mrs e n = (mrs, e).
Proof. destruct n; simpl; auto; lia. Qed.

(** ** What [binary_round_aux] computes *)

Lemma fexp_val (e : Z) : fexp prec emax e = Z.max (e - 53) (-1074).
Proof. reflexivity. Qed.

Lemma round_nearest_even_rne (m : Z) (l : location) (x : Q) :
  inb m l x -> rne_rel x (round_nearest_even m l).
Proof.
  destruct l as [|[ | | ]]; simpl.
  - intros E. left. split; lra.
  - intros (H1 & H2 & H3). apply Qeq_alt in H3. right.
    destruct (Z.even m) eqn:Hev.
    + split; [right; lra | exact Hev].
    + split.
      * left. rewrite inject_Z_plus. change (inject_Z 1) with 1. lra.
      * rewrite Z.even_add, Hev. reflexivity.
  - intros (H1 & H2 & H3). apply Qlt_alt in H3. left. split; lra.
  - intros (H1 & H2 & H3). apply Qgt_alt in H3. left.
    rewrite inject_Z_plus. change (inject_Z 1) with 1. split; lra.
Qed.

Lemma inb_bounds (m : Z) (l : location) (x : Q) :
  inb m l x -> inject_Z m <= x /\ x < inject_Z m + 1.
Proof.
  destruct l; simpl; [intros E | intros (H1 & H2 & _)]; split; lra.
Qed.

Lemma canon_of_digits (m e : Z) (l : location) (v : Q) :
  (0 <= m)%Z -> 0 < v -> inb m l (v / pow2 e) ->
  (e <= fexp prec emax (Zdigits2 m + e))%Z ->
  canon v (fexp prec emax (Zdigits2 m + e)).
Proof.
  intros Hm Hv Hin Hpre. rewrite fexp_val in *.
  apply inb_bounds in Hin. destruct Hin as [Hlo Hhi].
  pose proof (scaled v e) as Hs. pose proof (pow2_pos e) as Hpe.
  destruct m as [|p|p]; [| |lia].
  - simpl Zdigits2 in *. change (inject_Z 0) with 0 in *.
    assert (He : (e <= -1074)%Z) by lia.
    replace (Z.max (0 + e - 53) (-1074)) with (-1074)%Z by lia.
    left; split; [reflexivity|].
    assert (v < pow2 e).
    { apply unscale_lt in Hhi. lra. }
    assert (pow2 e <= pow2 (-1021)) by (apply pow2_le; lia). lra.
  - simpl Zdigits2 in *. set (d := Zpos (digits2_pos p)) in *.
    destruct (digits2_bounds p) as [Hd1 Hd2]. fold d in Hd1, Hd2.
    assert (Hdpos : (0 < d)%Z) by (subst d; lia).
    assert (Hx1 : pow2 (d - 1) <= v / pow2 e).
    { rewrite (pow2_Z (d - 1)) by lia.
      apply Qle_trans with (inject_Z (Zpos p)); [|exact Hlo].
      rewrite <- Zle_Qle. exact Hd1. }
    assert (Hx2 : v / pow2 e < pow2 d).
    { rewrite (pow2_Z d) by lia.
      apply Qlt_le_trans with (inject_Z (Zpos p) + 1); [exact Hhi|].
      change 1 with (inject_Z 1). rewrite <- inject_Z_plus, <- Zle_Qle. lia. }
    assert (Hv1 : pow2 (d - 1 + e) <= v).
    { rewrite pow2_add. now apply unscale_le. }
    assert (Hv2 : v < pow2 (d + e)).
    { rewrite pow2_add. now apply unscale_lt. }
    destruct (Z_le_gt_dec (d + e - 53) (-1074)) as [Hc|Hc].
    + replace (Z.max (d + e - 53) (-1074)) with (-1074)%Z by lia.
      left; split; [reflexivity|].
      assert (pow2 (d + e) <= pow2 (-1021)) by (apply pow2_le; lia). lra.
    + replace (Z.max (d + e - 53) (-1074)) with (d + e - 53)%Z by lia.
      right; split; [lia|]. split.
      * replace (d + e - 53 + 52)%Z with (d - 1 + e)%Z by lia. exact Hv1.
      * replace (d + e - 53 + 53)%Z with (d + e)%Z by lia. exact Hv2.
Qed.

Lemma BRA_spec (s : bool) (m e : Z) (l : location) (v : Q) :
  (0 <= m)%Z -> 0 < v -> inb m l (v / pow2 e) ->
  (e <= fexp prec emax (Zdigits2 m + e))%Z ->
  exists c k,
    canon v c /\ rne_rel (v / pow2 c) k
    /\ (0 <= k <= 2 ^ 53)%Z /\ ((-1074 < c)%Z -> (2 ^ 52 <= k)%Z)
    /\ binary_round_aux prec emax s m e l = pack s k c.
Proof.
  intros Hm Hv Hin Hpre.
  pose proof (canon_of_digits m e l v Hm Hv Hin Hpre) as Hcanon.
  set (c := fexp prec emax (Zdigits2 m + e)) in *.
  destruct (shr_repr (shr_record_of_loc m l) e (c - e) (v / pow2 e)
              (rec_repr_of_loc _ _ _ Hm Hin) ltac:(lia)) as [Hrep He1].
  unfold binary_round_aux, shr_fexp. fold c.
  destruct (shr (shr_record_of_loc m l) e (c - e)) as [mrs1 e1]. simpl in Hrep, He1.
  assert (Ee1 : e1 = c) by lia. clear He1. subst e1.
  assert (Hrep1 : rec_repr mrs1 (v / pow2 c)).
  { apply (rec_repr_eq _ (v / pow2 e / pow2 (c - e))); [|exact Hrep].
    rewrite <- pow2_div. replace (e + (c - e))%Z with c by lia. reflexivity. }
  destruct Hrep1 as [Hm1 Hin1].
  set (k := round_nearest_even (shr_m mrs1) (loc_of_shr_record mrs1)).
  pose proof (round_nearest_even_rne _ _ _ Hin1) as Hk. fold k in Hk.
  destruct (canon_upper _ _ Hcanon) as [Hup Hclo].
  assert (Hk0 : (0 <= k)%Z).
  { apply (rne_ge (v / pow2 c)); [|exact Hk].
    apply inb_bounds in Hin1. change (inject_Z 0) with 0.
    apply Qle_trans with (inject_Z (shr_m mrs1)); [|tauto].
    change 0 with (inject_Z 0). rewrite <- Zle_Qle. exact Hm1. }
  assert (Hk1 : (k <= 2 ^ 53)%Z).
  { apply (rne_le (v / pow2 c)); [|exact Hk].
    rewrite <- pow2_Z by lia. apply Qlt_le_weak, scaled_lt. exact Hup. }
  assert (Hk2 : (-1074 < c)%Z -> (2 ^ 52 <= k)%Z).
  { intros Hc. destruct Hcanon as [[Ec _]|[_ [Hlow _]]]; [lia|].
    apply (rne_ge (v / pow2 c)); [|exact Hk].
    rewrite <- pow2_Z by lia. apply scaled_ge. exact Hlow. }
  exists c, k. repeat split; try assumption.
  destruct k as [|p|p] eqn:Ek; [| |lia].
  - simpl Zdigits2. rewrite shr_nop by (rewrite fexp_val; lia). reflexivity.
  - destruct (Z.eq_dec (Zpos p) (2 ^ 53)) as [E53|N53].
    + assert (Hn : (fexp prec emax (Zdigits2 (Zpos p) + c) - c)%Z = 1%Z).
      { rewrite E53, fexp_val. change (Zdigits2 (2 ^ 53)) with 54%Z. lia. }
      rewrite Hn, E53. unfold pack.
      change (2 ^ 53)%Z with (Zpos (2 ^ 53)). rewrite Z.eqb_refl. reflexivity.
    + assert (Hd : (Zpos (digits2_pos p) <= 53)%Z) by (apply digits2_le; lia).
      rewrite shr_nop by (rewrite fexp_val; simpl Zdigits2; lia).
      unfold pack. simpl shr_m.
      destruct (Z.eqb_spec (Zpos p) (2 ^ 53)) as [E|_]; [contradiction|].
      reflexivity.
Qed.

(** ** The value of a float *)

Lemma at_exp_pos (m : positive) (e : Z) : 0 < at_exp (Zpos m) e.
Proof.
  unfold at_exp. apply Qmult_lt_0_compat; [|apply pow2_pos].
  change 0 with (inject_Z 0). rewrite <- Zlt_Qlt. lia.
Qed.

Lemma bounded_canonical (m : positive) (e : Z) :
  bounded prec emax m e = true ->
  Z.max (Zpos (digits2_pos m) + e - 53) (-1074) = e /\ (e <= 971)%Z.
Proof.
  unfold bounded, canonical_mantissa. intros H. apply andb_prop in H. destruct H as [H1 H2].
  apply Z.eqb_eq in H1. apply Z.leb_le in H2. rewrite fexp_val in H1.
  split; [exact H1|]. exact H2.
Qed.

Lemma at_exp_lt_exp (m1 m2 : positive) (e1 e2 : Z) :
  bounded prec emax m1 e1 = true -> bounded prec emax m2 e2 = true ->
  (e1 < e2)%Z -> at_exp (Zpos m1) e1 < at_exp (Zpos m2) e2.
Proof.
  intros H1 H2 He.
  apply bounded_canonical in H1, H2. destruct H1 as [C1 _], H2 as [C2 _].
  destruct (digits2_bounds m1) as [_ Hhi]. destruct (digits2_bounds m2) as [Hlo _].
  assert (Hd1 : (Zpos (digits2_pos m1) <= 53)%Z) by lia.
  assert (Hd2 : Zpos (digits2_pos m2) = 53%Z) by lia.
  rewrite Hd2 in Hlo.
  assert (Hm1 : (Zpos m1 < 2 ^ 53)%Z).
  { apply Z.lt_le_trans with (2 ^ Zpos (digits2_pos m1))%Z; [exact Hhi|].
    apply Z.pow_le_mono_r; lia. }
  unfold at_exp.
  apply Qlt_le_trans with (pow2 53 * pow2 e1).
  - apply Qmult_lt_compat_r; [apply pow2_pos|].
    rewrite (pow2_Z 53) by lia. rewrite <- Zlt_Qlt. exact Hm1.
  - apply Qle_trans with (pow2 52 * pow2 e2).
    + rewrite <- !pow2_add. apply pow2_le. lia.
    + apply Qmult_le_compat_r; [|apply Qlt_le_weak, pow2_pos].
      rewrite (pow2_Z 52) by lia. rewrite <- Zle_Qle. exact Hlo.
Qed.

Lemma at_exp_cmp (m1 m2 : positive) (e : Z) :
  match Pos.compare m1 m2 with
  | Lt => at_exp (Zpos m1) e < at_exp (Zpos m2) e
  | Eq => at_exp (Zpos m1) e == at_exp (Zpos m2) e
  | Gt => at_exp (Zpos m2) e < at_exp (Zpos m1) e
  end.
Proof.
  unfold at_exp. destruct (Pos.compare_spec m1 m2) as [E|L|G].
  - subst. reflexivity.
  - apply Qmult_lt_compat_r; [apply pow2_pos|]. rewrite <- Zlt_Qlt. lia.
  - apply Qmult_lt_compat_r; [apply pow2_pos|]. rewrite <- Zlt_Qlt. lia.
Qed.

(** Comparison of two floats is comparison of their values. *)
Lemma SFcompare_spec (x y : spec_float) :
  SpecFloat.valid_binary prec emax x = true -> SpecFloat.valid_binary prec emax y = true ->
  match SFcompare x y with
  | None => SF2X x = NaN \/ SF2X y = NaN
  | Some Lt => xlt (SF2X x) (SF2X y)
  | Some Eq => xeq (SF2X x) (SF2X y)
  | Some Gt => xlt (SF2X y) (SF2X x)
  end.
Proof.
  intros Hx Hy.
  destruct x as [sx|sx| |sx mx ex], y as [sy|sy| |sy my ey]; simpl;
    try (destruct sx); try (destruct sy); simpl; auto; try reflexivity;
    try (pose proof (at_exp_pos mx ex)); try (pose proof (at_exp_pos my ey)); try lra.
  - destruct (Z.compare_spec ex ey) as [E|L|G].
    + subst ey. change (Pos.compare_cont Eq mx my) with (Pos.compare mx my).
      pose proof (at_exp_cmp mx my ex) as Hc.
      destruct (Pos.compare mx my); simpl; lra.
    + pose proof (at_exp_lt_exp mx my ex ey Hx Hy L). simpl; lra.
    + pose proof (at_exp_lt_exp my mx ey ex Hy Hx G). simpl; lra.
  - destruct (Z.compare_spec ex ey) as [E|L|G].
    + subst ey. change (Pos.compare_cont Eq mx my) with (Pos.compare mx my).
      pose proof (at_exp_cmp mx my ex) as Hc.
      destruct (Pos.compare mx my); simpl; lra.
    + pose proof (at_exp_lt_exp mx my ex ey Hx Hy L). simpl; lra.
    + pose proof (at_exp_lt_exp my mx ey ex Hy Hx G). simpl; lra.
Qed.

Lemma xlt_bools (a b : xq) :
  xlt a b -> xle_bool a b = true /\ xlt_bool a b = true
             /\ xle_bool b a = false /\ xlt_bool b a = false.
Proof.
  destruct a as [p| | |], b as [q| | |]; simpl; try contradiction; auto.
  intros H.
  assert (Qle_bool p q = true) by (apply Qle_bool_iff; lra).
  assert (Qle_bool q p = false).
  { destruct (Qle_bool q p) eqn:E; [|reflexivity]. apply Qle_bool_iff in E. lra. }
  rewrite H0, H1. auto.
Qed.

Lemma xeq_bools (a b : xq) :
  xeq a b -> xle_bool a b = true /\ xlt_bool a b = false
             /\ xle_bool b a = true /\ xlt_bool b a = false.
Proof.
  destruct a as [p| | |], b as [q| | |]; simpl; try contradiction; auto.
  intros H.
  assert (Qle_bool p q = true) by (apply Qle_bool_iff; lra).
  assert (Qle_bool q p = true) by (apply Qle_bool_iff; lra).
  rewrite H0, H1. auto.
Qed.

Lemma xnan_bools (a b : xq) :
  a = NaN \/ b = NaN -> xle_bool a b = false /\ xlt_bool a b = false.
Proof. intros [E | E]; subst; [destruct b | destruct a]; simpl; auto. Qed.

Lemma SFleb_spec (x y : spec_float) :
  SpecFloat.valid_binary prec emax x = true -> SpecFloat.valid_binary prec emax y = true ->
  SFleb x y = xle_bool (SF2X x) (SF2X y).
Proof.
  intros Hx Hy. pose proof (SFcompare_spec x y Hx Hy) as H. unfold SFleb.
  destruct (SFcompare x y) as [[ | | ]|].
  - apply xeq_bools in H. symmetry; tauto.
  - apply xlt_bools in H. symmetry; tauto.
  - apply xlt_bools in H. symmetry; tauto.
  - apply xnan_bools in H. symmetry; tauto.
Qed.

Lemma SFltb_spec (x y : spec_float) :
  SpecFloat.valid_binary prec emax x = true -> SpecFloat.valid_binary prec emax y = true ->
  SFltb x y = xlt_bool (SF2X x) (SF2X y).
Proof.
  intros Hx Hy. pose proof (SFcompare_spec x y Hx Hy) as H. unfold SFltb.
  destruct (SFcompare x y) as [[ | | ]|].
  - apply xeq_bools in H. symmetry; tauto.
  - apply xlt_bools in H. symmetry; tauto.
  - apply xlt_bools in H. symmetry; tauto.
  - apply xnan_bools in H. symmetry; tauto.
Qed.

Lemma B_leb (x y : float) : PrimFloat.leb x y = xle_bool (B2X x) (B2X y).
Proof. rewrite leb_spec. apply SFleb_spec; apply Prim2SF_valid. Qed.

Lemma B_ltb (x y : float) : PrimFloat.ltb x y = xlt_bool (B2X x) (B2X y).
Proof. rewrite ltb_spec. apply SFltb_spec; apply Prim2SF_valid. Qed.

Lemma xle_bool_iff (a b : xq) : xle_bool a b = true <-> xle a b.
Proof.
  destruct a, b; simpl; try tauto; try (split; [discriminate | contradiction]).
  apply Qle_bool_iff.
Qed.

Lemma xlt_bool_iff (a b : xq) : xlt_bool a b = true <-> xlt a b.
Proof.
  destruct a as [p| | |], b as [q| | |]; simpl; try tauto;
    try (split; [discriminate | contradiction]).
  destruct (Qle_bool q p) eqn:E; simpl.
  - apply Qle_bool_iff in E. split; [discriminate | lra].
  - split; [|reflexivity]. intros _.
    destruct (Qlt_le_dec p q) as [H|H]; [exact H|].
    apply Qle_bool_iff in H. congruence.
Qed.

(** ** The packed result *)

Lemma clip_mono (p q : Q) : p <= q -> xle (clip p) (clip q).
Proof.
  intros H. unfold clip.
  destruct (Qle_bool (pow2 1024) p) eqn:Ep, (Qle_bool (pow2 1024) q) eqn:Eq; simpl; auto.
  apply Qle_bool_iff in Ep.
  assert (Qle_bool (pow2 1024) q = true) by (apply Qle_bool_iff; lra). congruence.
Qed.

Lemma clip_eq (p q : Q) : p == q -> xeq (clip p) (clip q).
Proof.
  intros H. unfold clip. rewrite H.
  destruct (Qle_bool (pow2 1024) q); simpl; auto.
Qed.

Lemma clip_nonneg (q : Q) : 0 <= q -> xle (Fin 0) (clip q).
Proof. intros H. unfold clip. destruct (Qle_bool (pow2 1024) q); simpl; auto. Qed.

Lemma pack_valid (s : bool) (k c : Z) :
  mantissa_ok k c -> SpecFloat.valid_binary prec emax (pack s k c) = true.
Proof.
  intros (Hk & Hc & Hn). unfold pack.
  destruct k as [|m|m]; [reflexivity| |reflexivity].
  destruct (Z.eqb_spec (Zpos m) (2 ^ 53)) as [E|N].
  - destruct (Z.leb_spec (c + 1) 971) as [L|G]; [|reflexivity].
    simpl. unfold bounded, canonical_mantissa. rewrite fexp_val.
    change (Zpos (digits2_pos (2 ^ 52))) with 53%Z.
    apply andb_true_intro; split; [apply Z.eqb_eq; lia | apply Z.leb_le; exact L].
  - destruct (Z.leb_spec c 971) as [L|G]; [|reflexivity].
    simpl. unfold bounded, canonical_mantissa. rewrite fexp_val.
    assert (Hd : (Zpos (digits2_pos m) <= 53)%Z) by (apply digits2_le; lia).
    apply andb_true_intro; split; [|apply Z.leb_le; exact L].
    apply Z.eqb_eq.
    destruct (Z.eq_dec c (-1074)) as [->|Hne]; [lia|].
    assert (Hd2 : (53 <= Zpos (digits2_pos m))%Z).
    { apply (digits2_ge m 52); [lia|]. apply Hn. lia. }
    lia.
Qed.

Lemma pack_value (k c : Z) :
  mantissa_ok k c -> xeq (SF2X (pack false k c)) (clip (at_exp k c)).
Proof.
  intros (Hk & Hc & Hn). unfold pack, clip.
  destruct k as [|m|m]; [| |lia].
  - unfold at_exp. simpl.
    destruct (Qle_bool (pow2 1024) (inject_Z 0 * pow2 c)) eqn:E.
    + apply Qle_bool_iff in E. pose proof (pow2_pos 1024). change (inject_Z 0) with 0 in E. lra.
    + simpl. change (inject_Z 0) with 0. ring.
  - destruct (Z.eqb_spec (Zpos m) (2 ^ 53)) as [E|N].
    + rewrite E.
      assert (Ev : at_exp (2 ^ 53) c == pow2 (c + 53)).
      { unfold at_exp. rewrite <- (pow2_Z 53) by lia. rewrite <- pow2_add.
        now rewrite Z.add_comm. }
      assert (Ev' : at_exp (Zpos (2 ^ 52)) (c + 1) == pow2 (c + 53)).
      { unfold at_exp. change (Zpos (2 ^ 52)) with (2 ^ 52)%Z.
        rewrite <- (pow2_Z 52) by lia. rewrite <- pow2_add.
        replace (52 + (c + 1))%Z with (c + 53)%Z by lia. reflexivity. }
      destruct (Z.leb_spec (c + 1) 971) as [L|G]; cbn [SF2X].
      * destruct (Qle_bool (pow2 1024) (at_exp (2 ^ 53) c)) eqn:B.
        -- apply Qle_bool_iff in B. rewrite Ev in B.
           assert (pow2 (c + 53) < pow2 1024) by (apply pow2_lt; lia). lra.
        -- unfold xeq. rewrite Ev, Ev'. reflexivity.
      * destruct (Qle_bool (pow2 1024) (at_exp (2 ^ 53) c)) eqn:B; [reflexivity|].
        assert (pow2 1024 <= pow2 (c + 53)) by (apply pow2_le; lia).
        assert (B' : Qle_bool (pow2 1024) (at_exp (2 ^ 53) c) = true)
          by (apply Qle_bool_iff; rewrite Ev; assumption).
        congruence.
    + assert (Hm : (Zpos m < 2 ^ 53)%Z) by lia.
      assert (Hup : at_exp (Zpos m) c < pow2 (c + 53)).
      { unfold at_exp. rewrite Z.add_comm, pow2_add.
        apply Qmult_lt_compat_r; [apply pow2_pos|].
        rewrite (pow2_Z 53) by lia. rewrite <- Zlt_Qlt. exact Hm. }
      destruct (Z.leb_spec c 971) as [L|G]; cbn [SF2X].
      * destruct (Qle_bool (pow2 1024) (at_exp (Zpos m) c)) eqn:B; [|unfold xeq; reflexivity].
        apply Qle_bool_iff in B.
        assert (pow2 (c + 53) <= pow2 1024) by (apply pow2_le; lia). lra.
      * destruct (Qle_bool (pow2 1024) (at_exp (Zpos m) c)) eqn:B; [reflexivity|].
        assert (Hlow : pow2 (c + 52) <= at_exp (Zpos m) c).
        { unfold at_exp. rewrite Z.add_comm, pow2_add.
          apply Qmult_le_compat_r; [|apply Qlt_le_weak, pow2_pos].
          rewrite (pow2_Z 52) by lia. rewrite <- Zle_Qle. apply Hn. lia. }
        assert (pow2 1024 <= pow2 (c + 52)) by (apply pow2_le; lia).
        assert (B' : Qle_bool (pow2 1024) (at_exp (Zpos m) c) = true)
          by (apply Qle_bool_iff; lra).
        congruence.
Qed.

Lemma pack_sign (k c : Z) : SF2X (pack true k c) = xopp (SF2X (pack false k c)).
Proof.
  unfold pack. destruct k as [|m|m]; try reflexivity.
  destruct (Z.pos m =? 2 ^ 53)%Z;
    [destruct (c + 1 <=? 971)%Z | destruct (c <=? 971)%Z]; reflexivity.
Qed.

(** ** Correct rounding, as a relation between exact values *)

Lemma xeq_refl (a : xq) : a <> NaN -> xeq a a.
Proof. destruct a; simpl; try tauto. intros _. reflexivity. Qed.

Lemma xeq_sym (a b : xq) : xeq a b -> xeq b a.
Proof. destruct a, b; simpl; try tauto. intros E. now symmetry. Qed.

Lemma xeq_trans (a b c : xq) : xeq a b -> xeq b c -> xeq a c.
Proof. destruct a, b, c; simpl; try tauto. intros E1 E2. now rewrite E1. Qed.

Lemma xle_refl (a : xq) : a <> NaN -> xle a a.
Proof. destruct a; simpl; try tauto. intros _. apply Qle_refl. Qed.

Lemma xle_trans (a b c : xq) : xle a b -> xle b c -> xle a c.
Proof. destruct a, b, c; simpl; try tauto. apply Qle_trans. Qed.

Lemma xeq_xle_l (a b : xq) : xeq a b -> xle a b.
Proof. destruct a, b; simpl; try tauto. intros E. rewrite E. apply Qle_refl. Qed.

Lemma xeq_xle_r (a b : xq) : xeq a b -> xle b a.
Proof. intros E. apply xeq_xle_l, xeq_sym, E. Qed.

Lemma xle_antisym (a b : xq) : xle a b -> xle b a -> xeq a b.
Proof. destruct a, b; simpl; try tauto. apply Qle_antisym. Qed.

Lemma xle_opp (a b : xq) : xle a b -> xle (xopp b) (xopp a).
Proof. destruct a, b; simpl; try tauto. intros H. lra. Qed.

Lemma xopp_invol_le (a b : xq) : xle (xopp b) (xopp a) -> xle a b.
Proof. destruct a, b; simpl; try tauto. intros H. lra. Qed.

Lemma xeq_opp (a b : xq) : xeq a b -> xeq (xopp a) (xopp b).
Proof. destruct a, b; simpl; try tauto. intros H. now rewrite H. Qed.

Lemma canon_eq (v v' : Q) (c : Z) : v == v' -> canon v c -> canon v' c.
Proof. intros E [[Hc H]|[Hc [H1 H2]]]; [left | right]; rewrite <- E; auto. Qed.

Lemma rne_rel_eq (x x' : Q) (k : Z) : x == x' -> rne_rel x k -> rne_rel x' k.
Proof. intros E [[H1 H2]|[He Hev]]; [left | right]; rewrite <- E; auto. Qed.

Lemma rounds_pos_eq (v v' : Q) (r r' : xq) :
  v == v' -> xeq r r' -> rounds_pos v r -> rounds_pos v' r'.
Proof.
  intros E Er (c & k & Hc & Hk & Hr). exists c, k. split; [|split].
  - exact (canon_eq _ _ _ E Hc).
  - apply (rne_rel_eq (v / pow2 c)); [now rewrite E | exact Hk].
  - apply xeq_trans with r; [apply xeq_sym, Er | exact Hr].
Qed.

Lemma rne_nonneg (x : Q) (k : Z) : 0 <= x -> rne_rel x k -> (0 <= k)%Z.
Proof. intros Hx Hk. apply (rne_ge x); [exact Hx | exact Hk]. Qed.

Lemma scaled_pos (v : Q) (c : Z) : 0 < v -> 0 < v / pow2 c.
Proof. intros Hv. apply Qlt_shift_div_l; [apply pow2_pos | lra]. Qed.

Lemma at_exp_nonneg (k c : Z) : (0 <= k)%Z -> 0 <= at_exp k c.
Proof.
  intros Hk. unfold at_exp. apply Qmult_le_0_compat; [|apply Qlt_le_weak, pow2_pos].
  change 0 with (inject_Z 0). rewrite <- Zle_Qle. exact Hk.
Qed.

Lemma rounds_pos_nonneg (v : Q) (r : xq) : 0 < v -> rounds_pos v r -> xle (Fin 0) r.
Proof.
  intros Hv (c & k & Hc & Hk & Hr).
  apply xle_trans with (clip (at_exp k c)); [|apply xeq_xle_r, Hr].
  apply clip_nonneg, at_exp_nonneg.
  apply (rne_nonneg (v / pow2 c)); [apply Qlt_le_weak, scaled_pos, Hv | exact Hk].
Qed.

Lemma rounds_pos_mono (v v' : Q) (r r' : xq) :
  v <= v' -> rounds_pos v r -> rounds_pos v' r' -> xle r r'.
Proof.
  intros Hv (c & k & Hc & Hk & Hr) (c' & k' & Hc' & Hk' & Hr').
  apply xle_trans with (clip (at_exp k c)); [apply xeq_xle_l, Hr|].
  apply xle_trans with (clip (at_exp k' c')); [|apply xeq_xle_r, Hr'].
  apply clip_mono. exact (round_mono _ _ _ _ _ _ Hv Hc Hk Hc' Hk').
Qed.

Lemma xle_zero_opp (r : xq) : xle (Fin 0) (xopp r) -> xle r (Fin 0).
Proof. destruct r; simpl; try tauto. intros H. lra. Qed.

(** A double that is the rounding of some exact value is a number or an
    infinity, never NaN, unless the exact value is NaN. *)
Lemma rounds_mono (a b a' b' : xq) :
  xle a b -> rounds a a' -> rounds b b' -> xle a' b'.
Proof.
  destruct a as [p| | |], b as [q| | |]; simpl; try tauto.
  - intros Hpq [[Ep Ha]|[[Hp Ha]|[Hp Ha]]] [[Eq Hb]|[[Hq Hb]|[Hq Hb]]]; try lra.
    + apply xle_trans with (Fin 0); [apply xeq_xle_l, Ha | apply xeq_xle_r, Hb].
    + apply xle_trans with (Fin 0); [apply xeq_xle_l, Ha|].
      exact (rounds_pos_nonneg _ _ Hq Hb).
    + exact (rounds_pos_mono _ _ _ _ Hpq Ha Hb).
    + apply xle_trans with (Fin 0); [|apply xeq_xle_r, Hb].
      apply xle_zero_opp. apply (rounds_pos_nonneg (- p)); [lra | exact Ha].
    + apply xle_trans with (Fin 0).
      * apply xle_zero_opp. apply (rounds_pos_nonneg (- p)); [lra | exact Ha].
      * exact (rounds_pos_nonneg _ _ Hq Hb).
    + apply xopp_invol_le. apply (rounds_pos_mono (- q) (- p)); [lra | exact Hb | exact Ha].
  - intros _ Ha ->.
    destruct a' as [x| | |]; simpl; auto.
    destruct Ha as [[_ Ha]|[[Hp Ha]|[Hp Ha]]].
    + exact Ha.
    + apply (rounds_pos_nonneg _ _ Hp) in Ha. exact Ha.
    + apply rounds_pos_nonneg in Ha; [|lra]. exact Ha.
  - intros _ -> ->. exact I.
  - intros _ -> Hb.
    destruct b' as [x| | |]; simpl; auto.
    destruct Hb as [[_ Hb]|[[Hq Hb]|[Hq Hb]]].
    + exact Hb.
    + apply (rounds_pos_nonneg _ _ Hq) in Hb. exact Hb.
    + apply rounds_pos_nonneg in Hb; [|lra]. exact Hb.
  - intros _ -> ->. exact I.
  - intros _ -> ->. exact I.
Qed.

Lemma rounds_eq (a b r : xq) : xeq a b -> rounds a r -> rounds b r.
Proof.
  destruct a as [p| | |], b as [q| | |]; simpl; try tauto.
  intros E [[Ep Ha]|[[Hp Ha]|[Hp Ha]]].
  - left. split; [now rewrite <- E | exact Ha].
  - right; left. split; [now rewrite <- E|].
    apply (rounds_pos_eq p q r r E); [|exact Ha].
    destruct r; simpl; try reflexivity;
      destruct Ha as (c & k & _ & _ & Hr); simpl in Hr; try contradiction; exact I.
  - right; right. split; [now rewrite <- E|].
    apply (rounds_pos_eq (- p) (- q) (xopp r) (xopp r)); [now rewrite E| |exact Ha].
    destruct r; simpl; try reflexivity;
      destruct Ha as (c & k & _ & _ & Hr); simpl in Hr; try contradiction; exact I.
Qed.

(** The value of a valid double rounds to itself. *)
Lemma canon_valid (m : positive) (e : Z) :
  bounded prec emax m e = true -> canon (at_exp (Zpos m) e) e.
Proof.
  intros Hb. apply bounded_canonical in Hb. destruct Hb as [Hc He].
  destruct (digits2_bounds m) as [Hlo Hhi].
  destruct (Z.eq_dec e (-1074)) as [->|Hne].
  - left. split; [reflexivity|].
    assert (Hd : (Zpos (digits2_pos m) <= 53)%Z) by lia.
    assert (Hm : (Zpos m < 2 ^ 53)%Z).
    { apply Z.lt_le_trans with (2 ^ Zpos (digits2_pos m))%Z; [exact Hhi|].
      apply Z.pow_le_mono_r; lia. }
    unfold at_exp. replace (-1021)%Z with (53 + -1074)%Z by lia. rewrite pow2_add.
    apply Qmult_lt_compat_r; [apply pow2_pos|].
    rewrite (pow2_Z 53) by lia. rewrite <- Zlt_Qlt. exact Hm.
  - right. assert (Hd : Zpos (digits2_pos m) = 53%Z) by lia.
    rewrite Hd in Hlo, Hhi. split; [lia|]. unfold at_exp. split.
    + rewrite Z.add_comm, pow2_add.
      apply Qmult_le_compat_r; [|apply Qlt_le_weak, pow2_pos].
      rewrite (pow2_Z 52) by lia. rewrite <- Zle_Qle. exact Hlo.
    + rewrite Z.add_comm, pow2_add.
      apply Qmult_lt_compat_r; [apply pow2_pos|].
      rewrite (pow2_Z 53) by lia. rewrite <- Zlt_Qlt. exact Hhi.
Qed.

Lemma at_exp_scaled (k c : Z) : at_exp k c / pow2 c == inject_Z k.
Proof. unfold at_exp. field. apply Qnot_eq_sym, Qlt_not_eq, pow2_pos. Qed.

Lemma clip_valid (m : positive) (e : Z) :
  bounded prec emax m e = true -> clip (at_exp (Zpos m) e) = Fin (at_exp (Zpos m) e).
Proof.
  intros Hb. pose proof (canon_valid m e Hb) as Hc.
  apply bounded_canonical in Hb. destruct Hb as [_ He].
  apply canon_upper in Hc. destruct Hc as [Hup _].
  unfold clip. destruct (Qle_bool (pow2 1024) (at_exp (Zpos m) e)) eqn:B; [|reflexivity].
  apply Qle_bool_iff in B.
  assert (pow2 (e + 53) <= pow2 1024) by (apply pow2_le; lia). lra.
Qed.

Lemma rounds_pos_valid (m : positive) (e : Z) :
  bounded prec emax m e = true -> rounds_pos (at_exp (Zpos m) e) (Fin (at_exp (Zpos m) e)).
Proof.
  intros Hb. exists e, (Zpos m). split; [apply canon_valid, Hb|]. split.
  - apply (rne_rel_eq (inject_Z (Zpos m))); [symmetry; apply at_exp_scaled | apply rne_exact].
  - rewrite (clip_valid m e Hb). simpl. reflexivity.
Qed.

Lemma rounds_valid (x : spec_float) :
  SpecFloat.valid_binary prec emax x = true -> rounds (SF2X x) (SF2X x).
Proof.
  destruct x as [s|s| |s m e]; simpl.
  - intros _. left. split; reflexivity.
  - intros _. destruct s; reflexivity.
  - intros _. reflexivity.
  - intros Hb. pose proof (at_exp_pos m e) as Hp. destruct s.
    + right; right. split; [lra|].
      apply (rounds_pos_eq (at_exp (Zpos m) e) _ (Fin (at_exp (Zpos m) e)));
        [ring | simpl; ring | apply rounds_pos_valid, Hb].
    + right; left. split; [exact Hp | apply rounds_pos_valid, Hb].
Qed.

(** Rounding is a function of the exact value, up to the equality of values. *)
Lemma rounds_fun (a r r' : xq) : a <> NaN -> rounds a r -> rounds a r' -> xeq r r'.
Proof.
  intros Hn H1 H2. apply xle_antisym.
  - exact (rounds_mono a a r r' (xle_refl a Hn) H1 H2).
  - exact (rounds_mono a a r' r (xle_refl a Hn) H2 H1).
Qed.

(** ** The reference operations round correctly *)

Lemma xopp_invol (r : xq) : r <> NaN -> xeq (xopp (xopp r)) r.
Proof. destruct r; simpl; try tauto. intros _. ring. Qed.

Lemma rounds_signed (s : bool) (v : Q) (r : xq) :
  0 < v -> rounds_pos v r -> rounds (Fin (signed s v)) (if s then xopp r else r).
Proof.
  intros Hv Hr. destruct s; simpl.
  - right; right. split; [lra|].
    apply (rounds_pos_eq v (- - v) r); [ring | | exact Hr].
    apply xeq_sym, xopp_invol. intros ->.
    destruct Hr as (c & k & _ & _ & Hr). exact Hr.
  - right; left. split; [exact Hv | exact Hr].
Qed.

Lemma BRA_rounds (s : bool) (m e : Z) (l : location) (v : Q) :
  (0 <= m)%Z -> 0 < v -> inb m l (v / pow2 e) ->
  (e <= fexp prec emax (Zdigits2 m + e))%Z ->
  SpecFloat.valid_binary prec emax (binary_round_aux prec emax s m e l) = true
  /\ rounds (Fin (signed s v)) (SF2X (binary_round_aux prec emax s m e l)).
Proof.
  intros Hm Hv Hin Hpre.
  destruct (BRA_spec s m e l v Hm Hv Hin Hpre) as (c & k & Hc & Hk & Hkb & Hkn & ->).
  assert (Hok : mantissa_ok k c).
  { split; [exact Hkb|]. split; [apply (canon_upper v), Hc | exact Hkn]. }
  split; [apply pack_valid, Hok|].
  pose proof (pack_value k c Hok) as Hval.
  assert (Hr : rounds_pos v (SF2X (pack false k c))) by (exists c, k; auto).
  pose proof (rounds_signed s v _ Hv Hr) as H.
  destruct s; [rewrite pack_sign|]; exact H.
Qed.

Lemma inf_signed_pos (b : bool) (q : Q) : 0 < q -> inf_signed b q = if b then PInf else NInf.
Proof. intros H. unfold inf_signed. now rewrite (cmp_gt q 0 H). Qed.

Lemma inf_signed_neg (b : bool) (q : Q) : q < 0 -> inf_signed b q = if b then NInf else PInf.
Proof. intros H. unfold inf_signed. now rewrite (cmp_lt q 0 H). Qed.

Lemma rounds_zero (q : Q) (s : bool) : q == 0 -> rounds (Fin q) (SF2X (S754_zero s)).
Proof. intros E. left. split; [exact E | simpl; reflexivity]. Qed.

(** *** Multiplication *)

Lemma at_exp_mul (m1 m2 : positive) (e1 e2 : Z) :
  at_exp (Zpos (m1 * m2)) (e1 + e2) == at_exp (Zpos m1) e1 * at_exp (Zpos m2) e2.
Proof. unfold at_exp. rewrite Pos2Z.inj_mul, inject_Z_mult, pow2_add. ring. Qed.

Lemma digits2_mul (m1 m2 : positive) :
  (Zpos (digits2_pos m1) + Zpos (digits2_pos m2) - 1 <= Zpos (digits2_pos (m1 * m2)))%Z.
Proof.
  destruct (digits2_bounds m1) as [H1 _]. destruct (digits2_bounds m2) as [H2 _].
  set (d1 := Zpos (digits2_pos m1)) in *. set (d2 := Zpos (digits2_pos m2)) in *.
  assert (Hd1 : (0 < d1)%Z) by (subst d1; lia).
  assert (Hd2 : (0 < d2)%Z) by (subst d2; lia).
  replace (d1 + d2 - 1)%Z with (d1 + d2 - 2 + 1)%Z by lia.
  apply digits2_ge; [lia|].
  replace (d1 + d2 - 2)%Z with ((d1 - 1) + (d2 - 1))%Z by lia.
  rewrite Z.pow_add_r by lia. rewrite Pos2Z.inj_mul.
  apply Z.mul_le_mono_nonneg; try lia; apply Z.pow_nonneg; lia.
Qed.

Lemma signed_mul (s1 s2 : bool) (v1 v2 : Q) :
  signed (xorb s1 s2) (v1 * v2) == signed s1 v1 * signed s2 v2.
Proof. destruct s1, s2; simpl; ring. Qed.

Lemma signed_eq (s : bool) (v v' : Q) : v == v' -> signed s v == signed s v'.
Proof. intros E. destruct s; simpl; now rewrite E. Qed.

Lemma signed_pos (v : Q) : 0 < v -> 0 < signed false v /\ signed true v < 0.
Proof. intros H. simpl. split; lra. Qed.

Lemma at_exp_neg (m : positive) (e : Z) : - at_exp (Zpos m) e < 0.
Proof. pose proof (at_exp_pos m e). lra. Qed.

(** The cases of an operation in which an operand is a zero, an infinity or
    NaN: the result is read off the table. *)
Ltac special_case op :=
  solve [ repeat match goal with s : bool |- _ => destruct s end;
          cbn [op xmul xdiv xadd SF2X xorb];
          rewrite ?inf_signed_pos by apply at_exp_pos;
          rewrite ?inf_signed_neg by apply at_exp_neg;
          first [ reflexivity
                | left; split; [first [ring | field; apply Qnot_eq_sym, Qlt_not_eq, at_exp_pos
                                       | field; apply Qlt_not_eq, at_exp_neg]
                               | simpl; reflexivity] ] ].

Lemma SFmul_spec (x y : spec_float) :
  SpecFloat.valid_binary prec emax x = true -> SpecFloat.valid_binary prec emax y = true ->
  rounds (xmul (SF2X x) (SF2X y)) (SF2X (SFmul prec emax x y)).
Proof.
  intros Hx Hy.
  destruct x as [sx|sx| |sx mx ex], y as [sy|sy| |sy my ey]; try special_case SFmul.
  simpl in Hx, Hy.
  assert (Hv : 0 < at_exp (Zpos (mx * my)) (ex + ey)) by apply at_exp_pos.
  destruct (BRA_rounds (xorb sx sy) (Zpos (mx * my)) (ex + ey) loc_Exact
              (at_exp (Zpos (mx * my)) (ex + ey))) as [_ Hr].
  - lia.
  - exact Hv.
  - simpl. apply at_exp_scaled.
  - apply bounded_canonical in Hx, Hy. destruct Hx as [Hx _], Hy as [Hy _].
    pose proof (digits2_mul mx my). rewrite fexp_val. simpl Zdigits2. lia.
  - unfold SFmul.
    apply (rounds_eq (Fin (signed (xorb sx sy) (at_exp (Zpos (mx * my)) (ex + ey)))));
      [|exact Hr].
    change (SF2X (S754_finite sx mx ex)) with (Fin (signed sx (at_exp (Zpos mx) ex))).
    change (SF2X (S754_finite sy my ey)) with (Fin (signed sy (at_exp (Zpos my) ey))).
    cbn [xmul xeq]. rewrite <- signed_mul. apply signed_eq, at_exp_mul.
Qed.

(** *** Division *)

Lemma new_location_spec (n r q : Z) (x : Q) :
  (0 < n)%Z -> (0 <= r < n)%Z -> x == inject_Z q + inject_Z r / inject_Z n ->
  inb q (new_location n r) x.
Proof.
  intros Hn [Hr0 Hrn] Ex.
  assert (Hnq : 0 < inject_Z n) by (change 0 with (inject_Z 0); rewrite <- Zlt_Qlt; exact Hn).
  set (f := inject_Z r / inject_Z n) in *.
  assert (Hscale : f * inject_Z n == inject_Z r) by (unfold f; field; lra).
  assert (Hr0q : 0 <= inject_Z r) by (change 0 with (inject_Z 0); rewrite <- Zle_Qle; exact Hr0).
  assert (Hrnq : inject_Z r < inject_Z n) by (rewrite <- Zlt_Qlt; exact Hrn).
  assert (Hf1 : f < 1) by (unfold f; apply Qlt_shift_div_r; lra).
  assert (Hexact : r = 0%Z -> f == 0).
  { intros ->. unfold f. change (inject_Z 0) with 0. field. lra. }
  assert (Hf0 : r <> 0%Z -> 0 < f).
  { intros Hne. unfold f. apply Qlt_shift_div_l; [exact Hnq|].
    assert (inject_Z 0 < inject_Z r) by (rewrite <- Zlt_Qlt; lia).
    change (inject_Z 0) with 0 in *. lra. }
  assert (Hlt : (2 * r < n)%Z -> f < 1 # 2).
  { intros H. rewrite Zlt_Qlt, inject_Z_mult in H. change (inject_Z 2) with 2 in H.
    unfold f. apply Qlt_shift_div_r; lra. }
  assert (Hgt : (n < 2 * r)%Z -> (1 # 2) < f).
  { intros H. rewrite Zlt_Qlt, inject_Z_mult in H. change (inject_Z 2) with 2 in H.
    unfold f. apply Qlt_shift_div_l; lra. }
  assert (Heq : (2 * r = n)%Z -> f == 1 # 2).
  { intros H. apply Qle_antisym.
    - unfold f. apply Qle_shift_div_r; [exact Hnq|].
      rewrite <- H, inject_Z_mult. change (inject_Z 2) with 2. lra.
    - unfold f. apply Qle_shift_div_l; [exact Hnq|].
      rewrite <- H, inject_Z_mult. change (inject_Z 2) with 2. lra. }
  clearbody f.
  unfold new_location, new_location_even, new_location_odd.
  destruct (Z.even n) eqn:Hev; destruct (Z.eqb_spec r 0) as [E0|N0].
  - cbn [inb]. rewrite Ex, (Hexact E0). ring.
  - cbn [inb]. split; [|split].
    + specialize (Hf0 N0). lra.
    + lra.
    + destruct (Z.compare_spec (2 * r) n) as [E|L|G].
      * apply cmp_eq. rewrite Ex, (Heq E). reflexivity.
      * apply cmp_lt. specialize (Hlt L). lra.
      * apply cmp_gt. specialize (Hgt G). lra.
  - cbn [inb]. rewrite Ex, (Hexact E0). ring.
  - cbn [inb]. split; [|split].
    + specialize (Hf0 N0). lra.
    + lra.
    + assert (Hodd : (2 * r <> n)%Z).
      { intros E. rewrite <- E, Z.even_mul in Hev. discriminate. }
      destruct (Z.compare_spec (2 * r + 1) n) as [E|L|G].
      * apply cmp_lt. assert (f < 1 # 2) by (apply Hlt; lia). lra.
      * apply cmp_lt. assert (f < 1 # 2) by (apply Hlt; lia). lra.
      * apply cmp_gt. assert ((1 # 2) < f) by (apply Hgt; lia). lra.
Qed.

Lemma at_exp_div (m1 m2 : Z) (e1 e2 e' : Z) :
  (0 < m2)%Z ->
  at_exp m1 e1 / at_exp m2 e2 / pow2 e'
  == inject_Z m1 * pow2 (e1 - e2 - e') / inject_Z m2.
Proof.
  intros Hm. unfold at_exp.
  replace (e1 - e2 - e')%Z with (e1 + (- e2 + - e'))%Z by lia.
  rewrite !pow2_add.
  assert (H2 : pow2 (- e2) == / pow2 e2).
  { unfold pow2. rewrite Qpower_opp. reflexivity. }
  assert (H3 : pow2 (- e') == / pow2 e').
  { unfold pow2. rewrite Qpower_opp. reflexivity. }
  rewrite H2, H3.
  pose proof (pow2_pos e2). pose proof (pow2_pos e').
  assert (0 < inject_Z m2) by (change 0 with (inject_Z 0); rewrite <- Zlt_Qlt; exact Hm).
  field. repeat split; lra.
Qed.

Lemma SFdiv_core_spec (m1 m2 : positive) (e1 e2 : Z) :
  forall q e' l,
    SFdiv_core_binary prec emax (Zpos m1) e1 (Zpos m2) e2 = (q, e', l) ->
    (0 <= q)%Z
    /\ inb q l (at_exp (Zpos m1) e1 / at_exp (Zpos m2) e2 / pow2 e')
    /\ (e' <= fexp prec emax (Zdigits2 q + e'))%Z.
Proof.
  intros q e' l. unfold SFdiv_core_binary.
  set (d1 := Zdigits2 (Zpos m1)). set (d2 := Zdigits2 (Zpos m2)).
  set (e0 := Z.min (fexp prec emax (d1 + e1 - (d2 + e2))) (e1 - e2)).
  set (s := (e1 - e2 - e0)%Z).
  assert (Hs : (0 <= s)%Z) by (subst s e0; lia).
  set (m' := match s with Zpos _ => Z.shiftl (Zpos m1) s | Z0 => Zpos m1 | Zneg _ => 0%Z end).
  assert (Hm' : m' = (Zpos m1 * 2 ^ s)%Z).
  { subst m'. destruct s as [|p|p] eqn:Es; [simpl; lia| |lia].
    rewrite Z.shiftl_mul_pow2 by lia. reflexivity. }
  pose proof (Z_div_mod m' (Zpos m2) ltac:(lia)) as Hdm.
  destruct (Z.div_eucl m' (Zpos m2)) as [q0 r0]. destruct Hdm as [Hdm Hr].
  intros [= <- <- <-].
  assert (Hpow : (0 < 2 ^ s)%Z) by (apply Z.pow_pos_nonneg; lia).
  assert (Hq0 : (0 <= q0)%Z) by nia.
  split; [exact Hq0|]. split.
  - apply new_location_spec; [lia | exact Hr|].
    rewrite at_exp_div by lia. fold s.
    rewrite (pow2_Z s) by lia. rewrite <- inject_Z_mult, <- Hm', Hdm.
    rewrite inject_Z_plus, inject_Z_mult.
    assert (0 < inject_Z (Zpos m2)) by (change 0 with (inject_Z 0); rewrite <- Zlt_Qlt; lia).
    field. lra.
  - rewrite fexp_val.
    assert (He0 : (e0 <= Z.max (d1 + e1 - (d2 + e2) - 53) (-1074))%Z).
    { subst e0. rewrite fexp_val. lia. }
    assert (Es : s = (e1 - e2 - e0)%Z) by reflexivity.
    destruct (digits2_bounds m1) as [Hb1 _]. destruct (digits2_bounds m2) as [_ Hb2].
    change (Zpos (digits2_pos m1)) with d1 in Hb1.
    change (Zpos (digits2_pos m2)) with d2 in Hb2.
    assert (Hd1 : (0 < d1)%Z) by (subst d1; simpl; lia).
    assert (Hd2 : (0 < d2)%Z) by (subst d2; simpl; lia).
    clearbody m'. clearbody s. clearbody e0 d1 d2.
    destruct (Z_le_gt_dec e0 (-1074)) as [Hlow|Hhigh]; [lia|].
    assert (Hs53 : (d2 - d1 + 53 <= s)%Z) by lia.
    assert (Hbig : (2 ^ 52 * 2 ^ d2 <= m')%Z).
    { rewrite Hm'. rewrite <- Z.pow_add_r by lia.
      apply Z.le_trans with (2 ^ (d1 - 1) * 2 ^ s)%Z.
      - rewrite <- Z.pow_add_r by lia. apply Z.pow_le_mono_r; lia.
      - apply Z.mul_le_mono_nonneg_r; lia. }
    assert (Hq52 : (2 ^ 52 <= q0)%Z) by nia.
    destruct q0 as [|p|p]; [lia| |lia].
    pose proof (digits2_ge p 52 ltac:(lia) Hq52). simpl Zdigits2. lia.
Qed.

Lemma signed_div (s1 s2 : bool) (v1 v2 : Q) :
  0 < v2 -> signed (xorb s1 s2) (v1 / v2) == signed s1 v1 / signed s2 v2.
Proof. intros H. destruct s1, s2; simpl; field; lra. Qed.

Lemma xdiv_fin (p q : Q) : ~ q == 0 -> xdiv (Fin p) (Fin q) = Fin (p / q).
Proof.
  intros H. unfold xdiv. destruct (Qcompare_spec q 0); [contradiction | reflexivity..].
Qed.

Lemma signed_nonzero (s : bool) (v : Q) : 0 < v -> ~ signed s v == 0.
Proof. intros H E. destruct s; simpl in E; lra. Qed.

Lemma Qdiv_pos2 (a b : Q) : 0 < a -> 0 < b -> 0 < a / b.
Proof. intros Ha Hb. apply Qlt_shift_div_l; [exact Hb | lra]. Qed.

(** The quotient of two finite numbers, whatever their mantissas: the
    operands need not be canonical. *)
Lemma SFdiv_finite (sx sy : bool) (mx my : positive) (ex ey : Z) :
  SpecFloat.valid_binary prec emax
    (SFdiv prec emax (S754_finite sx mx ex) (S754_finite sy my ey)) = true
  /\ rounds (Fin (signed (xorb sx sy) (at_exp (Zpos mx) ex / at_exp (Zpos my) ey)))
            (SF2X (SFdiv prec emax (S754_finite sx mx ex) (S754_finite sy my ey))).
Proof.
  unfold SFdiv.
  destruct (SFdiv_core_binary prec emax (Zpos mx) ex (Zpos my) ey) as [[q e'] l] eqn:Ecore.
  destruct (SFdiv_core_spec mx my ex ey q e' l Ecore) as (Hq & Hin & Hpre).
  apply BRA_rounds; try assumption.
  apply Qdiv_pos2; apply at_exp_pos.
Qed.

Lemma SFdiv_spec (x y : spec_float) :
  y <> S754_zero true ->
  rounds (xdiv (SF2X x) (SF2X y)) (SF2X (SFdiv prec emax x y)).
Proof.
  intros Hy.
  destruct x as [sx|sx| |sx mx ex], y as [[|]|sy| |sy my ey];
    try congruence; try special_case SFdiv.
  - change (SF2X (S754_finite sy my ey)) with (Fin (signed sy (at_exp (Zpos my) ey))).
    cbn [SF2X]. rewrite xdiv_fin by (apply signed_nonzero, at_exp_pos).
    left. split; [|destruct sx, sy; reflexivity].
    field. apply signed_nonzero, at_exp_pos.
  - pose proof (at_exp_pos my ey) as Hp.
    assert (H1 : Qle_bool 0 (at_exp (Zpos my) ey) = true) by (apply Qle_bool_iff; lra).
    assert (H2 : Qle_bool 0 (- at_exp (Zpos my) ey) = false).
    { destruct (Qle_bool 0 (- at_exp (Zpos my) ey)) eqn:B; [|reflexivity].
      apply Qle_bool_iff in B. lra. }
    destruct sx, sy; cbn [SF2X xdiv SFdiv xorb]; rewrite ?H1, ?H2; reflexivity.
  - destruct (SFdiv_finite sx sy mx my ex ey) as [_ Hr].
  apply (rounds_eq (Fin (signed (xorb sx sy) (at_exp (Zpos mx) ex / at_exp (Zpos my) ey))));
    [|exact Hr].
  change (SF2X (S754_finite sx mx ex)) with (Fin (signed sx (at_exp (Zpos mx) ex))).
  change (SF2X (S754_finite sy my ey)) with (Fin (signed sy (at_exp (Zpos my) ey))).
  rewrite xdiv_fin by (apply signed_nonzero, at_exp_pos).
  cbn [xeq]. apply signed_div, at_exp_pos.
Qed.

(** *** Addition *)

Lemma iter_xO_value (d m : positive) : Zpos (Pos.iter xO m d) = (Zpos m * 2 ^ Zpos d)%Z.
Proof.
  change (Pos.iter xO m d) with (Zpower.shift_pos d m).
  rewrite Zpower.shift_pos_correct. rewrite Z.pow_pos_fold. lia.
Qed.

Lemma iter_xO_digits (d m : positive) :
  Zpos (digits2_pos (Pos.iter xO m d)) = (Zpos (digits2_pos m) + Zpos d)%Z.
Proof.
  induction d as [|d IH] using Pos.peano_ind.
  - simpl. lia.
  - rewrite Pos.iter_succ. simpl digits2_pos. rewrite Pos2Z.inj_succ, IH. lia.
Qed.

(** Aligning a mantissa to a lower exponent keeps the number and its
    position. *)
Lemma shl_align_spec (m : positive) (e e' : Z) :
  forall m1 e1,
    shl_align m e e' = (m1, e1) ->
    at_exp (Zpos m1) e1 == at_exp (Zpos m) e
    /\ (Zpos (digits2_pos m1) + e1 = Zpos (digits2_pos m) + e)%Z
    /\ e1 = Z.min e e'.
Proof.
  intros m1 e1. unfold shl_align.
  destruct (e' - e)%Z as [|d|d] eqn:Ed; intros [= <- <-].
  - split; [reflexivity|]. split; lia.
  - split; [reflexivity|]. split; lia.
  - split; [|split].
    + unfold at_exp. rewrite iter_xO_value, inject_Z_mult.
      rewrite <- (pow2_Z (Zpos d)) by lia.
      replace e with (Zpos d + e')%Z by lia. rewrite (pow2_add (Zpos d)). ring.
    + rewrite iter_xO_digits. lia.
    + lia.
Qed.

Lemma binary_round_rounds (s : bool) (m : positive) (e : Z) :
  SpecFloat.valid_binary prec emax (binary_round prec emax s m e) = true
  /\ rounds (Fin (signed s (at_exp (Zpos m) e))) (SF2X (binary_round prec emax s m e)).
Proof.
  unfold binary_round.
  destruct (shl_align m e (fexp prec emax (Zpos (digits2_pos m) + e))) as [m1 e1] eqn:Ea.
  destruct (shl_align_spec _ _ _ _ _ Ea) as (Hv & Hd & He).
  apply BRA_rounds.
  - lia.
  - apply at_exp_pos.
  - simpl. rewrite <- Hv. apply at_exp_scaled.
  - simpl Zdigits2. rewrite Hd. lia.
Qed.

Lemma binary_normalize_rounds (m e : Z) :
  SpecFloat.valid_binary prec emax (binary_normalize prec emax m e false) = true
  /\ rounds (Fin (at_exp m e)) (SF2X (binary_normalize prec emax m e false)).
Proof.
  destruct m as [|p|p]; simpl binary_normalize.
  - split; [reflexivity|]. apply rounds_zero. unfold at_exp. change (inject_Z 0) with 0. ring.
  - exact (binary_round_rounds false p e).
  - destruct (binary_round_rounds true p e) as [Hv Hr]. split; [exact Hv|].
    apply (rounds_eq (Fin (signed true (at_exp (Zpos p) e)))); [|exact Hr].
    simpl. unfold at_exp. change (Zneg p) with (- Zpos p)%Z. rewrite inject_Z_opp. ring.
Qed.

Lemma at_exp_cond_Zopp (s : bool) (m e : Z) :
  at_exp (cond_Zopp s m) e == signed s (at_exp m e).
Proof.
  destruct s; simpl; [|reflexivity]. unfold at_exp. rewrite inject_Z_opp. ring.
Qed.

Lemma at_exp_plus (a b e : Z) : at_exp (a + b) e == at_exp a e + at_exp b e.
Proof. unfold at_exp. rewrite inject_Z_plus. ring. Qed.

Lemma SFadd_finite (sx sy : bool) (mx my : positive) (ex ey : Z) :
  rounds (Fin (signed sx (at_exp (Zpos mx) ex) + signed sy (at_exp (Zpos my) ey)))
         (SF2X (SFadd prec emax (S754_finite sx mx ex) (S754_finite sy my ey))).
Proof.
  unfold SFadd.
  destruct (shl_align mx ex (Z.min ex ey)) as [ax e1] eqn:Ex.
  destruct (shl_align my ey (Z.min ex ey)) as [ay e2] eqn:Ey.
  destruct (shl_align_spec _ _ _ _ _ Ex) as (Hvx & _ & He1).
  destruct (shl_align_spec _ _ _ _ _ Ey) as (Hvy & _ & He2).
  assert (E1 : e1 = Z.min ex ey) by lia. assert (E2 : e2 = Z.min ex ey) by lia.
  clear He1 He2. subst e1 e2.
  simpl fst.
  destruct (binary_normalize_rounds (cond_Zopp sx (Zpos ax) + cond_Zopp sy (Zpos ay))
              (Z.min ex ey)) as [_ Hr].
  apply (rounds_eq (Fin (at_exp (cond_Zopp sx (Zpos ax) + cond_Zopp sy (Zpos ay))
                                (Z.min ex ey)))); [|exact Hr].
  cbn [xeq]. rewrite at_exp_plus, !at_exp_cond_Zopp.
  rewrite (signed_eq sx _ _ Hvx), (signed_eq sy _ _ Hvy). reflexivity.
Qed.

Lemma SFadd_spec (x y : spec_float) :
  SpecFloat.valid_binary prec emax x = true -> SpecFloat.valid_binary prec emax y = true ->
  rounds (xadd (SF2X x) (SF2X y)) (SF2X (SFadd prec emax x y)).
Proof.
  intros Hx Hy.
  destruct x as [sx|sx| |sx mx ex], y as [sy|sy| |sy my ey]; try special_case SFadd.
  - apply (rounds_eq (SF2X (S754_finite sy my ey))); [|apply rounds_valid, Hy].
    simpl. ring.
  - apply (rounds_eq (SF2X (S754_finite sx mx ex))); [|apply rounds_valid, Hx].
    simpl. ring.
  - apply SFadd_finite.
Qed.

(** ** Primitive floats *)

Lemma B_mul (x y : float) : rounds (xmul (B2X x) (B2X y)) (B2X (x * y)).
Proof. unfold B2X. rewrite mul_spec. apply SFmul_spec; apply Prim2SF_valid. Qed.

Lemma B_add (x y : float) : rounds (xadd (B2X x) (B2X y)) (B2X (x + y)).
Proof. unfold B2X. rewrite add_spec. apply SFadd_spec; apply Prim2SF_valid. Qed.

Lemma B_div (x y : float) :
  Prim2SF y <> S754_zero true -> rounds (xdiv (B2X x) (B2X y)) (B2X (x / y)).
Proof. intros Hy. unfold B2X. rewrite div_spec. apply SFdiv_spec, Hy. Qed.

(** ** Order of values: the exact operations are monotone *)

Lemma xmul_mono (a b : xq) (c : Q) :
  0 < c -> xle a b -> xle (xmul a (Fin c)) (xmul b (Fin c)).
Proof.
  intros Hc. destruct a as [p| | |], b as [q| | |]; cbn [xle xmul]; try tauto;
    rewrite ?(inf_signed_pos _ _ Hc); cbn [xle]; try tauto.
  intros H. apply Qmult_le_compat_r; lra.
Qed.

Lemma xadd_mono (a a' : xq) (q q' : Q) :
  xle a a' -> q <= q' -> xle (xadd a (Fin q)) (xadd a' (Fin q')).
Proof.
  destruct a as [p| | |], a' as [p'| | |]; cbn [xle xadd]; try tauto. intros; lra.
Qed.

Lemma xdiv_mono (a b : xq) (c : Q) :
  0 < c -> xle a b -> xle (xdiv a (Fin c)) (xdiv b (Fin c)).
Proof.
  intros Hc.
  assert (Hb : Qle_bool 0 c = true) by (apply Qle_bool_iff; lra).
  destruct a as [p| | |], b as [q| | |]; cbn [xle xdiv]; try tauto;
    rewrite ?Hb, ?(cmp_gt c 0 Hc); cbn [xle]; try tauto.
  intros H. unfold Qdiv. apply Qmult_le_compat_r; [exact H|].
  apply Qlt_le_weak, Qinv_lt_0_compat, Hc.
Qed.

Lemma Qdiv_anti (c p q : Q) : 0 < c -> 0 < p -> p <= q -> c / q <= c / p.
Proof.
  intros Hc Hp Hpq.
  assert (Hq : 0 < q) by lra.
  apply Qle_shift_div_r; [exact Hq|].
  assert (E : c / p * q == c * (q / p)) by (field; lra).
  rewrite E.
  assert (1 <= q / p) by (apply Qle_shift_div_l; lra).
  nra.
Qed.

Lemma xdiv_anti (a b : xq) (c : Q) :
  0 < c -> xlt (Fin 0) a -> xle a b -> xle (xdiv (Fin c) b) (xdiv (Fin c) a).
Proof.
  intros Hc.
  destruct a as [p| | |], b as [q| | |]; cbn [xle xlt xdiv]; try tauto.
  - intros Hp Hpq.
    rewrite (cmp_gt p 0 Hp), (cmp_gt q 0) by lra. cbn [xle].
    apply Qdiv_anti; assumption.
  - intros Hp _. rewrite (cmp_gt p 0 Hp). cbn [xle].
    apply Qlt_le_weak, Qdiv_pos2; assumption.
  - intros _ _. apply Qle_refl.
Qed.

(** ** Order of doubles *)

Lemma leb_vle (x y : float) : PrimFloat.leb x y = true <-> vle x y.
Proof. rewrite B_leb. apply xle_bool_iff. Qed.

Lemma ltb_vlt (x y : float) : PrimFloat.ltb x y = true <-> xlt (B2X x) (B2X y).
Proof. rewrite B_ltb. apply xlt_bool_iff. Qed.

Lemma vle_trans (x y z : float) : vle x y -> vle y z -> vle x z.
Proof. apply xle_trans. Qed.

Lemma vle_not_nan_l (x y : float) : vle x y -> B2X x <> NaN.
Proof. unfold vle. intros H E. rewrite E in H. exact H. Qed.

Lemma vle_not_nan_r (x y : float) : vle x y -> B2X y <> NaN.
Proof. unfold vle. intros H E. rewrite E in H. destruct (B2X x); exact H. Qed.

Lemma vle_refl (x : float) : B2X x <> NaN -> vle x x.
Proof. apply xle_refl. Qed.

Lemma pos_finite_value (c : float) :
  is_pos_finite c = true -> exists q, B2X c = Fin q /\ 0 < q.
Proof.
  unfold is_pos_finite, B2X. destruct (Prim2SF c) as [s|s| |[|] m e]; try discriminate.
  intros _. exists (at_exp (Zpos m) e). split; [reflexivity | apply at_exp_pos].
Qed.

Lemma pos_finite_not_neg_zero (c : float) :
  is_pos_finite c = true -> Prim2SF c <> S754_zero true.
Proof. unfold is_pos_finite. intros H E. rewrite E in H. discriminate. Qed.

Lemma positive_not_neg_zero (x : float) :
  xlt (Fin 0) (B2X x) -> Prim2SF x <> S754_zero true.
Proof. unfold B2X. intros H E. rewrite E in H. simpl in H. lra. Qed.

Lemma mul_mono (a b c : float) :
  is_pos_finite c = true -> vle a b -> vle (a * c) (b * c).
Proof.
  intros Hc Hab. destruct (pos_finite_value c Hc) as (q & Eq & Hq).
  apply (rounds_mono (xmul (B2X a) (B2X c)) (xmul (B2X b) (B2X c))); [|apply B_mul..].
  rewrite Eq. apply xmul_mono; assumption.
Qed.

Lemma div_mono (a b c : float) :
  is_pos_finite c = true -> vle a b -> vle (a / c) (b / c).
Proof.
  intros Hc Hab. destruct (pos_finite_value c Hc) as (q & Eq & Hq).
  apply (rounds_mono (xdiv (B2X a) (B2X c)) (xdiv (B2X b) (B2X c)));
    [|apply B_div, pos_finite_not_neg_zero, Hc..].
  rewrite Eq. apply xdiv_mono; assumption.
Qed.

Lemma xlt_xle_trans (a b c : xq) : xlt a b -> xle b c -> xlt a c.
Proof. destruct a, b, c; simpl; try tauto. apply Qlt_le_trans. Qed.

Lemma div_anti (a b c : float) :
  is_pos_finite c = true -> xlt (Fin 0) (B2X a) -> vle a b -> vle (c / b) (c / a).
Proof.
  intros Hc Ha Hab. destruct (pos_finite_value c Hc) as (q & Eq & Hq).
  apply (rounds_mono (xdiv (B2X c) (B2X b)) (xdiv (B2X c) (B2X a))).
  - rewrite Eq. apply xdiv_anti; assumption.
  - apply B_div, positive_not_neg_zero. exact (xlt_xle_trans _ _ _ Ha Hab).
  - apply B_div, positive_not_neg_zero, Ha.
Qed.

(** A sum whose second terms are numbers. *)
Lemma add_mono (a a' b b' : float) (q q' : Q) :
  B2X b = Fin q -> B2X b' = Fin q' -> vle a a' -> vle b b' -> vle (a + b) (a' + b').
Proof.
  intros Eb Eb' Ha Hb.
  apply (rounds_mono (xadd (B2X a) (B2X b)) (xadd (B2X a') (B2X b'))); [|apply B_add..].
  unfold vle in Hb. rewrite Eb, Eb' in *. apply xadd_mono; assumption.
Qed.

(** A double between two numbers is a number. *)
Lemma between_finite (x lo hi : float) (p q : Q) :
  B2X lo = Fin p -> B2X hi = Fin q -> vle lo x -> vle x hi -> exists v, B2X x = Fin v.
Proof.
  unfold vle. intros -> ->. destruct (B2X x) as [v| | |]; simpl; try tauto.
  intros _ _. now exists v.
Qed.

End Rounding.

(** ** Hazard Scorer, in binary64 *)

Section Scorer.

Local Open Scope float_scope.

(** The literals of the scorer and of the summary, as doubles. *)
Lemma literals :
  Q2F 0 = 0 /\ Q2F 0.5 = 0.5 /\ Q2F 1 = 1 /\ Q2F 1000000 = 1000000
  /\ Q2F 0.7 = 0.7 /\ Q2F 0.3 = 0.3 /\ Q2F 100 = 100 /\ Q2F 70 = 70 /\ Q2F 40 = 40.
Proof. repeat split; vm_compute; reflexivity. Qed.

Lemma size_factor_eq (r : FlatRecord float) :
  size_factor r = pymin (avg_diameter_km r / 0.5) 1.
Proof.
  destruct literals as (_ & E05 & E1 & _).
  unfold size_factor. cbn [of_Q fdiv binary64]. now rewrite E05, E1.
Qed.

Lemma distance_factor_eq (r : FlatRecord float) :
  distance_factor r = pymin (1000000 / miss_distance_km r) 1.
Proof.
  destruct literals as (_ & _ & E1 & EM & _).
  unfold distance_factor. cbn [of_Q fdiv binary64]. now rewrite EM, E1.
Qed.

Lemma hazard_level_eq (r : FlatRecord float) :
  is_hazardous r = true ->
  hazard_level r = (size_factor r * 0.7 + distance_factor r * 0.3) * 100.
Proof.
  destruct literals as (_ & _ & _ & _ & E07 & E03 & E100 & _).
  intros Hh. unfold hazard_level. rewrite Hh. cbn [of_Q fadd fmul binary64].
  now rewrite E07, E03, E100.
Qed.

Lemma pymin_eq (a b : float) : pymin a b = if b <? a then b else a.
Proof. reflexivity. Qed.

(** Two values that are numbers or infinities are comparable. *)
Lemma xle_total (a b : xq) : a <> NaN -> b <> NaN -> ~ xlt b a -> xle a b.
Proof.
  destruct a as [p| | |], b as [q| | |]; simpl; try tauto.
  intros _ _ H. destruct (Qlt_le_dec q p); tauto.
Qed.

Lemma xlt_xle (a b : xq) : xlt a b -> xle a b.
Proof. destruct a, b; simpl; try tauto. apply Qlt_le_weak. Qed.

Lemma ltb_false (x y : float) :
  B2X x <> NaN -> B2X y <> NaN -> (x <? y) = false -> vle y x.
Proof.
  intros Hx Hy Hb. apply xle_total; try assumption.
  intros Hlt. apply ltb_vlt in Hlt. congruence.
Qed.

Lemma pymin_mono (a a' b : float) :
  B2X b <> NaN -> vle a a' -> vle (pymin a b) (pymin a' b).
Proof.
  intros Hb Ha. rewrite !pymin_eq.
  pose proof (vle_not_nan_l _ _ Ha) as Hn. pose proof (vle_not_nan_r _ _ Ha) as Hn'.
  destruct (b <? a) eqn:E, (b <? a') eqn:E'.
  - apply vle_refl, Hb.
  - apply ltb_vlt in E. apply (ltb_false _ _ Hb Hn') in E'.
    exfalso. pose proof (xlt_xle_trans _ _ _ E Ha) as H1.
    unfold vle in E'. clear - H1 E'.
    destruct (B2X b) as [p| | |], (B2X a') as [q| | |]; simpl in *; try tauto.
    apply (Qlt_irrefl p). apply Qlt_le_trans with q; assumption.
  - apply (ltb_false _ _ Hb Hn) in E. exact E.
  - exact Ha.
Qed.

Lemma pymin_le (a b : float) : B2X a <> NaN -> B2X b <> NaN -> vle (pymin a b) b.
Proof.
  intros Ha Hb. rewrite pymin_eq. destruct (b <? a) eqn:E.
  - apply vle_refl, Hb.
  - exact (ltb_false _ _ Hb Ha E).
Qed.

Lemma pymin_ge (lo a b : float) : vle lo a -> vle lo b -> vle lo (pymin a b).
Proof. intros Ha Hb. rewrite pymin_eq. destruct (b <? a); assumption. Qed.

Lemma leb_true_vle (x y : float) : (x <=? y) = true -> vle x y.
Proof. apply leb_vle. Qed.

Lemma eqb_veq (x y : float) : (x =? y) = true -> xeq (B2X x) (B2X y).
Proof.
  rewrite FloatAxioms.eqb_spec. unfold SFeqb, B2X.
  pose proof (SFcompare_spec _ _ (Prim2SF_valid x) (Prim2SF_valid y)) as H.
  destruct (SFcompare (Prim2SF x) (Prim2SF y)) as [[ | | ]|]; try discriminate.
  intros _. exact H.
Qed.

Lemma B2X_one : B2X 1 <> NaN /\ xeq (B2X 1) (Fin 1).
Proof. split; [vm_compute; discriminate | vm_compute; reflexivity]. Qed.

Lemma B2X_zero : B2X 0 = Fin 0.
Proof. vm_compute. reflexivity. Qed.

Lemma B2X_infinity : B2X infinity = PInf.
Proof. vm_compute. reflexivity. Qed.

Lemma vle_infinity (x : float) : B2X x <> NaN -> vle x infinity.
Proof. unfold vle. rewrite B2X_infinity. destruct (B2X x); simpl; tauto. Qed.

Lemma positive_value (x : float) : (0 <? x) = true -> xlt (Fin 0) (B2X x).
Proof. intros H. apply ltb_vlt in H. now rewrite B2X_zero in H. Qed.

Lemma xlt_not_nan_r (a b : xq) : xlt a b -> b <> NaN.
Proof. intros H ->. destruct a; exact H. Qed.

(** The size factor lies in the unit interval for a diameter that is not
    negative, and grows with the diameter. *)
Lemma size_factor_mono (r1 r2 : FlatRecord float) :
  vle (avg_diameter_km r1) (avg_diameter_km r2) -> vle (size_factor r1) (size_factor r2).
Proof.
  intros H. rewrite !size_factor_eq.
  apply pymin_mono; [apply B2X_one|]. apply div_mono; [reflexivity | exact H].
Qed.

Lemma size_factor_unit (r : FlatRecord float) :
  vle 0 (avg_diameter_km r) -> vle 0 (size_factor r) /\ vle (size_factor r) 1.
Proof.
  intros H. rewrite size_factor_eq.
  assert (Hd : vle 0 (avg_diameter_km r / 0.5)).
  { assert (E : 0 / 0.5 = 0) by (vm_compute; reflexivity).
    rewrite <- E at 1. apply div_mono; [reflexivity | exact H]. }
  split.
  - apply pymin_ge; [exact Hd | apply leb_true_vle; reflexivity].
  - apply pymin_le; [exact (vle_not_nan_r _ _ Hd) | apply B2X_one].
Qed.

(** The distance factor lies in the unit interval at a positive distance,
    and falls as the distance grows. *)
Lemma distance_factor_anti (r1 r2 : FlatRecord float) :
  xlt (Fin 0) (B2X (miss_distance_km r1)) ->
  vle (miss_distance_km r1) (miss_distance_km r2) ->
  vle (distance_factor r2) (distance_factor r1).
Proof.
  intros Hpos H. rewrite !distance_factor_eq.
  apply pymin_mono; [apply B2X_one|]. apply div_anti; [reflexivity | exact Hpos | exact H].
Qed.

Lemma distance_factor_unit (r : FlatRecord float) :
  xlt (Fin 0) (B2X (miss_distance_km r)) ->
  vle 0 (distance_factor r) /\ vle (distance_factor r) 1.
Proof.
  intros Hpos. rewrite distance_factor_eq.
  assert (Hd : vle 0 (1000000 / miss_distance_km r)).
  { assert (E : 1000000 / infinity = 0) by (vm_compute; reflexivity).
    rewrite <- E at 1. apply div_anti; [reflexivity | exact Hpos|].
    apply vle_infinity. exact (xlt_not_nan_r _ _ Hpos). }
  split.
  - apply pymin_ge; [exact Hd | apply leb_true_vle; reflexivity].
  - apply pymin_le; [exact (vle_not_nan_r _ _ Hd) | apply B2X_one].
Qed.

(** The weighted sum grows with both factors. *)
Lemma weighted_sum_mono (s s' d d' : float) :
  vle s s' -> vle d d' -> vle 0 d -> vle d' 1 ->
  vle ((s * 0.7 + d * 0.3) * 100) ((s' * 0.7 + d' * 0.3) * 100).
Proof.
  intros Hs Hd H0 H1.
  assert (Ht : vle (s * 0.7) (s' * 0.7)) by (apply mul_mono; [reflexivity | exact Hs]).
  assert (Hu : vle (d * 0.3) (d' * 0.3)) by (apply mul_mono; [reflexivity | exact Hd]).
  assert (Hlo : vle (0 * 0.3) (d * 0.3)) by (apply mul_mono; [reflexivity | exact H0]).
  assert (Hhi : vle (d' * 0.3) (1 * 0.3)) by (apply mul_mono; [reflexivity | exact H1]).
  assert (Elo : B2X (0 * 0.3) = Fin 0) by (vm_compute; reflexivity).
  assert (Ehi : exists q, B2X (1 * 0.3) = Fin q) by (eexists; vm_compute; reflexivity).
  destruct Ehi as [qhi Ehi].
  destruct (between_finite (d * 0.3) _ _ _ _ Elo Ehi Hlo (vle_trans _ _ _ Hu Hhi)) as [u Eu].
  destruct (between_finite (d' * 0.3) _ _ _ _ Elo Ehi (vle_trans _ _ _ Hlo Hu) Hhi)
    as [u' Eu'].
  apply mul_mono; [reflexivity|].
  exact (add_mono _ _ _ _ _ _ Eu Eu' Ht Hu).
Qed.

Lemma veq_vle (x y : float) : xeq (B2X x) (B2X y) -> vle x y /\ vle y x.
Proof. intros E. split; [apply xeq_xle_l | apply xeq_xle_r]; exact E. Qed.

(** The hazard level of a hazardous row grows with the diameter, the
    distance being the same, and falls as the distance grows, the diameter
    being the same; the order is that of values. *)
Lemma hazard_level_grows (r1 r2 : FlatRecord float) :
  is_hazardous r1 = true -> is_hazardous r2 = true ->
  xlt (Fin 0) (B2X (miss_distance_km r1)) ->
  xeq (B2X (miss_distance_km r1)) (B2X (miss_distance_km r2)) ->
  vle (avg_diameter_km r1) (avg_diameter_km r2) ->
  vle (hazard_level r1) (hazard_level r2).
Proof.
  intros Hh1 Hh2 Hpos Emiss Havg.
  rewrite (hazard_level_eq r1 Hh1), (hazard_level_eq r2 Hh2).
  destruct (distance_factor_unit r1 Hpos) as [Hd1lo Hd1hi].
  apply veq_vle in Emiss. destruct Emiss as [Hle Hge].
  assert (Hpos2 : xlt (Fin 0) (B2X (miss_distance_km r2)))
    by exact (xlt_xle_trans _ _ _ Hpos Hle).
  destruct (distance_factor_unit r2 Hpos2) as [Hd2lo Hd2hi].
  apply weighted_sum_mono; try assumption.
  - apply size_factor_mono, Havg.
  - exact (distance_factor_anti r2 r1 Hpos2 Hge).
Qed.

Lemma hazard_level_falls (r1 r2 : FlatRecord float) :
  is_hazardous r1 = true -> is_hazardous r2 = true ->
  xlt (Fin 0) (B2X (miss_distance_km r1)) ->
  xeq (B2X (avg_diameter_km r1)) (B2X (avg_diameter_km r2)) ->
  vle (miss_distance_km r1) (miss_distance_km r2) ->
  vle (hazard_level r2) (hazard_level r1).
Proof.
  intros Hh1 Hh2 Hpos Eavg Hmiss.
  rewrite (hazard_level_eq r1 Hh1), (hazard_level_eq r2 Hh2).
  destruct (distance_factor_unit r1 Hpos) as [Hd1lo Hd1hi].
  apply veq_vle in Eavg. destruct Eavg as [Hle Hge].
  assert (Hpos2 : xlt (Fin 0) (B2X (miss_distance_km r2)))
    by exact (xlt_xle_trans _ _ _ Hpos Hmiss).
  destruct (distance_factor_unit r2 Hpos2) as [Hd2lo Hd2hi].
  apply weighted_sum_mono; try assumption.
  - apply size_factor_mono, Hge.
  - exact (distance_factor_anti r1 r2 Hpos Hmiss).
Qed.

(** C10.  For two hazardous rows, the first at a positive miss distance, in
    the arithmetic of the code: if they are at the same miss distance and the
    second is at least as large, its hazard level is at least that of the
    first; if they have the same average diameter and the second is at least
    as far, its hazard level is at most that of the first.  The comparisons
    are those of float64 ([==], [<=], [<]), so neither number is NaN. *)
Theorem hazard_level_monotone (r1 r2 : FlatRecord float) :
  is_hazardous r1 = true -> is_hazardous r2 = true ->
  (0 <? miss_distance_km r1) = true ->
  ((miss_distance_km r1 =? miss_distance_km r2) = true ->
   (avg_diameter_km r1 <=? avg_diameter_km r2) = true ->
   (hazard_level r1 <=? hazard_level r2) = true)
  /\ ((avg_diameter_km r1 =? avg_diameter_km r2) = true ->
      (miss_distance_km r1 <=? miss_distance_km r2) = true ->
      (hazard_level r2 <=? hazard_level r1) = true).
Proof.
  intros Hh1 Hh2 Hpos. apply positive_value in Hpos. split.
  - intros Emiss Havg. apply leb_vle.
    apply (hazard_level_grows r1 r2 Hh1 Hh2 Hpos);
      [apply eqb_veq, Emiss | apply leb_true_vle, Havg].
  - intros Eavg Hmiss. apply leb_vle.
    apply (hazard_level_falls r1 r2 Hh1 Hh2 Hpos);
      [apply eqb_veq, Eavg | apply leb_true_vle, Hmiss].
Qed.

Lemma hazard_level_monotone_witness :
  (hazard_level (sample true 0.1 2000000) <=? hazard_level (sample true 0.2 2000000)) = true
  /\ (hazard_level (sample true 0.2 4000000) <=? hazard_level (sample true 0.2 2000000)) = true.
Proof.
  split.
  - assert (H1 : is_hazardous (sample true 0.1 2000000) = true) by reflexivity.
    assert (H2 : is_hazardous (sample true 0.2 2000000) = true) by reflexivity.
    assert (H3 : (0 <? miss_distance_km (sample true 0.1 2000000)) = true) by reflexivity.
    assert (H4 : (miss_distance_km (sample true 0.1 2000000)
                  =? miss_distance_km (sample true 0.2 2000000)) = true) by reflexivity.
    assert (H5 : (avg_diameter_km (sample true 0.1 2000000)
                  <=? avg_diameter_km (sample true 0.2 2000000)) = true) by reflexivity.
    exact (proj1 (hazard_level_monotone _ _ H1 H2 H3) H4 H5).
  - assert (H1 : is_hazardous (sample true 0.2 2000000) = true) by reflexivity.
    assert (H2 : is_hazardous (sample true 0.2 4000000) = true) by reflexivity.
    assert (H3 : (0 <? miss_distance_km (sample true 0.2 2000000)) = true) by reflexivity.
    assert (H4 : (avg_diameter_km (sample true 0.2 2000000)
                  =? avg_diameter_km (sample true 0.2 4000000)) = true) by reflexivity.
    assert (H5 : (miss_distance_km (sample true 0.2 2000000)
                  <=? miss_distance_km (sample true 0.2 4000000)) = true) by reflexivity.
    exact (proj2 (hazard_level_monotone _ _ H1 H2 H3) H4 H5).
Defined.

(** *** The integer part of a double *)

Lemma shiftl_floor (m : positive) (e : Z) :
  (inject_Z (Z.shiftl (Zpos m) e) <= at_exp (Zpos m) e
   /\ at_exp (Zpos m) e < inject_Z (Z.shiftl (Zpos m) e) + 1)%Q.
Proof.
  unfold at_exp. destruct (Z_le_gt_dec 0 e) as [He|He].
  - rewrite Z.shiftl_mul_pow2 by lia. rewrite inject_Z_mult, (pow2_Z e) by lia.
    split; lra.
  - rewrite Z.shiftl_div_pow2 by lia.
    set (d := (2 ^ (- e))%Z).
    assert (Hd : (0 < d)%Z) by (subst d; apply Z.pow_pos_nonneg; lia).
    pose proof (Z_div_mod (Zpos m) d ltac:(lia)) as Hdm.
    unfold Z.div. destruct (Z.div_eucl (Zpos m) d) as [q r]. destruct Hdm as [Hm Hr].
    assert (Ep : (pow2 e == / inject_Z d)%Q).
    { replace e with (- - e)%Z by lia. unfold pow2. rewrite Qpower_opp.
      fold (pow2 (- e)). rewrite (pow2_Z (- e)) by lia. reflexivity. }
    assert (Hdq : (0 < inject_Z d)%Q).
    { change 0%Q with (inject_Z 0). rewrite <- Zlt_Qlt. exact Hd. }
    rewrite Ep, Hm, inject_Z_plus, inject_Z_mult.
    assert (Hr0 : (0 <= inject_Z r)%Q).
    { change 0%Q with (inject_Z 0). rewrite <- Zle_Qle. lia. }
    assert (Hr1 : (inject_Z r < inject_Z d)%Q) by (rewrite <- Zlt_Qlt; lia).
    assert (E : ((inject_Z d * inject_Z q + inject_Z r) * / inject_Z d
                 == inject_Z q + inject_Z r / inject_Z d)%Q) by (field; lra).
    rewrite E.
    assert (H0 : (0 <= inject_Z r / inject_Z d)%Q) by (apply Qle_shift_div_l; lra).
    assert (H1 : (inject_Z r / inject_Z d < 1)%Q) by (apply Qlt_shift_div_r; lra).
    split; lra.
Qed.

(** [int(x)] returns on a number between two integers that are not negative,
    with an integer between them. *)
Lemma float_to_int_between (x : float) (lo hi : Z) :
  (0 <= lo)%Z ->
  xle (Fin (inject_Z lo)) (B2X x) -> xle (B2X x) (Fin (inject_Z hi)) ->
  exists n, float_to_int x = Ret n /\ (lo <= n <= hi)%Z.
Proof.
  intros Hlo. unfold float_to_int, B2X.
  destruct (Prim2SF x) as [s|s| |s m e]; cbn [SF2X xle].
  - intros H1 H2. exists 0%Z. split; [reflexivity|].
    change 0%Q with (inject_Z 0) in H1, H2. rewrite <- Zle_Qle in H1, H2. lia.
  - destruct s; simpl; tauto.
  - tauto.
  - pose proof (at_exp_pos m e) as Hp. pose proof (shiftl_floor m e) as [Hf1 Hf2].
    destruct s; intros H1 H2.
    + exfalso. assert (H0 : (inject_Z 0 <= inject_Z lo)%Q) by (rewrite <- Zle_Qle; exact Hlo).
      change (inject_Z 0) with 0%Q in H0. lra.
    + eexists. split; [reflexivity|]. cbn [cond_Zopp].
      set (n := Z.shiftl (Zpos m) e) in *.
      split.
      * assert (H : (inject_Z lo < inject_Z (n + 1))%Q).
        { rewrite inject_Z_plus. change (inject_Z 1) with 1%Q. lra. }
        rewrite <- Zlt_Qlt in H. lia.
      * rewrite Zle_Qle. lra.
Qed.

(** A score between two integers of the range of the progress bar is
    displayed: the bar gets an integer between them, and the Context message
    follows. *)
Lemma hazard_display_between (r : FlatRecord float) (lo hi : Z) :
  (0 <= lo)%Z -> (hi <= 100)%Z ->
  xle (Fin (inject_Z lo)) (B2X (hazard_level r)) ->
  xle (B2X (hazard_level r)) (Fin (inject_Z hi)) ->
  exists n, hazard_display r = Ret (n, hazard_tier r) /\ (lo <= n <= hi)%Z.
Proof.
  intros Hlo Hhi H1 H2.
  destruct (float_to_int_between (hazard_level r) lo hi Hlo H1 H2) as (n & En & Hn).
  exists n. split; [|exact Hn].
  unfold hazard_display, progress_value, st_progress. cbn [to_int binary64].
  rewrite En. cbn [bind].
  assert (Hb : ((0 <=? n) && (n <=? 100))%Z = true).
  { apply andb_true_intro. split; apply Z.leb_le; lia. }
  rewrite Hb. reflexivity.
Qed.



(** At the positive zero the division gives infinity and the factor is 1. *)
Lemma distance_factor_at_zero (r : FlatRecord float) :
  miss_distance_km r = 0 -> distance_factor r = 1.
Proof. intros E. rewrite distance_factor_eq, E. vm_compute. reflexivity. Qed.





(** What the page does with scores outside the range: the progress bar
    refuses the integer -109, and [int()] refuses NaN and the infinities. *)
Example hazard_display_refuses :
  hazard_display (sample true (-1) 1000000) = Raise StreamlitAPIException
  /\ hazard_display (sample true nan 500000) = Raise ValueError
  /\ hazard_display (sample true 0.2 nan) = Raise ValueError
  /\ hazard_display (sample true neg_infinity 500000) = Raise OverflowError
  /\ hazard_display (sample true 0.2 (-0)) = Raise OverflowError.
Proof. repeat split; vm_compute; reflexivity. Qed.

(** *** Equal values *)

Lemma SFcompare_Eq_finite (s s' : bool) (m m' : positive) (e e' : Z) :
  SFcompare (S754_finite s m e) (S754_finite s' m' e') = Some Eq ->
  S754_finite s m e = S754_finite s' m' e'.
Proof.
  unfold SFcompare. change (Pos.compare_cont Eq m m') with (Pos.compare m m').
  destruct s, s'; try discriminate;
    destruct (Z.compare_spec e e') as [E|L|G]; try discriminate;
    destruct (Pos.compare_spec m m') as [Em|Lm|Gm]; try discriminate;
    intros _; now subst.
Qed.

(** The only double of value 1 is [1.0]. *)
Lemma value_one (x : float) : xeq (B2X x) (Fin 1) -> x = 1.
Proof.
  intros Hx. apply Prim2SF_inj.
  destruct B2X_one as [_ H1].
  assert (E : xeq (B2X x) (B2X 1)) by exact (xeq_trans _ _ _ Hx (xeq_sym _ _ H1)).
  unfold B2X in E.
  pose proof (SFcompare_spec _ _ (Prim2SF_valid x) (Prim2SF_valid 1)) as Hc.
  assert (Hcmp : SFcompare (Prim2SF x) (Prim2SF 1) = Some Eq).
  { destruct (SFcompare (Prim2SF x) (Prim2SF 1)) as [[ | | ]|]; [reflexivity|exfalso..].
    - clear - E Hc. destruct (SF2X (Prim2SF x)), (SF2X (Prim2SF 1)); simpl in *; try tauto.
      rewrite E in Hc. exact (Qlt_irrefl _ Hc).
    - clear - E Hc. destruct (SF2X (Prim2SF x)), (SF2X (Prim2SF 1)); simpl in *; try tauto.
      rewrite E in Hc. exact (Qlt_irrefl _ Hc).
    - clear - E Hc. destruct Hc as [Hc|Hc]; rewrite Hc in E;
        [exact E | destruct (SF2X (Prim2SF x)); exact E]. }
  assert (Eone : Prim2SF 1 = S754_finite false 4503599627370496 (-52))
    by (vm_compute; reflexivity).
  rewrite Eone in *.
  destruct (Prim2SF x) as [s|s| |s m e]; try (destruct s; discriminate); try discriminate.
  apply SFcompare_Eq_finite, Hcmp.
Qed.

(** The clamp: a factor of value 1 or more becomes exactly 1.0. *)
Lemma pymin_above (a : float) : vle 1 a -> pymin a 1 = 1.
Proof.
  intros Hge. rewrite pymin_eq.
  destruct (1 <? a) eqn:Hlt; [reflexivity|].
  apply value_one. apply xle_antisym.
  - apply (ltb_false _ _ (proj1 B2X_one) (vle_not_nan_r _ _ Hge)) in Hlt.
    exact (xle_trans _ _ _ Hlt (xeq_xle_l _ _ (proj2 B2X_one))).
  - exact (xle_trans _ _ _ (xeq_xle_r _ _ (proj2 B2X_one)) Hge).
Qed.

(** At every positive distance up to a million kilometres the distance
    factor is exactly 1. *)
Lemma distance_factor_near (r : FlatRecord float) :
  (0 <? miss_distance_km r) = true -> (miss_distance_km r <=? 1000000) = true ->
  distance_factor r = 1.
Proof.
  intros Hpos Hle. apply positive_value in Hpos. apply leb_true_vle in Hle.
  rewrite distance_factor_eq. apply pymin_above.
  assert (E : 1000000 / 1000000 = 1) by (vm_compute; reflexivity).
  rewrite <- E at 1. apply div_anti; [reflexivity | exact Hpos | exact Hle].
Qed.

(** C2, as amended.  For every hazardous row whose miss distance is the
    positive zero, in the arithmetic of the code: the division gives
    infinity, with no exception; the distance factor is 1.0, which is also its
    value at every positive distance up to 1000000 km; the hazard level is the
    score with that factor; and when the average diameter is a number that is
    not negative, the progress bar gets an integer from 30 to 100 and the
    Context message is shown. *)
Theorem zero_miss_distance (r : FlatRecord float) :
  is_hazardous r = true -> miss_distance_km r = 0 ->
  fdiv (of_Q 1000000) (miss_distance_km r) = infinity
  /\ distance_factor r = 1
  /\ (forall miss : float,
        (0 <? miss) = true -> (miss <=? 1000000) = true ->
        distance_factor (with_miss_distance_km r miss) = distance_factor r)
  /\ hazard_level r = (size_factor r * 0.7 + 1 * 0.3) * 100
  /\ ((0 <=? avg_diameter_km r) = true ->
      exists n, hazard_display r = Ret (n, hazard_tier r) /\ (30 <= n <= 100)%Z).
Proof.
  intros Hh Hmiss.
  pose proof (distance_factor_at_zero r Hmiss) as Hd.
  assert (Hl : hazard_level r = (size_factor r * 0.7 + 1 * 0.3) * 100)
    by (rewrite (hazard_level_eq r Hh), Hd; reflexivity).
  split; [|split; [|split; [|split]]].
  - rewrite Hmiss. vm_compute. reflexivity.
  - exact Hd.
  - intros miss Hpos Hle. rewrite Hd. apply distance_factor_near; assumption.
  - exact Hl.
  - intros Havg. apply leb_true_vle in Havg.
    destruct (size_factor_unit r Havg) as [Hs0 Hs1].
    assert (H11 : vle 1 1) by (apply leb_true_vle; reflexivity).
    assert (H01 : vle 0 1) by (apply leb_true_vle; reflexivity).
    pose proof (weighted_sum_mono 0 (size_factor r) 1 1 Hs0 H11 H01 H11) as Hlo.
    pose proof (weighted_sum_mono (size_factor r) 1 1 1 Hs1 H11 H01 H11) as Hhi.
    rewrite <- Hl in Hlo, Hhi.
    assert (E30 : xle (Fin (inject_Z 30)) (B2X ((0 * 0.7 + 1 * 0.3) * 100)))
      by (apply xle_bool_iff; vm_compute; reflexivity).
    assert (E100 : xle (B2X ((1 * 0.7 + 1 * 0.3) * 100)) (Fin (inject_Z 100)))
      by (apply xle_bool_iff; vm_compute; reflexivity).
    exact (hazard_display_between r 30 100 ltac:(lia) ltac:(lia)
             (xle_trans _ _ _ E30 Hlo) (xle_trans _ _ _ Hhi E100)).
Qed.

Lemma zero_miss_distance_witness :
  distance_factor (sample true 0.2 0) = 1
  /\ hazard_level (sample true 0.2 0) = 57.99999999999999
  /\ exists n, hazard_display (sample true 0.2 0) = Ret (n, hazard_tier (sample true 0.2 0))
               /\ (30 <= n <= 100)%Z.
Proof.
  assert (Hh : is_hazardous (sample true 0.2 0) = true) by reflexivity.
  assert (Hm : miss_distance_km (sample true 0.2 0) = 0) by reflexivity.
  assert (Ha : (0 <=? avg_diameter_km (sample true 0.2 0)) = true) by reflexivity.
  destruct (zero_miss_distance (sample true 0.2 0) Hh Hm) as [_ [Hd [_ [Hl Hp]]]].
  split; [exact Hd|]. split; [rewrite Hl; vm_compute; reflexivity | exact (Hp Ha)].
Defined.

(** C2 fails at the negative zero.  The feed text [-0] for the miss
    distance is read by [float()] as -0.0, which is equal to 0 for the
    program; the division then gives minus infinity, the distance factor is
    minus infinity and not 1.0, the hazard level is minus infinity, and
    [int()] on line 160 raises [OverflowError]. *)
Lemma negative_zero_miss_distance :
  exists r : FlatRecord float,
    frame (feed_of [rock_at "-0"]) = Ret [r]
    /\ is_hazardous r = true
    /\ (miss_distance_km r =? 0) = true
    /\ fdiv (of_Q 1000000) (miss_distance_km r) = neg_infinity
    /\ distance_factor r = neg_infinity
    /\ distance_factor r <> 1
    /\ hazard_level r = neg_infinity
    /\ hazard_display r = Raise OverflowError.
Proof.
  eexists. split; [vm_compute; reflexivity|].
  repeat split; try (vm_compute; reflexivity).
  intros E. assert (Hb : (1 =? 1) = true) by (vm_compute; reflexivity).
  rewrite <- E in Hb at 1. vm_compute in Hb. discriminate.
Qed.

End Scorer.

(** ** Metric Deriver, in binary64 *)

Section Deriver.

Local Open Scope float_scope.

(** [Q2F] rounds correctly. *)
Lemma B_Q2F (q : Q) : rounds (Fin q) (B2X (Q2F q)).
Proof.
  destruct q as [n d]. unfold Q2F. cbn [Qnum Qden].
  destruct n as [|n|n].
  - left. split; [reflexivity | vm_compute; reflexivity].
  - destruct (SFdiv_finite false false n d 0 0) as [Hv Hr].
    unfold B2X. rewrite (Prim2SF_SF2Prim _ Hv).
    apply (rounds_eq (Fin (signed (xorb false false) (at_exp (Zpos n) 0 / at_exp (Zpos d) 0))));
      [|exact Hr].
    cbn [xeq xorb signed]. unfold at_exp. rewrite (Qmake_Qdiv (Zpos n) d).
    change (pow2 0) with 1%Q. field.
    intros E. assert (H : (0 < inject_Z (Zpos d))%Q) by reflexivity. lra.
  - destruct (SFdiv_finite true false n d 0 0) as [Hv Hr].
    unfold B2X. rewrite (Prim2SF_SF2Prim _ Hv).
    apply (rounds_eq (Fin (signed (xorb true false) (at_exp (Zpos n) 0 / at_exp (Zpos d) 0))));
      [|exact Hr].
    cbn [xeq xorb signed]. unfold at_exp. rewrite (Qmake_Qdiv (Zneg n) d).
    change (pow2 0) with 1%Q. change (Zneg n) with (- Zpos n)%Z. rewrite inject_Z_opp.
    field.
    intros E. assert (H : (0 < inject_Z (Zpos d))%Q) by reflexivity. lra.
Qed.

Lemma Q2F_mono (p q : Q) : (p <= q)%Q -> vle (Q2F p) (Q2F q).
Proof. intros H. exact (rounds_mono (Fin p) (Fin q) _ _ H (B_Q2F p) (B_Q2F q)). Qed.

(** A count of rows is a positive finite double. *)
Lemma of_nat_pos_finite (n : nat) :
  (0 < n)%nat -> (Z.of_nat n < 2 ^ 63)%Z -> is_pos_finite (of_nat (F := float) n) = true.
Proof.
  intros Hn Hlt. unfold of_nat. cbn [of_Q binary64].
  assert (H1 : vle (Q2F 1) (Q2F (inject_Z (Z.of_nat n)))).
  { apply Q2F_mono. change 1%Q with (inject_Z 1). rewrite <- Zle_Qle. lia. }
  assert (H2 : vle (Q2F (inject_Z (Z.of_nat n))) (Q2F (inject_Z (2 ^ 63)))).
  { apply Q2F_mono. rewrite <- Zle_Qle. lia. }
  assert (E1 : B2X (Q2F 1) = Fin (at_exp 4503599627370496 (-52))) by (vm_compute; reflexivity).
  assert (E2 : exists v, B2X (Q2F (inject_Z (2 ^ 63))) = Fin v)
    by (eexists; vm_compute; reflexivity).
  destruct E2 as [v E2].
  unfold vle in H1, H2. rewrite E1 in H1. rewrite E2 in H2. clear E1 E2.
  unfold is_pos_finite. unfold B2X in H1, H2.
  destruct (Prim2SF (Q2F (inject_Z (Z.of_nat n)))) as [s|s| |s m e]; cbn [SF2X] in H1, H2.
  - exfalso. revert H1. apply Qlt_not_le. reflexivity.
  - destruct s; simpl in H1, H2; tauto.
  - simpl in H1. tauto.
  - destruct s; [|reflexivity]. exfalso.
    pose proof (at_exp_pos m e) as Hp. simpl in H1.
    assert (H0 : (0 < at_exp 4503599627370496 (-52))%Q) by reflexivity. lra.
Qed.

Lemma rounds_zero_inv (q : Q) (r : xq) : (q == 0)%Q -> rounds (Fin q) r -> xeq r (Fin 0).
Proof. intros E [[_ H]|[[H _]|[H _]]]; [exact H | lra | lra]. Qed.

(** A positive finite double divided by itself is 1.0, and 0.0 divided by
    it has the value 0. *)
Lemma div_self (x : float) : is_pos_finite x = true -> xeq (B2X (x / x)) (Fin 1).
Proof.
  intros Hx. destruct (pos_finite_value x Hx) as (q & Eq & Hq).
  pose proof (B_div x x (pos_finite_not_neg_zero x Hx)) as Hr.
  rewrite Eq in Hr. rewrite xdiv_fin in Hr by lra.
  destruct B2X_one as [Hn H1].
  assert (R1 : rounds (Fin 1) (B2X 1)).
  { apply (rounds_eq (B2X 1)); [exact H1|]. apply rounds_valid, Prim2SF_valid. }
  assert (Hr' : rounds (Fin 1) (B2X (x / x))).
  { apply (rounds_eq (Fin (q / q))); [|exact Hr]. simpl. field. lra. }
  apply xeq_trans with (B2X 1); [|exact H1].
  apply (rounds_fun (Fin 1)); [discriminate | exact Hr' | exact R1].
Qed.

Lemma zero_div (x : float) : is_pos_finite x = true -> xeq (B2X (0 / x)) (Fin 0).
Proof.
  intros Hx. destruct (pos_finite_value x Hx) as (q & Eq & Hq).
  pose proof (B_div 0 x (pos_finite_not_neg_zero x Hx)) as Hr.
  rewrite Eq, B2X_zero in Hr. rewrite xdiv_fin in Hr by lra.
  apply (rounds_zero_inv (0 / q)); [field; lra | exact Hr].
Qed.

(** The percentage of a part of a whole lies between 0 and 100. *)
Lemma percentage_bounds (c n : nat) :
  (c <= n)%nat -> (0 < n)%nat -> (Z.of_nat n < 2 ^ 63)%Z ->
  vle 0 (of_nat c / of_nat n * 100) /\ vle (of_nat c / of_nat n * 100) 100.
Proof.
  intros Hcn Hn Hlt.
  pose proof (of_nat_pos_finite n Hn Hlt) as Hpos.
  assert (Hc0 : vle 0 (of_nat c)).
  { assert (E : Q2F 0 = 0) by (vm_compute; reflexivity).
    rewrite <- E. unfold of_nat. cbn [of_Q binary64]. apply Q2F_mono.
    change 0%Q with (inject_Z 0). rewrite <- Zle_Qle. lia. }
  assert (Hc1 : vle (of_nat c) (of_nat n)).
  { unfold of_nat. cbn [of_Q binary64]. apply Q2F_mono. rewrite <- Zle_Qle. lia. }
  pose proof (div_mono _ _ _ Hpos Hc0) as Hlo.
  pose proof (div_mono _ _ _ Hpos Hc1) as Hhi.
  assert (Hr0 : vle 0 (of_nat c / of_nat n)).
  { unfold vle. rewrite B2X_zero.
    exact (xle_trans _ _ _ (xeq_xle_r _ _ (zero_div _ Hpos)) Hlo). }
  assert (Hr1 : vle (of_nat c / of_nat n) 1).
  { unfold vle.
    apply (xle_trans _ _ _ Hhi). apply (xle_trans _ (Fin 1)).
    - apply xeq_xle_l, div_self, Hpos.
    - apply xeq_xle_r, B2X_one. }
  assert (E0 : 0 * 100 = 0) by (vm_compute; reflexivity).
  assert (E1 : 1 * 100 = 100) by (vm_compute; reflexivity).
  pose proof (mul_mono _ _ 100 eq_refl Hr0) as H0. rewrite E0 in H0.
  pose proof (mul_mono _ _ 100 eq_refl Hr1) as H1. rewrite E1 in H1.
  split; assumption.
Qed.

(** C1, as amended.  In the arithmetic of the code, for a frame with typed
    columns that is not empty, [render_summary] returns; the hazardous
    percentage is the double [hazardous_count / total * 100], the count and
    the total being those of the rows, and lies between 0 and 100.  There is
    no guard for the empty frame and no error result: without columns
    [render_summary] raises [KeyError]; with object columns it raises
    [ZeroDivisionError]; with typed columns it returns NaN for the percentage
    and for the mean; and [app.py] does not reach its summary, the frame built
    from no rows having no columns. *)
Theorem hazardous_pct_nonempty :
  (forall df : list (FlatRecord float),
      df <> [] -> (Z.of_nat (List.length df) < 2 ^ 63)%Z ->
      exists a,
        render_summary (Typed df) = Ret a
        /\ total a = List.length df
        /\ hazardous_count a = List.length (filter is_hazardous df)
        /\ hazardous_pct a = of_nat (hazardous_count a) / of_nat (total a) * 100
        /\ (0 <=? hazardous_pct a) = true
        /\ (hazardous_pct a <=? 100) = true)
  /\ render_summary (F := float) NoColumns = Raise KeyError
  /\ render_summary (F := float) EmptyObject = Raise ZeroDivisionError
  /\ render_summary (F := float) (Typed [])
     = Ret {| total := 0; hazardous_count := 0; hazardous_pct := nan;
              mean_avg_diameter_km := nan |}
  /\ summary_statistics (F := float) [] = Raise KeyError.
Proof.
  split; [|repeat split; vm_compute; reflexivity].
  intros df Hne Hlt.
  exists (summary_metrics df). split; [reflexivity|].
  split; [reflexivity|]. split; [reflexivity|].
  assert (E : hazardous_pct (summary_metrics df)
              = of_nat (hazardous_count (summary_metrics df))
                / of_nat (total (summary_metrics df)) * 100).
  { destruct literals as (_ & _ & _ & _ & _ & _ & E100 & _).
    unfold summary_metrics. cbn [hazardous_pct hazardous_count total].
    cbn [fmul fdiv of_Q binary64]. now rewrite E100. }
  split; [exact E|]. rewrite E. cbn [hazardous_count total summary_metrics].
  assert (Hpos : (0 < List.length df)%nat) by (destruct df; [contradiction | simpl; lia]).
  destruct (percentage_bounds _ _ (filter_length_le is_hazardous df) Hpos Hlt) as [H0 H1].
  split; apply leb_vle; assumption.
Qed.

Lemma hazardous_pct_nonempty_witness :
  exists a,
    render_summary (Typed [sample true 0.2 500000; sample false 0.1 900000;
                           sample false 0.3 700000]) = Ret a
    /\ total a = 3%nat
    /\ hazardous_count a = 1%nat
    /\ hazardous_pct a = of_nat (hazardous_count a) / of_nat (total a) * 100
    /\ (0 <=? hazardous_pct a) = true
    /\ (hazardous_pct a <=? 100) = true.
Proof.
  apply (proj1 hazardous_pct_nonempty
           [sample true 0.2 500000; sample false 0.1 900000; sample false 0.3 700000]).
  - discriminate.
  - reflexivity.
Defined.

(** One hazardous row of three: the percentage is 33.33333333333333, not the
    third of a hundred. *)
Example hazardous_pct_one_of_three :
  exists a,
    render_summary (Typed [sample true 0.2 500000; sample false 0.1 900000;
                           sample false 0.3 700000]) = Ret a
    /\ hazardous_pct a = 33.33333333333333.
Proof. eexists. split; vm_compute; reflexivity. Qed.

(** C1 fails on the empty set: [app.py] raises [KeyError] before its summary;
    [render_summary] raises [KeyError] on a frame without columns and
    [ZeroDivisionError], a division fault, on empty object columns, and on
    empty typed columns it returns NaN twice with no error; nowhere is there an
    explicit error result. *)
Lemma summary_of_nothing :
  summary_statistics (F := float) [] = Raise KeyError
  /\ ~ returns (summary_statistics (F := float) [])
  /\ render_summary (F := float) NoColumns = Raise KeyError
  /\ render_summary (F := float) EmptyObject = Raise ZeroDivisionError
  /\ render_summary (F := float) (Typed [])
     = Ret {| total := 0; hazardous_count := 0; hazardous_pct := nan;
              mean_avg_diameter_km := nan |}.
Proof.
  split; [reflexivity|]. split; [|repeat split; vm_compute; reflexivity].
  intros [a Ha]. discriminate.
Qed.

(** The mean of a column is numpy's pairwise sum over the count: eight
    entries 0.1 have the mean 0.1, where adding them from left to right would
    give 0.09999999999999999. *)
Example mean_of_eight :
  mean (repeat 0.1 8) = 0.1
  /\ fold_left PrimFloat.add (repeat 0.1 8) 0 / 8 = 0.09999999999999999.
Proof. split; vm_compute; reflexivity. Qed.

End Deriver.

(** ** The scenario of the spec *)

Section Scenario.

Local Open Scope float_scope.



End Scenario.

(** * Further properties of the code *)

(** ** Record Normalizer: what a row holds *)

Section Rows.

Context {F : Type} `{Float64 F}.

Ltac step :=
  match goal with
  | |- context [subscript ?v ?k] =>
      let E := fresh "E" in destruct (subscript v k) eqn:E; simpl
  | |- context [py_float ?v] =>
      let E := fresh "E" in destruct (py_float v) eqn:E; simpl
  end.

Lemma asteroid_row_fields (date : string) (asteroid : json F) (info : asteroid_info F) :
  asteroid_row date asteroid = Ret (Some info) -> row_of (date, asteroid) info.
Proof.
  unfold asteroid_row, row_of; simpl.
  destruct (subscript asteroid (KStr "close_approach_data")) as [cad|] eqn:Ecad; simpl;
    [|discriminate].
  destruct (truth cad); simpl; [|discriminate].
  repeat step; try discriminate.
  intros [= <-]; simpl. auto.
Qed.

Lemma for_objects_rows (objects : list (string * json F)) :
  forall acc,
    forallb well_formed_object (map snd objects) = true ->
    exists rows,
      for_objects objects acc = Ret (acc ++ rows)
      /\ Forall2 row_of (filter (fun p => has_approach (snd p)) objects) rows.
Proof.
  induction objects as [|[date o] rest IH]; intros acc; simpl.
  - intros _; exists []; rewrite app_nil_r; split; [reflexivity | constructor].
  - intros Hwf; apply andb_prop in Hwf; destruct Hwf as [Ho Hrest].
    destruct (asteroid_row_returns date o Ho) as [row [Erow Hrow]].
    rewrite Erow; simpl.
    destruct row as [info|].
    + destruct (IH (acc ++ [info]) Hrest) as [rows [-> Hall]].
      exists (info :: rows); split; [now rewrite <- app_assoc|].
      assert (Hh : has_approach o = true) by (apply Hrow; discriminate).
      rewrite Hh. constructor; [now apply asteroid_row_fields | exact Hall].
    + destruct (IH acc Hrest) as [rows [-> Hall]].
      exists rows; split; [reflexivity|].
      destruct (has_approach o) eqn:Hh; [|exact Hall].
      exfalso; now apply Hrow.
Qed.

(** X1.  For a well-formed feed the rows come in the order of the feed, one
    for each object that has a close approach; each row is filed under the
    date key of the feed (not the date of the approach) and carries the id,
    name and hazard flag of its object. *)
Theorem normalize_rows_in_feed_order (data : json F) (objects : list (string * json F)) :
  feed_objects data = Ret objects ->
  forallb well_formed_object (map snd objects) = true ->
  exists rows,
    normalize data = Ret rows
    /\ Forall2 row_of (filter (fun p => has_approach (snd p)) objects) rows.
Proof.
  intros Efeed Hwf.
  rewrite (normalize_flat _ _ Efeed).
  destruct (for_objects_rows objects [] Hwf) as [rows [Hrows Hall]].
  now exists rows.
Qed.

Lemma lookup_set_field_same (k : string) (v : json F) (kv : list (string * json F)) :
  lookup k (set_field k v kv) = Some v.
Proof.
  induction kv as [|[k' v'] rest IH]; simpl.
  - now rewrite String.eqb_refl.
  - destruct (String.eqb k k') eqn:E; simpl; rewrite ?String.eqb_refl, ?E; auto.
Qed.

Lemma lookup_set_field_other (k k' : string) (v : json F) (kv : list (string * json F)) :
  String.eqb k' k = false ->
  lookup k' (set_field k v kv) = lookup k' kv.
Proof.
  intros Hne; induction kv as [|[k0 v0] rest IH]; simpl.
  - now rewrite Hne.
  - destruct (String.eqb k k0) eqn:E; simpl.
    + apply String.eqb_eq in E; subst k0. now rewrite Hne.
    + now rewrite IH.
Qed.

(** X2.  Only the first close approach of an object is read: two objects
    that differ in their later approaches only give the same row, or the
    same exception. *)
Theorem later_approaches_ignored (date : string) (kv : list (string * json F))
    (first : json F) (later later' : list (json F)) :
  asteroid_row date (JDict (set_field "close_approach_data" (JList (first :: later)) kv))
  = asteroid_row date (JDict (set_field "close_approach_data" (JList (first :: later')) kv)).
Proof.
  unfold asteroid_row.
  assert (Hcad : forall l,
             subscript (JDict (set_field "close_approach_data" (JList l) kv))
               (KStr "close_approach_data") = Ret (JList l))
    by (intros l; simpl; now rewrite lookup_set_field_same).
  assert (Hother : forall l k,
             String.eqb k "close_approach_data" = false ->
             subscript (JDict (set_field "close_approach_data" (JList l) kv)) (KStr k)
             = subscript (JDict kv) (KStr k))
    by (intros l k Hk; simpl; now rewrite lookup_set_field_other).
  rewrite !Hcad.
  rewrite !(Hother _ "id"%string eq_refl), !(Hother _ "name"%string eq_refl),
    !(Hother _ "estimated_diameter"%string eq_refl),
    !(Hother _ "is_potentially_hazardous_asteroid"%string eq_refl).
  cbn [bind truth negb].
  rewrite !subscript_head.
  reflexivity.
Qed.

End Rows.

Lemma normalize_rows_in_feed_order_witness :
  exists rows,
    normalize (F := float) (feed_of [dust; rock]) = Ret rows
    /\ Forall2 row_of [("2024-01-01"%string, rock)] rows.
Proof.
  apply (normalize_rows_in_feed_order (feed_of [dust; rock])
           [("2024-01-01"%string, dust); ("2024-01-01"%string, rock)]);
    vm_compute; reflexivity.
Defined.


(** ** The frame and its summary *)

Section Frame.

Context {F : Type} `{Float64 F}.

(** X3.  A well-formed feed in which no object has a close approach (a feed
    with no objects among them) gives no rows, and the page then fails with
    [KeyError] when it computes the average diameter: the frame built from no
    rows has no columns. *)
Theorem frame_of_no_rows (data : json F) (objects : list (string * json F)) :
  feed_objects data = Ret objects ->
  forallb well_formed_object (map snd objects) = true ->
  existsb has_approach (map snd objects) = false ->
  normalize data = Ret [] /\ frame data = Raise KeyError.
Proof.
  intros Efeed Hwf Hnone.
  destruct (for_objects_well_formed objects [] Hwf) as [rows [Hrows Hlen]].
  assert (Hnil : filter has_approach (map snd objects) = []).
  { clear - Hnone. induction (map snd objects) as [|o l IH]; simpl in *; [reflexivity|].
    apply orb_false_elim in Hnone; destruct Hnone as [-> Hl]. now apply IH. }
  rewrite Hnil in Hlen. destruct rows; [|discriminate].
  unfold frame. rewrite (normalize_flat _ _ Efeed), Hrows. split; reflexivity.
Qed.




End Frame.

Lemma frame_of_no_rows_witness :
  normalize (F := float) (feed_of [dust; dust]) = Ret []
  /\ frame (F := float) (feed_of [dust; dust]) = Raise KeyError.
Proof.
  apply (frame_of_no_rows (feed_of [dust; dust])
           [("2024-01-01"%string, dust); ("2024-01-01"%string, dust)]);
    vm_compute; reflexivity.
Defined.



(** ** Selection Engine: what the filters keep *)

Section Kept.

Context {F : Type} `{Float64 F}.

(** X5.  A row is in the selection exactly when it is in the frame, is
    hazardous if the box is ticked, and is at least as large as the
    threshold. *)
Theorem filtered_df_keeps (show_hazardous : bool) (size_threshold : F)
    (df : list (FlatRecord F)) (r : FlatRecord F) :
  In r (filtered_df show_hazardous size_threshold df)
  <-> In r df
      /\ (show_hazardous = true -> is_hazardous r = true)
      /\ fle size_threshold (avg_diameter_km r) = true.
Proof.
  unfold filtered_df, size_filter, hazardous_filter.
  rewrite filter_In. destruct show_hazardous.
  - rewrite filter_In. destruct (is_hazardous r); simpl; intuition congruence.
  - intuition congruence.
Qed.

Lemma filter_twice {A : Type} (p : A -> bool) (l : list A) :
  filter p (filter p l) = filter p l.
Proof.
  induction l as [|a l IH]; simpl; [reflexivity|].
  destruct (p a) eqn:Hp; simpl; rewrite ?Hp, IH; reflexivity.
Qed.

(** X6.  Selecting again with the same box and threshold changes nothing. *)
Theorem filtered_df_idempotent (show_hazardous : bool) (size_threshold : F)
    (df : list (FlatRecord F)) :
  filtered_df show_hazardous size_threshold
    (filtered_df show_hazardous size_threshold df)
  = filtered_df show_hazardous size_threshold df.
Proof.
  unfold filtered_df, size_filter, hazardous_filter.
  destruct show_hazardous; [|apply filter_twice].
  rewrite (filter_swap (fun r => Bool.eqb (is_hazardous r) true)
             (fun r => fle size_threshold (avg_diameter_km r))).
  now rewrite !filter_twice.
Qed.

(** X7.  With the box not ticked, a frame in which every row is at least as
    large as the threshold is shown whole. *)
Theorem filtered_df_all (size_threshold : F) (df : list (FlatRecord F)) :
  Forall (fun r => fle size_threshold (avg_diameter_km r) = true) df ->
  filtered_df false size_threshold df = df.
Proof.
  unfold filtered_df, size_filter, hazardous_filter.
  induction 1 as [|r df Hr Hdf IH]; simpl; [reflexivity|].
  now rewrite Hr, IH.
Qed.

Lemma find_name_is (sorted_df : list (FlatRecord F)) (selected : string) :
  match find (name_is selected) sorted_df with
  | Some r => exists before after,
                sorted_df = before ++ r :: after
                /\ name r = JStr selected
                /\ Forall (fun r' => name r' <> JStr selected) before
  | None => Forall (fun r' => name r' <> JStr selected) sorted_df
  end.
Proof.
  assert (Hname : forall r : FlatRecord F,
             name_is selected r = true <-> name r = JStr selected).
  { intros r; unfold name_is. destruct (name r); try (split; discriminate).
    rewrite String.eqb_eq. split; [now intros -> | now intros [= ->]]. }
  induction sorted_df as [|r l IH]; simpl; [constructor|].
  destruct (name_is selected r) eqn:Hr.
  - exists [], l. repeat split; [now apply Hname | constructor].
  - assert (Hn : name r <> JStr selected)
      by (intros E; apply Hname in E; congruence).
    destruct (find (name_is selected) l) as [r'|].
    + destruct IH as (before & after & -> & Hn' & Hall).
      exists (r :: before), after. repeat split; auto.
    + constructor; auto.
Qed.

(** X8.  The details are those of the first row that has the selected
    name: whenever a row of the sorted frame has the name, and the name is
    not the empty string, a row is found, it has that name, and no row before
    it has. *)
Theorem asteroid_details_first (sorted_df : list (FlatRecord F)) (selected : string)
    (r0 : FlatRecord F) :
  In r0 sorted_df -> name r0 = JStr selected -> selected <> ""%string ->
  exists before r after,
    asteroid_details sorted_df selected = Ret (Some r)
    /\ sorted_df = before ++ r :: after
    /\ name r = JStr selected
    /\ Forall (fun r' => name r' <> JStr selected) before.
Proof.
  intros Hin Hname Hne. unfold asteroid_details.
  apply String.eqb_neq in Hne. rewrite Hne.
  pose proof (find_name_is sorted_df selected) as Hfind.
  destruct (find (name_is selected) sorted_df) as [r|].
  - destruct Hfind as (before & after & Hsplit & Hn & Hall).
    now exists before, r, after.
  - rewrite Forall_forall in Hfind. now destruct (Hfind r0 Hin).
Qed.

(** X9.  Looking the details up raises [IndexError] exactly when the
    selection is not the empty string and no row of the frame has that
    name. *)
Theorem asteroid_details_raises (sorted_df : list (FlatRecord F)) (selected : string) :
  asteroid_details sorted_df selected = Raise IndexError
  <-> selected <> ""%string /\ Forall (fun r => name r <> JStr selected) sorted_df.
Proof.
  unfold asteroid_details.
  pose proof (find_name_is sorted_df selected) as Hfind.
  destruct (String.eqb selected "") eqn:He.
  - apply String.eqb_eq in He. split; [discriminate | now intros [Hne _]].
  - apply String.eqb_neq in He.
    destruct (find (name_is selected) sorted_df) as [r|].
    + split; [discriminate|]. intros [_ Hall].
      destruct Hfind as (before & after & -> & Hn & _).
      rewrite Forall_forall in Hall. exfalso; apply (Hall r); [|exact Hn].
      apply in_or_app; right; left; reflexivity.
    + split; auto.
Qed.

End Kept.

Lemma filtered_df_all_witness :
  filtered_df false 0%float [sample true 0.2%float 500000%float]
  = [sample true 0.2%float 500000%float].
Proof.
  apply (filtered_df_all 0%float [sample true 0.2%float 500000%float]).
  repeat constructor.
Defined.

Lemma asteroid_details_first_witness :
  exists before r after,
    asteroid_details [sample false 0.1%float 1%float; sample true 0.2%float 2%float] "Rock"
    = Ret (Some r)
    /\ [sample false 0.1%float 1%float; sample true 0.2%float 2%float] = before ++ r :: after
    /\ name r = JStr "Rock"
    /\ Forall (fun r' => name r' <> JStr "Rock") before.
Proof.
  apply (asteroid_details_first
           [sample false 0.1%float 1%float; sample true 0.2%float 2%float] "Rock"
           (sample true 0.2%float 2%float)).
  - right; left; reflexivity.
  - reflexivity.
  - discriminate.
Defined.



(** ** Selection and score, in binary64 *)

Section Thresholds.

Local Open Scope float_scope.

(** X10.  Raising the size threshold never adds a row: every row selected
    at the higher threshold is selected at the lower one. *)
Theorem size_threshold_monotone (show_hazardous : bool) (lower higher : float)
    (df : list (FlatRecord float)) (r : FlatRecord float) :
  (lower <=? higher) = true ->
  In r (filtered_df show_hazardous higher df) ->
  In r (filtered_df show_hazardous lower df).
Proof.
  intros Hle. unfold filtered_df, size_filter. rewrite !filter_In.
  intros [Hin Hsize]. split; [exact Hin|].
  cbn [fle binary64] in *. apply leb_vle.
  exact (vle_trans _ _ _ (leb_true_vle _ _ Hle) (leb_true_vle _ _ Hsize)).
Qed.

Lemma size_threshold_monotone_witness :
  In (sample true 0.2 500000) (filtered_df true 0.05 [sample true 0.2 500000]).
Proof.
  apply (size_threshold_monotone true 0.05 0.1 [sample true 0.2 500000]).
  - reflexivity.
  - left; reflexivity.
Defined.

Lemma size_factor_large (r : FlatRecord float) :
  (0.5 <=? avg_diameter_km r) = true -> size_factor r = 1.
Proof.
  intros H. apply leb_true_vle in H. rewrite size_factor_eq. apply pymin_above.
  assert (E : 0.5 / 0.5 = 1) by (vm_compute; reflexivity).
  rewrite <- E at 1. apply div_mono; [reflexivity | exact H].
Qed.

(** X11.  A hazardous row of at least half a kilometre that passes within a
    million kilometres (the positive zero included) scores exactly 100: the
    progress bar is full and the tier is high. *)
Theorem hazard_level_saturates (r : FlatRecord float) :
  is_hazardous r = true ->
  (0.5 <=? avg_diameter_km r) = true ->
  ((0 <? miss_distance_km r) = true /\ (miss_distance_km r <=? 1000000) = true)
  \/ miss_distance_km r = 0 ->
  hazard_level r = 100 /\ hazard_display r = Ret (100%Z, high).
Proof.
  intros Hh Havg Hmiss.
  assert (Hd : distance_factor r = 1).
  { destruct Hmiss as [[Hpos Hle]|Hzero];
      [now apply distance_factor_near | now apply distance_factor_at_zero]. }
  assert (Hl : hazard_level r = 100).
  { rewrite (hazard_level_eq r Hh), (size_factor_large r Havg), Hd.
    vm_compute. reflexivity. }
  split; [exact Hl|].
  unfold hazard_display, progress_value, hazard_tier. rewrite Hl.
  vm_compute. reflexivity.
Qed.

Lemma hazard_level_saturates_witness :
  hazard_level (sample true 0.75 400000) = 100
  /\ hazard_display (sample true 0.75 400000) = Ret (100%Z, high).
Proof.
  apply (hazard_level_saturates (sample true 0.75 400000));
    [reflexivity | reflexivity | left; split; reflexivity].
Defined.

Lemma hazard_tier_rank (r : FlatRecord float) :
  tier_rank (hazard_tier r)
  = if 70 <? hazard_level r then 2%nat else if 40 <? hazard_level r then 1%nat else 0%nat.
Proof.
  destruct literals as (_ & _ & _ & _ & _ & _ & _ & E70 & E40).
  unfold hazard_tier. cbn [flt of_Q binary64]. rewrite E70, E40.
  destruct (70 <? hazard_level r); [reflexivity|].
  destruct (40 <? hazard_level r); reflexivity.
Qed.

Lemma ltb_vle_trans (c x y : float) : (c <? x) = true -> vle x y -> (c <? y) = true.
Proof.
  intros H Hxy. apply ltb_vlt. apply ltb_vlt in H. exact (xlt_xle_trans _ _ _ H Hxy).
Qed.

Lemma tier_rank_mono (r1 r2 : FlatRecord float) :
  vle (hazard_level r1) (hazard_level r2) ->
  (tier_rank (hazard_tier r1) <= tier_rank (hazard_tier r2))%nat.
Proof.
  intros H. rewrite !hazard_tier_rank.
  destruct (70 <? hazard_level r1) eqn:E1.
  - rewrite (ltb_vle_trans _ _ _ E1 H). lia.
  - destruct (40 <? hazard_level r1) eqn:E2.
    + rewrite (ltb_vle_trans _ _ _ E2 H). destruct (70 <? hazard_level r2); lia.
    + lia.
Qed.

(** X12.  The tier follows the inputs: of two hazardous rows at the same
    positive miss distance the larger is never rated lower, and of two
    hazardous rows of the same diameter the nearer is never rated lower. *)
Theorem hazard_tier_monotone (r1 r2 : FlatRecord float) :
  is_hazardous r1 = true -> is_hazardous r2 = true ->
  (0 <? miss_distance_km r1) = true ->
  ((miss_distance_km r1 =? miss_distance_km r2) = true ->
   (avg_diameter_km r1 <=? avg_diameter_km r2) = true ->
   (tier_rank (hazard_tier r1) <= tier_rank (hazard_tier r2))%nat)
  /\ ((avg_diameter_km r1 =? avg_diameter_km r2) = true ->
      (miss_distance_km r1 <=? miss_distance_km r2) = true ->
      (tier_rank (hazard_tier r2) <= tier_rank (hazard_tier r1))%nat).
Proof.
  intros Hh1 Hh2 Hpos. apply positive_value in Hpos. split.
  - intros Emiss Havg. apply tier_rank_mono.
    apply (hazard_level_grows r1 r2 Hh1 Hh2 Hpos);
      [apply eqb_veq, Emiss | apply leb_true_vle, Havg].
  - intros Eavg Hmiss. apply tier_rank_mono.
    apply (hazard_level_falls r1 r2 Hh1 Hh2 Hpos);
      [apply eqb_veq, Eavg | apply leb_true_vle, Hmiss].
Qed.

Lemma hazard_tier_monotone_witness :
  le (tier_rank (hazard_tier (sample true 0.1 2000000)))
     (tier_rank (hazard_tier (sample true 0.4 2000000))).
Proof.
  assert (H1 : is_hazardous (sample true 0.1 2000000) = true) by reflexivity.
  assert (H2 : is_hazardous (sample true 0.4 2000000) = true) by reflexivity.
  assert (H3 : (0 <? miss_distance_km (sample true 0.1 2000000)) = true) by reflexivity.
  assert (H4 : (miss_distance_km (sample true 0.1 2000000)
                =? miss_distance_km (sample true 0.4 2000000)) = true) by reflexivity.
  assert (H5 : (avg_diameter_km (sample true 0.1 2000000)
                <=? avg_diameter_km (sample true 0.4 2000000)) = true) by reflexivity.
  exact (proj1 (hazard_tier_monotone _ _ H1 H2 H3) H4 H5).
Defined.

End Thresholds.

(** ** Date Window Validator: the window that comes back *)

(** The window that comes back is no longer than 7 days and lies in the one
    asked for. *)
Lemma validate_range_window (start_input end_input : Z) (w : Window) :
  validate_range start_input end_input = Ret w ->
  (end_date w - start_date w <= 7)%Z
  /\ start_date w = start_input
  /\ (end_date w <= end_input)%Z.
Proof.
  unfold validate_range.
  destruct (7 <? end_input - start_input)%Z eqn:Hd.
  - apply Z.ltb_lt in Hd. unfold date_add.
    destruct ((1 <=? start_input + 7) && (start_input + 7 <=? date_max))%Z; simpl;
      [|discriminate].
    intros [= <-]; simpl. repeat split; lia.
  - apply Z.ltb_ge in Hd. intros [= <-]; simpl. repeat split; lia.
Qed.

(** X13.  Whenever the validator returns, the window is at most 7 days
    long, starts where the request started, ends no later than was asked, and
    validating it again returns it unchanged with no warning. *)
Theorem validate_range_settles (start_input end_input : Z) (w : Window) :
  validate_range start_input end_input = Ret w ->
  (end_date w - start_date w <= 7)%Z
  /\ start_date w = start_input
  /\ (end_date w <= end_input)%Z
  /\ validate_range (start_date w) (end_date w)
     = Ret {| start_date := start_date w; end_date := end_date w; warned := false |}.
Proof.
  unfold validate_range.
  destruct (7 <? end_input - start_input)%Z eqn:Hd.
  - apply Z.ltb_lt in Hd. unfold date_add.
    destruct ((1 <=? start_input + 7) && (start_input + 7 <=? date_max))%Z; simpl;
      [|discriminate].
    intros [= <-]; simpl.
    replace (start_input + 7 - start_input)%Z with 7%Z by lia.
    repeat split; try lia; try reflexivity.
  - intros [= <-]; simpl. rewrite Hd. apply Z.ltb_ge in Hd.
    repeat split; try lia; try reflexivity.
Qed.

Lemma validate_range_settles_witness :
  validate_range 738886 738893
  = Ret {| start_date := 738886; end_date := 738893; warned := false |}.
Proof.
  apply (validate_range_settles 738886 738896
           {| start_date := 738886; end_date := 738893; warned := true |}).
  reflexivity.
Defined.

(** ** The request and the session *)

Section Runs.

Context {F : Type} `{Float64 F}.

Lemma display_session (w : Window) (s : session F) (events : list (event F)) :
  run_session (display w s events) = s.
Proof.
  unfold display. destruct (searched s); [|reflexivity].
  destruct (asteroid_data s) as [data|]; [|reflexivity].
  destruct (get data "element_count" (JInt 0)); [|reflexivity].
  destruct (frame data); reflexivity.
Qed.

Lemma display_requests (w : Window) (s : session F) (events : list (event F)) (p : params) :
  In (@sent_request F p) (run_events (display w s events)) -> In (@sent_request F p) events.
Proof.
  unfold display. destruct (searched s); [|auto].
  destruct (asteroid_data s) as [data|]; [|auto].
  destruct (get data "element_count" (JInt 0)); [|auto].
  assert (Hin : forall c, In (@sent_request F p)
                            (events ++ [success_found c (start_date w) (end_date w)]) ->
                          In (@sent_request F p) events).
  { intros c Hin. apply in_app_or in Hin. destruct Hin as [Hin|[Hin|[]]];
      [exact Hin | discriminate]. }
  destruct (frame data); simpl; apply Hin.
Qed.

Lemma fetch_requests (env : environment F) (start_date end_date : Z) (p : params) :
  In (@sent_request F p) (snd (fetch_asteroid_data env start_date end_date)) ->
  param_start_date p = start_date /\ param_end_date p = end_date
  /\ NASA_API_KEY env = Some (param_api_key p) /\ param_api_key p <> ""%string.
Proof.
  unfold fetch_asteroid_data.
  destruct (NASA_API_KEY env) as [k|]; simpl; [|intros [H0|[]]; discriminate].
  destruct (String.eqb k "") eqn:Hk; simpl; [intros [H0|[]]; discriminate|].
  apply String.eqb_neq in Hk.
  destruct (requests_get env _); simpl.
  - intros [[= <-]|[]]; simpl; auto.
  - intros [[= <-]|[H0|[]]]; simpl; auto; discriminate.
Qed.

(** X14.  A request that a run sends never asks for more than 7 days: it
    starts at the start date given, it ends at most 7 days later and no later
    than the end date given, and it carries the key of the environment, which
    is not empty. *)
Theorem request_window (env : environment F) (start_input end_input : Z) (button : bool)
    (s : session F) (p : params) :
  In (@sent_request F p) (run_events (script env start_input end_input button s)) ->
  button = true
  /\ param_start_date p = start_input
  /\ (param_end_date p - param_start_date p <= 7)%Z
  /\ (param_end_date p <= end_input)%Z
  /\ NASA_API_KEY env = Some (param_api_key p)
  /\ param_api_key p <> ""%string.
Proof.
  unfold script.
  destruct (validate_range start_input end_input) as [w|] eqn:Ew; simpl; [|contradiction].
  destruct (validate_range_window _ _ _ Ew) as (Hspan & Hstart & Hend).
  assert (Hw : ~ In (@sent_request F p) (if warned w then [warning_date_range] else []))
    by (destruct (warned w); simpl; [intros [H0|[]]; discriminate | auto]).
  destruct button.
  2:{ intros Hin. apply display_requests in Hin. contradiction. }
  pose proof (fetch_requests env (start_date w) (end_date w) p) as Hfetch.
  destruct (fetch_asteroid_data env (start_date w) (end_date w)) as [[|data] sent];
    simpl in Hfetch.
  - simpl. intros Hin. apply in_app_or in Hin. destruct Hin as [Hin|Hin]; [contradiction|].
    destruct (Hfetch Hin) as (E1 & E2 & E3 & E4). rewrite E1, E2. repeat split; auto; lia.
  - assert (Hsent : In (@sent_request F p)
                      ((if warned w then [warning_date_range] else []) ++ sent
                       ++ [error_failed_to_fetch])
                    -> In (@sent_request F p) sent).
    { intros Hin. apply in_app_or in Hin. destruct Hin as [Hin|Hin]; [contradiction|].
      apply in_app_or in Hin. destruct Hin as [Hin|[Hin|[]]]; [exact Hin | discriminate]. }
    assert (Hsent' : In (@sent_request F p)
                       ((if warned w then [warning_date_range] else []) ++ sent)
                     -> In (@sent_request F p) sent).
    { intros Hin. apply in_app_or in Hin. destruct Hin as [Hin|Hin]; [contradiction | auto]. }
    intros Hin.
    assert (Hs : In (@sent_request F p) sent).
    { destruct data as [data|]; [destruct (truth data)|];
        apply display_requests in Hin; auto. }
    destruct (Hfetch Hs) as (E1 & E2 & E3 & E4). rewrite E1, E2. repeat split; auto; lia.
Qed.

(** X15.  Every run keeps the session sound: if, before the run, the data
    is there and true whenever [searched] is set, then so it is after; and a
    run never unsets [searched]. *)
Theorem session_ok_kept (env : environment F) (start_input end_input : Z) (button : bool)
    (s : session F) :
  session_ok s ->
  session_ok (run_session (script env start_input end_input button s))
  /\ (searched s = true ->
      searched (run_session (script env start_input end_input button s)) = true).
Proof.
  intros Hok. unfold script.
  destruct (validate_range start_input end_input) as [w|]; simpl; [|auto].
  destruct button; [|rewrite display_session; auto].
  destruct (fetch_asteroid_data env (start_date w) (end_date w)) as [[|data] sent]; simpl;
    [auto|].
  destruct data as [data|]; [|rewrite display_session; auto].
  destruct (truth data) eqn:Ht; rewrite display_session; [|auto].
  split; [|reflexivity].
  intros _; exists data; auto.
Qed.

(** X16.  A search that fails (the service raises, or answers with JSON
    that is false, such as an empty object) leaves the session as it was and
    shows the error: results of an earlier search stay on display. *)
Theorem failed_search_keeps_session (env : environment F) (start_input end_input : Z)
    (s : session F) (w : Window) (api_key : string) :
  validate_range start_input end_input = Ret w ->
  NASA_API_KEY env = Some api_key -> api_key <> ""%string ->
  match requests_get env {| param_start_date := start_date w;
                            param_end_date := end_date w;
                            param_api_key := api_key |} with
  | Some data => truth data = false
  | None => True
  end ->
  run_session (script env start_input end_input true s) = s
  /\ In error_failed_to_fetch (run_events (script env start_input end_input true s))
  /\ run_status (script env start_input end_input true s)
     = run_status (display w s []).
Proof.
  intros Ew Hkey Hne Hfail. unfold script, fetch_asteroid_data.
  rewrite Ew, Hkey. apply String.eqb_neq in Hne. rewrite Hne.
  assert (Hstatus : forall events, run_status (display w s events)
                                   = run_status (display w s [])).
  { intros events. unfold display. destruct (searched s); [|reflexivity].
    destruct (asteroid_data s) as [data|]; [|reflexivity].
    destruct (get data "element_count" (JInt 0)); [|reflexivity].
    destruct (frame data); reflexivity. }
  assert (Hevents : forall events, In error_failed_to_fetch events ->
                                   In error_failed_to_fetch (run_events (display w s events))).
  { intros events Hin. unfold display. destruct (searched s); [|exact Hin].
    destruct (asteroid_data s) as [data|]; [|exact Hin].
    destruct (get data "element_count" (JInt 0)); [|exact Hin].
    destruct (frame data); simpl; apply in_or_app; now left. }
  destruct (requests_get env _) as [data|]; [rewrite Hfail|];
    rewrite display_session, Hstatus; (split; [reflexivity|]); (split; [|reflexivity]);
    apply Hevents; apply in_or_app; right; apply in_or_app; right; left; reflexivity.
Qed.

(** X17.  Without a key in the environment (unset, or empty) a search stops
    the run at once: the error is shown, no request is sent, the session is as
    it was, and nothing of an earlier search is displayed. *)
Theorem no_key_stops (env : environment F) (start_input end_input : Z) (s : session F)
    (w : Window) :
  validate_range start_input end_input = Ret w ->
  NASA_API_KEY env = None \/ NASA_API_KEY env = Some ""%string ->
  script env start_input end_input true s
  = {| run_status := stopped;
       run_session := s;
       run_events := (if warned w then [warning_date_range] else [])
                     ++ [error_key_not_set] |}.
Proof.
  intros Ew Hkey. unfold script, fetch_asteroid_data. rewrite Ew.
  destruct Hkey as [-> | ->]; reflexivity.
Qed.

(** X18.  A search that succeeds puts the answer in the session, whatever
    was there, and the page then shows the count the answer gives for itself
    and the window of this run. *)
Theorem successful_search_stores (env : environment F) (start_input end_input : Z)
    (s : session F) (w : Window) (api_key : string) (data : json F) :
  validate_range start_input end_input = Ret w ->
  NASA_API_KEY env = Some api_key -> api_key <> ""%string ->
  requests_get env {| param_start_date := start_date w;
                      param_end_date := end_date w;
                      param_api_key := api_key |} = Some data ->
  truth data = true ->
  run_session (script env start_input end_input true s)
  = {| asteroid_data := Some data; searched := true |}
  /\ forall element_count,
      get data "element_count" (JInt 0) = Ret element_count ->
      In (success_found element_count (start_date w) (end_date w))
         (run_events (script env start_input end_input true s)).
Proof.
  intros Ew Hkey Hne Hget Ht. unfold script, fetch_asteroid_data.
  rewrite Ew, Hkey. apply String.eqb_neq in Hne. rewrite Hne, Hget, Ht.
  rewrite display_session. split; [reflexivity|].
  intros c Hc. unfold display; simpl. rewrite Hc.
  destruct (frame data); simpl; apply in_or_app; right; left; reflexivity.
Qed.

End Runs.

(** The runs of the examples: ten days asked from 2024-01-01, with the
    service answering, the service down, and no key. *)

Lemma request_window_witness :
  true = true
  /\ 738886%Z = 738886%Z
  /\ (738893 - 738886 <= 7)%Z
  /\ (738893 <= 738896)%Z
  /\ NASA_API_KEY (service_up (F := float)) = Some "DEMO_KEY"%string
  /\ "DEMO_KEY"%string <> ""%string.
Proof.
  apply (request_window (service_up (F := float)) 738886 738896 true new_session
           {| param_start_date := 738886; param_end_date := 738893;
              param_api_key := "DEMO_KEY" |}).
  vm_compute. right; left; reflexivity.
Defined.

Lemma session_ok_kept_witness :
  session_ok (run_session (script (service_up (F := float)) 738886 738889 true new_session)).
Proof.
  apply (session_ok_kept (service_up (F := float)) 738886 738889 true new_session).
  intros H; discriminate H.
Defined.

Lemma failed_search_keeps_session_witness :
  run_session (script (service_down (F := float)) 738886 738889 true new_session)
  = new_session
  /\ In error_failed_to_fetch
       (run_events (script (service_down (F := float)) 738886 738889 true new_session)).
Proof.
  assert (Hw : validate_range 738886 738889
               = Ret {| start_date := 738886; end_date := 738889; warned := false |})
    by reflexivity.
  assert (Hkey : NASA_API_KEY (service_down (F := float)) = Some "DEMO_KEY"%string)
    by reflexivity.
  assert (Hne : "DEMO_KEY"%string <> ""%string) by discriminate.
  destruct (failed_search_keeps_session (service_down (F := float)) 738886 738889 new_session
              _ _ Hw Hkey Hne I) as (Hs & He & _).
  split; assumption.
Defined.

Lemma no_key_stops_witness :
  script (key_unset (F := float)) 738886 738896 true new_session
  = {| run_status := stopped;
       run_session := new_session;
       run_events := [warning_date_range; error_key_not_set] |}.
Proof.
  assert (Hw : validate_range 738886 738896
               = Ret {| start_date := 738886; end_date := 738893; warned := true |})
    by reflexivity.
  assert (Hkey : NASA_API_KEY (key_unset (F := float)) = None
                 \/ NASA_API_KEY (key_unset (F := float)) = Some ""%string)
    by (left; reflexivity).
  exact (no_key_stops (key_unset (F := float)) 738886 738896 new_session _ Hw Hkey).
Defined.

Lemma successful_search_stores_witness :
  run_session (script (service_up (F := float)) 738886 738889 true new_session)
  = {| asteroid_data := Some scenario; searched := true |}.
Proof.
  assert (Hw : validate_range 738886 738889
               = Ret {| start_date := 738886; end_date := 738889; warned := false |})
    by reflexivity.
  assert (Hkey : NASA_API_KEY (service_up (F := float)) = Some "DEMO_KEY"%string)
    by reflexivity.
  assert (Hne : "DEMO_KEY"%string <> ""%string) by discriminate.
  assert (Hget : requests_get (service_up (F := float))
                   {| param_start_date := 738886; param_end_date := 738889;
                      param_api_key := "DEMO_KEY" |} = Some scenario) by reflexivity.
  assert (Ht : truth (F := float) scenario = true) by reflexivity.
  exact (proj1 (successful_search_stores (service_up (F := float)) 738886 738889 new_session
                  _ _ _ Hw Hkey Hne Hget Ht)).
Defined.

(** ** The two ends of the percentage, in binary64 *)

Section Percentage.

Local Open Scope float_scope.

(** Doubles of equal value are equal for [==]. *)
Lemma veq_eqb (x y : float) : xeq (B2X x) (B2X y) -> (x =? y) = true.
Proof.
  intros E. rewrite FloatAxioms.eqb_spec. unfold SFeqb. unfold B2X in E.
  pose proof (SFcompare_spec _ _ (Prim2SF_valid x) (Prim2SF_valid y)) as H.
  destruct (SFcompare (Prim2SF x) (Prim2SF y)) as [[ | | ]|]; [reflexivity|exfalso..].
  - clear - E H. destruct (SF2X (Prim2SF x)), (SF2X (Prim2SF y)); simpl in *; try tauto.
    rewrite E in H. exact (Qlt_irrefl _ H).
  - clear - E H. destruct (SF2X (Prim2SF x)), (SF2X (Prim2SF y)); simpl in *; try tauto.
    rewrite E in H. exact (Qlt_irrefl _ H).
  - clear - E H. destruct H as [H|H]; rewrite H in E;
      [exact E | destruct (SF2X (Prim2SF x)); exact E].
Qed.

Lemma vlt_not_eqb (x y : float) : xlt (B2X x) (B2X y) -> (x =? y) = false.
Proof.
  intros H. destruct (x =? y) eqn:E; [|reflexivity]. apply eqb_veq in E.
  exfalso. clear - E H. destruct (B2X x), (B2X y); simpl in *; try tauto.
  rewrite E in H. exact (Qlt_irrefl _ H).
Qed.

(** An integer mantissa times a power of two with a negative exponent
    inverted is an integer. *)
Lemma scaled_integer (k c : Z) :
  (c <= 0)%Z -> (inject_Z k / pow2 c == inject_Z (k * 2 ^ (- c)))%Q.
Proof.
  intros Hc. rewrite inject_Z_mult, <- (pow2_Z (- c)) by lia.
  assert (E : (pow2 (- c) == / pow2 c)%Q).
  { unfold pow2. rewrite Qpower_opp. reflexivity. }
  rewrite E. reflexivity.
Qed.

Lemma rne_integer (j m : Z) : rne_rel (inject_Z j) m -> m = j.
Proof.
  intros H. pose proof (rne_le _ _ j (Qle_refl _) H). pose proof (rne_ge _ _ j (Qle_refl _) H).
  lia.
Qed.

(** A count below [2^53] is a double of exactly that value. *)
Lemma of_nat_exact (k : nat) :
  (Z.of_nat k < 2 ^ 53)%Z -> xeq (B2X (of_nat (F := float) k)) (Fin (inject_Z (Z.of_nat k))).
Proof.
  intros Hk. unfold of_nat. cbn [of_Q binary64].
  pose proof (B_Q2F (inject_Z (Z.of_nat k))) as Hr. cbn [rounds] in Hr.
  set (z := Z.of_nat k) in *. set (r := B2X (Q2F (inject_Z z))) in *. clearbody r.
  assert (Hz0 : (0 <= inject_Z z)%Q).
  { change 0%Q with (inject_Z 0). rewrite <- Zle_Qle. subst z. lia. }
  destruct Hr as [[E Hr]|[[Hpos Hr]|[Hneg _]]]; [| |lra].
  - apply (xeq_trans _ _ _ Hr). simpl. symmetry. exact E.
  - destruct Hr as (c & m & Hc & Hm & Hr).
    assert (Hc0 : (c <= 0)%Z).
    { destruct Hc as [[-> _]|[_ [Hlow _]]]; [lia|].
      destruct (Z_le_gt_dec c 0) as [H|H]; [exact H|exfalso].
      assert (H53 : (pow2 53 <= pow2 (c + 52))%Q) by (apply pow2_le; lia).
      assert (Hz : (inject_Z z < pow2 53)%Q).
      { rewrite (pow2_Z 53) by lia. rewrite <- Zlt_Qlt. exact Hk. }
      lra. }
    apply (rne_rel_eq _ _ _ (scaled_integer z c Hc0)) in Hm.
    apply rne_integer in Hm. subst m.
    assert (Ev : (at_exp (z * 2 ^ (- c)) c == inject_Z z)%Q).
    { unfold at_exp. rewrite <- (scaled_integer z c Hc0). apply scaled. }
    apply (xeq_trans _ _ _ Hr). unfold clip.
    destruct (Qle_bool (pow2 1024) (at_exp (z * 2 ^ (- c)) c)) eqn:B.
    + exfalso. apply Qle_bool_iff in B. rewrite Ev in B.
      assert (Hz : (inject_Z z < pow2 53)%Q).
      { rewrite (pow2_Z 53) by lia. rewrite <- Zlt_Qlt. exact Hk. }
      assert (H53 : (pow2 53 <= pow2 1024)%Q) by (apply pow2_le; lia).
      lra.
    + simpl. exact Ev.
Qed.

Lemma xeq_Fin (a : xq) (q : Q) : xeq a (Fin q) -> exists p, a = Fin p /\ (p == q)%Q.
Proof. destruct a as [p| | |]; simpl; try tauto. intros E. now exists p. Qed.

(** The ratio of a part to a whole, both below [2^53]: it is 0.0 for an
    empty part, 1.0 for the whole, and otherwise lies from [2^-53] to the
    double before 1.0. *)
Lemma ratio_ends (c n : nat) :
  (c <= n)%nat -> (0 < n)%nat -> (Z.of_nat n < 2 ^ 53)%Z ->
  (c = 0%nat -> xeq (B2X (of_nat c / of_nat n)) (Fin 0))
  /\ (c = n -> of_nat c / of_nat n = 1)
  /\ ((0 < c)%nat -> vle 0x1p-53 (of_nat c / of_nat n))
  /\ ((c < n)%nat -> vle (of_nat c / of_nat n) 0x1.fffffffffffffp-1).
Proof.
  intros Hcn Hn Hlt.
  assert (Hn63 : (Z.of_nat n < 2 ^ 63)%Z) by lia.
  pose proof (of_nat_pos_finite n Hn Hn63) as Hpos.
  destruct (xeq_Fin _ _ (of_nat_exact n Hlt)) as (qn & En & Hqn).
  destruct (xeq_Fin _ _ (of_nat_exact c ltac:(lia))) as (qc & Ec & Hqc).
  assert (Hn0 : (0 < inject_Z (Z.of_nat n))%Q).
  { change 0%Q with (inject_Z 0). rewrite <- Zlt_Qlt. lia. }
  assert (Hc0 : (0 <= inject_Z (Z.of_nat c))%Q).
  { change 0%Q with (inject_Z 0). rewrite <- Zle_Qle. lia. }
  assert (Hcnq : (inject_Z (Z.of_nat c) <= inject_Z (Z.of_nat n))%Q).
  { rewrite <- Zle_Qle. lia. }
  assert (Hn53 : (inject_Z (Z.of_nat n) <= pow2 53)%Q).
  { rewrite (pow2_Z 53) by lia. rewrite <- Zle_Qle. lia. }
  pose proof (B_div (of_nat c) (of_nat n) (pos_finite_not_neg_zero _ Hpos)) as Hr.
  rewrite Ec, En in Hr. rewrite xdiv_fin in Hr by lra.
  split; [|split; [|split]].
  - intros ->. apply (rounds_zero_inv (qc / qn)); [|exact Hr].
    rewrite Hqc. change (inject_Z (Z.of_nat 0)) with 0%Q. field. lra.
  - intros ->. apply value_one. apply div_self, Hpos.
  - intros Hc.
    assert (Hc1 : (1 <= inject_Z (Z.of_nat c))%Q).
    { change 1%Q with (inject_Z 1). rewrite <- Zle_Qle. lia. }
    assert (R : rounds (Fin (pow2 (-53))) (B2X 0x1p-53)).
    { apply (rounds_eq (B2X 0x1p-53)); [vm_compute; reflexivity|].
      apply rounds_valid, Prim2SF_valid. }
    apply (rounds_mono (Fin (pow2 (-53))) (Fin (qc / qn)) _ _); [|exact R | exact Hr].
    cbn [xle]. rewrite Hqc, Hqn.
    apply Qle_shift_div_l; [exact Hn0|].
    apply Qle_trans with (pow2 (-53) * pow2 53)%Q.
    + apply Qmult_le_l; [apply pow2_pos | exact Hn53].
    + rewrite <- pow2_add. change (pow2 (-53 + 53)) with 1%Q. exact Hc1.
  - intros Hc.
    assert (Hc1 : (inject_Z (Z.of_nat c) + 1 <= inject_Z (Z.of_nat n))%Q).
    { change 1%Q with (inject_Z 1). rewrite <- inject_Z_plus, <- Zle_Qle. lia. }
    assert (R : rounds (Fin (1 - pow2 (-53))) (B2X 0x1.fffffffffffffp-1)).
    { apply (rounds_eq (B2X 0x1.fffffffffffffp-1)); [vm_compute; reflexivity|].
      apply rounds_valid, Prim2SF_valid. }
    apply (rounds_mono (Fin (qc / qn)) (Fin (1 - pow2 (-53))) _ _); [|exact Hr | exact R].
    cbn [xle]. rewrite Hqc, Hqn.
    apply Qle_shift_div_r; [exact Hn0|].
    assert (Hp : (pow2 (-53) * inject_Z (Z.of_nat n) <= 1)%Q).
    { apply Qle_trans with (pow2 (-53) * pow2 53)%Q.
      - apply Qmult_le_l; [apply pow2_pos | exact Hn53].
      - rewrite <- pow2_add. change (pow2 (-53 + 53)) with 1%Q. apply Qle_refl. }
    lra.
Qed.

Lemma no_row_hazardous (df : list (FlatRecord float)) :
  List.length (filter is_hazardous df) = 0%nat
  <-> forallb (fun r => negb (is_hazardous r)) df = true.
Proof.
  induction df as [|r df IH]; simpl; [tauto|].
  destruct (is_hazardous r); simpl; [split; discriminate | exact IH].
Qed.

(** X19.  For a frame that is not empty (and has fewer than [2^53] rows), in
    the arithmetic of the code: the hazardous percentage is 0 exactly when no
    row is hazardous, and 100 exactly when every row is. *)
Theorem hazardous_pct_ends (df : list (FlatRecord float)) :
  df <> [] -> (Z.of_nat (List.length df) < 2 ^ 53)%Z ->
  ((hazardous_pct (summary_metrics df) =? 0) = true
   <-> forallb (fun r => negb (is_hazardous r)) df = true)
  /\ ((hazardous_pct (summary_metrics df) =? 100) = true
      <-> forallb is_hazardous df = true).
Proof.
  intros Hne Hlt.
  assert (Hpos : (0 < List.length df)%nat) by (destruct df; [contradiction | simpl; lia]).
  pose proof (filter_length_le is_hazardous df) as Hle.
  rewrite <- no_row_hazardous, <- filter_length_all.
  assert (E : hazardous_pct (summary_metrics df)
              = of_nat (List.length (filter is_hazardous df)) / of_nat (List.length df) * 100).
  { destruct literals as (_ & _ & _ & _ & _ & _ & E100 & _).
    unfold summary_metrics. cbn [hazardous_pct]. cbn [fmul fdiv of_Q binary64].
    now rewrite E100. }
  rewrite E. clear E.
  set (c := List.length (filter is_hazardous df)) in *.
  set (n := List.length df) in *. clearbody c n. clear Hne df.
  destruct (ratio_ends c n Hle Hpos Hlt) as (Hzero & Hall & Hsome & Hpart).
  set (ratio := of_nat c / of_nat n) in *. clearbody ratio.
  assert (Hlow : (0 < c)%nat -> xlt (Fin 0) (B2X (ratio * 100))).
  { intros Hc. specialize (Hsome Hc).
    pose proof (mul_mono _ _ 100 eq_refl Hsome) as H.
    assert (Hp : xlt (Fin 0) (B2X (0x1p-53 * 100))).
    { apply xlt_bool_iff. vm_compute. reflexivity. }
    exact (xlt_xle_trans _ _ _ Hp H). }
  assert (Hhigh : (c < n)%nat -> xlt (B2X (ratio * 100)) (B2X 100)).
  { intros Hc. specialize (Hpart Hc).
    pose proof (mul_mono _ _ 100 eq_refl Hpart) as H.
    assert (Hp : xlt (B2X (0x1.fffffffffffffp-1 * 100)) (B2X 100)).
    { apply xlt_bool_iff. vm_compute. reflexivity. }
    clear - H Hp. unfold vle in H.
    destruct (B2X (ratio * 100)), (B2X (0x1.fffffffffffffp-1 * 100)), (B2X 100);
      simpl in *; try tauto. lra. }
  split; split.
  - intros Heq. destruct (Nat.eq_dec c 0) as [H0|H0]; [exact H0|exfalso].
    assert (Hc : (0 < c)%nat) by lia.
    specialize (Hlow Hc). rewrite <- B2X_zero in Hlow.
    apply eqb_veq in Heq. clear - Heq Hlow.
    destruct (B2X (ratio * 100)), (B2X 0); simpl in *; try tauto.
    rewrite Heq in Hlow. exact (Qlt_irrefl _ Hlow).
  - intros H0. specialize (Hzero H0). apply veq_eqb.
    rewrite B2X_zero.
    destruct (xeq_Fin _ _ Hzero) as (p & Ep & Hp).
    pose proof (B_mul ratio 100) as Hr. rewrite Ep in Hr.
    assert (E100 : exists q, B2X 100 = Fin q) by (eexists; vm_compute; reflexivity).
    destruct E100 as [q E100]. rewrite E100 in Hr. cbn [xmul] in Hr.
    apply (rounds_zero_inv (p * q)); [rewrite Hp; ring | exact Hr].
  - intros Heq. destruct (Nat.eq_dec c n) as [H0|H0]; [exact H0|exfalso].
    assert (Hc : (c < n)%nat) by lia.
    specialize (Hhigh Hc). apply vlt_not_eqb in Hhigh. congruence.
  - intros H0. rewrite (Hall H0). vm_compute. reflexivity.
Qed.

Lemma hazardous_pct_ends_witness :
  (hazardous_pct (summary_metrics [sample true 0.2 500000]) =? 100) = true
  <-> true = true.
Proof.
  apply (proj2 (hazardous_pct_ends [sample true 0.2 500000] ltac:(discriminate) eq_refl)).
Defined.

End Percentage.
